(** * gache: a sharded, time-expiring key/value cache

    A shallow embedding of [gache.go] (the generic, sharded engine) and the
    properties its specification states about it, followed by further
    properties of the code: of the sweeps of [DeleteExpired] and [Range], of
    readers in parallel, and of the HTTP cache of the second package of the
    file.

    Conventions of the embedding:
    - [int64] and [uint64] values are integers of [Z]; every arithmetic
      operation of the source that can wrap is written with its wrap-around
      ([wrap_int64], [wrap_uint64]);
    - [fastime.UnixNanoNow()] is an explicit argument [now] of the operation
      that reads the clock (one reading per call);
    - a shard (a pointer to [hashmap.Map[string, value[V]]]) is a [gmap string (value V)],
      the array of [slen] shards a list of shards indexed with
      stdpp's list lookup and insert;
    - the buffered channel [expChan] is the list of the keys queued in it; a
      send on a full channel does not return, which the [Blocked] outcome of
      the monad [M] records;
    - [xxh3.HashString] and [encoding/gob] are libraries outside the
      repository: they are the operations of the classes [Hasher] and [Gob];
    - goroutines that run in parallel are an interleaving of steps, each
      step one access to the shared cache ([reader_step]); the group of
      [singleflight] is the map of its calls in flight. *)

From stdpp Require Import gmap strings list fin_maps.
From Stdlib Require Import ZArith Lia.

Local Open Scope Z_scope.

(** ** Machine integers *)

Definition wrap_int64 (z : Z) : Z := (z + 2 ^ 63) mod 2 ^ 64 - 2 ^ 63.
Definition wrap_uint64 (z : Z) : Z := z mod 2 ^ 64.

Definition int64_range (z : Z) : Prop := - 2 ^ 63 ≤ z < 2 ^ 63.
Definition uint64_range (z : Z) : Prop := 0 ≤ z < 2 ^ 64.

(** [^uint64(0)] *)
Definition uint64_max : Z := wrap_uint64 (Z.lnot 0).

(** The conversion of [Len] through [unsafe.Pointer]: the bits of a [uint64]
    read as an [int] (64 bits wide). *)
Definition int_of_uint64 (u : Z) : Z := if u <? 2 ^ 63 then u else u - 2 ^ 64.

(** ** Interfaces of the libraries the source imports *)

(** The zero value of a Go type ([var val V]). *)
Class GoZero (V : Type) := go_zero : V.

(** [xxh3.HashString : string -> uint64]. *)
Class Hasher := HashString : string → Z.

(** Go's [error] values. *)
Definition error : Type := string.

(** [encoding/gob] at the type [map[string]V]: an encoder into, and a decoder
    from, the bytes of a stream ([wire]). Either can fail. A stream that an
    encoder produced decodes to the map that was encoded. *)
Class Gob (V : Type) := {
  wire : Type;
  gob_encode : gmap string V → error + wire;
  gob_decode : wire → error + gmap string V;
  gob_decode_encode : ∀ m w, gob_encode m = inr w → gob_decode w = inr m;
}.

(** ** Constants *)

(** [slen] is shards length *)
Definition slen : Z := 512.
(** [mask] is slen-1 Hex value *)
Definition mask : Z := 0x1FF.
(** [NoTTL] can be use for disabling ttl cache expiration *)
Definition NoTTL : Z := -1.

(** [time.Second], in nanoseconds. *)
Definition Second : Z := 1000000000.

(** ** Data *)

Record value (V : Type) := Value {
  vexpire : Z;   (* the field [expire] of [value[V]] *)
  val : V;
}.
Arguments Value {V} _ _.
Arguments vexpire {V} _.
Arguments val {V} _.

(** The fields of [gache[V]] that the operations below read or write.
    [expGroup] holds no state between two calls of a sequential run, [cancel]
    and [expFunc] belong to the daemon of [StartExpired]. *)
Record gache (V : Type) := Gache {
  expFuncEnabled : bool;
  expire : Z;                              (* int64 *)
  l : Z;                                   (* uint64 *)
  expChan : list string;                   (* chan string *)
  shards : list (gmap string (value V));   (* array of slen shards *)
}.
Arguments Gache {V} _ _ _ _ _.
Arguments expFuncEnabled {V} _.
Arguments expire {V} _.
Arguments l {V} _.
Arguments expChan {V} _.
Arguments shards {V} _.

Definition set_expFuncEnabled {V} (b : bool) (g : gache V) : gache V :=
  Gache b (expire g) (l g) (expChan g) (shards g).
Definition set_expire {V} (e : Z) (g : gache V) : gache V :=
  Gache (expFuncEnabled g) e (l g) (expChan g) (shards g).
Definition set_l {V} (n : Z) (g : gache V) : gache V :=
  Gache (expFuncEnabled g) (expire g) n (expChan g) (shards g).
Definition set_expChan {V} (c : list string) (g : gache V) : gache V :=
  Gache (expFuncEnabled g) (expire g) (l g) c (shards g).
Definition set_shards {V} (s : list (gmap string (value V))) (g : gache V) : gache V :=
  Gache (expFuncEnabled g) (expire g) (l g) (expChan g) s.

(** The capacity of [expChan]: [make(chan string, len(g.shards)*10)]. *)
Definition expChanCap : nat := Z.to_nat (slen * 10).

(** ** The monad of the operations that can block

    An operation either returns a result and the cache it leaves ([Done]), or
    stops at a channel send that cannot proceed ([Blocked], with the cache as
    it is at that point). *)

Inductive outcome (V A : Type) :=
  | Done (a : A) (g : gache V)
  | Blocked (g : gache V).
Arguments Done {V A} _ _.
Arguments Blocked {V A} _.

Definition M (V A : Type) : Type := gache V → outcome V A.

#[global] Instance M_ret {V} : MRet (M V) := λ A a g, Done a g.
#[global] Instance M_bind {V} : MBind (M V) := λ A B k m g,
  match m g with
  | Done a g' => k a g'
  | Blocked g' => Blocked g'
  end.

(** The cache an outcome leaves. *)
Definition final {V A} (o : outcome V A) : gache V :=
  match o with Done _ g => g | Blocked g => g end.

(** ** Operations *)

Section Gache.
Context {V : Type} {zeroV : GoZero V} {hasher : Hasher}.

(** [xxh3.HashString(key)&mask], the index into [g.shards]. *)
Definition shard_of (key : string) : nat :=
  Z.to_nat (Z.land (HashString key) mask).

(** [g.shards[i]]; the index of every access is [shard_of key], which is in
    range (see [shard_of_lt]). *)
Definition shard_at (g : gache V) (i : nat) : gmap string (value V) :=
  shards g !!! i.

(** isValid checks expiration of value *)
Definition isValid (v : value V) (now : Z) : bool :=
  (vexpire v <=? 0) || (now <=? vexpire v).

(** SetDefaultExpire set expire duration *)
Definition SetDefaultExpire (ex : Z) (g : gache V) : gache V :=
  set_expire ex g.

(** EnableExpiredHook enables expired hook function *)
Definition EnableExpiredHook (g : gache V) : gache V :=
  set_expFuncEnabled true g.

(** DisableExpiredHook disables expired hook function *)
Definition DisableExpiredHook (g : gache V) : gache V :=
  set_expFuncEnabled false g.

(** set sets key-value & expiration to Gache *)
Definition set (key : string) (v : V) (expire : Z) (now : Z) (g : gache V) : gache V :=
  let expire := if 0 <? expire then wrap_int64 (now + expire) else expire in
  let g := set_l (wrap_uint64 (l g + 1)) g in
  let i := shard_of key in
  set_shards (<[i := <[key := Value expire v]> (shard_at g i)]> (shards g)) g.

(** SetWithExpire sets key-value & expiration to Gache *)
Definition SetWithExpire (key : string) (v : V) (expire : Z) (now : Z) (g : gache V) : gache V :=
  set key v expire now g.

(** Set sets key-value to Gache using default expiration
    ([Set] is a reserved word here, hence [Set_]). *)
Definition Set_ (key : string) (v : V) (now : Z) (g : gache V) : gache V :=
  set key v (expire g) now g.

(** Delete deletes value from Gache using key *)
Definition Delete (key : string) (g : gache V) : gache V * bool :=
  let g := set_l (wrap_uint64 (l g + uint64_max)) g in
  let i := shard_of key in
  let m := shard_at g i in
  (set_shards (<[i := delete key m]> (shards g)) g, bool_decide (is_Some (m !! key))).

(** The function [expGroup.Do] runs for [key]; with no other caller in
    flight, [Do] runs it. *)
Definition expiration (key : string) : M V () := λ g,
  let g := (Delete key g).1 in
  if expFuncEnabled g then
    if decide (length (expChan g) < expChanCap)%nat
    then Done () (set_expChan (expChan g ++ [key]) g)
    else Blocked g
  else Done () g.

(** get returns value & exists from key *)
Definition get (key : string) (now : Z) : M V (V * Z * bool) := λ g,
  match shard_at g (shard_of key) !! key with
  | None => Done (go_zero, 0, false) g
  | Some v =>
      if isValid v now then Done (val v, vexpire v, true) g
      else (_ ← expiration key; mret (go_zero, vexpire v, false)) g
  end.

(** Get returns value & exists from key *)
Definition Get (key : string) (now : Z) : M V (V * bool) :=
  r ← get key now; mret (r.1.1, r.2).

(** GetWithExpire returns value & expire & exists from key *)
Definition GetWithExpire (key : string) (now : Z) : M V (V * Z * bool) :=
  get key now.

(** Len returns stored object length *)
Definition Len (g : gache V) : Z := int_of_uint64 (l g).

(** Clear deletes all key and value present in the Gache. *)
Definition Clear (g : gache V) : gache V :=
  set_shards (foldl (λ s i, <[i := ∅]> s) (shards g) (seq 0 (length (shards g)))) g.

(** Modelled from the spec: the option [WithDefaultExpiration] that [New]
    applies first is declared outside [gache.go]; by the specification it
    sets the default TTL of the instance (30 seconds if unspecified). *)
Definition WithDefaultExpiration (dur : Z) (g : gache V) : gache V :=
  SetDefaultExpire dur g.

(** [new(gache[V])]: every field at its zero value. *)
Definition new_gache : gache V :=
  Gache false 0 0 [] (replicate (Z.to_nat slen) ∅).

(** New returns Gache instance *)
Definition New (opts : list (gache V → gache V)) : gache V :=
  let g := foldl (λ g opt, opt g) new_gache (WithDefaultExpiration (Second * 30) :: opts) in
  let g := set_shards (foldl (λ s i, <[i := ∅]> s) (shards g) (seq 0 (length (shards g)))) g in
  set_expChan [] g.

(** The traversal [g.shards[idx].Range] runs in [Range]: the callback on
    the entries of one shard, in the order the shard yields them. It stops
    at the first entry for which the callback returns false. [ctx_done]
    says whether [c.Done()] is closed; the caller's function [f] acts on an
    accumulator [A] (the variables it captures). *)
Fixpoint range_shard {A} (ctx_done : bool) (f : string → V → Z → A → A * bool)
    (now : Z) (kvs : list (string * value V)) (acc : A) : M V A :=
  match kvs with
  | [] => mret acc
  | (k, v) :: rest =>
      if ctx_done then mret acc
      else if isValid v now then
        let r := f k (val v) (vexpire v) acc in
        if r.2 then range_shard ctx_done f now rest r.1 else mret r.1
      else
        _ ← expiration k; range_shard ctx_done f now rest acc
  end.

(** The goroutines of [Range], one per shard, run one after the other in
    the order of the indices; each reads its shard when it starts. *)
Fixpoint range_from {A} (ctx_done : bool) (f : string → V → Z → A → A * bool)
    (now : Z) (idxs : list nat) (acc : A) : M V A :=
  match idxs with
  | [] => mret acc
  | i :: rest =>
      acc' ← (λ g, range_shard ctx_done f now (map_to_list (shard_at g i)) acc g);
      range_from ctx_done f now rest acc'
  end.

(** Range calls f sequentially for each key and value present in the Gache. *)
Definition Range {A} (ctx_done : bool) (f : string → V → Z → A → A * bool)
    (now : Z) (acc : A) : M V A := λ g,
  range_from ctx_done f now (seq 0 (length (shards g))) acc g.

(** ToRawMap returns All Cache Key-Value map *)
Definition ToRawMap (ctx_done : bool) (now : Z) : M V (gmap string V) :=
  Range ctx_done (λ key v _ m, (<[key := v]> m, true)) now ∅.

Context {gob : Gob V}.

(** Write writes all cached data to writer; the result is the error of the
    encoder or the bytes it wrote. *)
Definition Write (ctx_done : bool) (now : Z) : M V (error + wire) :=
  m ← Range ctx_done (λ key v _ m, (<[key := v]> m, true)) now ∅;
  mret (gob_encode m).

(** Read reads reader data to cache *)
Definition Read (r : wire) (now : Z) (g : gache V) : option error * gache V :=
  match gob_decode r with
  | inl err => (Some err, g)
  | inr m => (None, foldl (λ g kv, Set_ kv.1 kv.2 now g) g (map_to_list m))
  end.

End Gache.

(** ** Vocabulary of the properties *)

Section Vocabulary.
Context {V : Type} {zeroV : GoZero V} {hasher : Hasher}.
Implicit Types (g : gache V) (key k : string) (v : V) (e : value V)
  (kvs : list (string * value V)) (acc : gmap string V).

(** The entry the cache holds for a key: the lookup of [get], [set] and
    [Delete] in the shard the key is routed to. *)
Definition entry_of g key : option (value V) :=
  shard_at g (shard_of key) !! key.

(** The array has its [slen] shards. *)
Definition shards_ok g : Prop := length (shards g) = Z.to_nat slen.

(** Every shard holds only keys that are routed to it. *)
Definition routed g : Prop :=
  ∀ i k, is_Some (shard_at g i !! k) → i = shard_of k.

(** The time [set] stores for a TTL. *)
Definition expire_at (ttl now : Z) : Z :=
  if 0 <? ttl then wrap_int64 (now + ttl) else ttl.

(** The send of [expiration] can proceed: the hook is disabled (nothing is
    sent), or the channel has room. *)
Definition can_notify g : Prop :=
  expFuncEnabled g = false ∨ (length (expChan g) < expChanCap)%nat.

(** The cache [expiration] leaves when it returns. *)
Definition evicted key g : gache V :=
  let g1 := (Delete key g).1 in
  if expFuncEnabled g then set_expChan (expChan g ++ [key]) g1 else g1.

(** What the type [gache[V]] and the routing of the keys guarantee of a
    cache: the array has its [slen] shards, every key sits in the shard it
    is routed to, and the counter is a [uint64]. *)
Definition gache_ok g : Prop :=
  shards_ok g ∧ routed g ∧ uint64_range (l g).

(** The callback of [ToRawMap] and [Write]: [m[key] = val; return true]. *)
Definition collect (key : string) (v : V) (_ : Z) (m : gmap string V) :
  gmap string V * bool := (<[key := v]> m, true).

(** What a traversal of the entries [kvs] adds to the map... *)
Definition collect_valid (now : Z) kvs acc : gmap string V :=
  foldl (λ m kv, if isValid kv.2 now then <[kv.1 := val kv.2]> m else m) acc kvs.

(** ... and what it leaves of the cache. *)
Definition evict_invalid (now : Z) kvs g : gache V :=
  foldl (λ g kv, if isValid kv.2 now then g else evicted kv.1 g) g kvs.

(** The run of [range_from], shard after shard. *)
Fixpoint sweep_from (now : Z) (idxs : list nat) acc g : gmap string V * gache V :=
  match idxs with
  | [] => (acc, g)
  | i :: rest =>
      let kvs := map_to_list (shard_at g i) in
      sweep_from now rest (collect_valid now kvs acc) (evict_invalid now kvs g)
  end.

(** The value a read of [key] at the time [now] finds. *)
Definition live (now : Z) g key : option V :=
  match entry_of g key with
  | Some e => if isValid e now then Some (val e) else None
  | None => None
  end.

(** The entry of [key] once the entries expired at [now] are evicted. *)
Definition live_entry (now : Z) g key : option (value V) :=
  match entry_of g key with
  | Some e => if isValid e now then Some e else None
  | None => None
  end.

(** Every entry of the cache is valid at [now]. *)
Definition all_valid (now : Z) g : Prop :=
  ∀ k e, entry_of g k = Some e → isValid e now = true.

(** One call of [set]: key, value, TTL, and the clock it reads. *)
Record store := Store {
  st_key : string;
  st_val : V;
  st_ttl : Z;
  st_now : Z;
}.

Definition store_entry (x : store) : string * value V :=
  (st_key x, Value (expire_at (st_ttl x) (st_now x)) (st_val x)).

Definition run_store g (x : store) : gache V :=
  set (st_key x) (st_val x) (st_ttl x) (st_now x) g.

(** Keys set with [NoTTL], one after the other and each at its own time. *)
Definition set_all_NoTTL (kvts : list (string * V * Z)) g : gache V :=
  foldl (λ g x, SetWithExpire x.1.1 x.1.2 NoTTL x.2 g) g kvts.

End Vocabulary.

Arguments store : clear implicits.
Arguments Store {V} _ _ _ _.

(** ** Readers in parallel

    Several goroutines call [get] on one cache while the daemon of
    [StartExpired] serves the channel of the hook. [expiration] goes through
    [expGroup.Do(key, fn)] of [golang.org/x/sync/singleflight]: when no call
    for [key] is in flight, [Do] registers one, runs [fn], then forgets the
    call and releases the callers that wait for it; when a call for [key] is
    in flight, [Do] waits for it and returns without running [fn]. *)

(** The points of [get] between which other goroutines can run. The value
    [get] has loaded from the shard stays with the reader. *)
Inductive pc (V : Type) :=
  | PcLoad                            (* before [g.shards[...].Get(key)] *)
  | PcCheck (o : option (value V))    (* before [if !ok], [if v.isValid()] *)
  | PcDo (e : value V)                (* [g.expiration(key)]: entering [expGroup.Do] *)
  | PcDelete (e : value V)            (* in the function of [Do]: before [g.Delete(key)] *)
  | PcSend (e : value V)              (* before [if g.expFuncEnabled { g.expChan <- key }] *)
  | PcExit (e : value V)              (* the function has returned; [Do] forgets the call *)
  | PcWait (j : nat) (e : value V)    (* [Do] waits for the call of the reader [j] *)
  | PcDone (r : V * Z * bool).        (* [get] has returned [r] *)
Arguments PcLoad {V}.
Arguments PcCheck {V} _.
Arguments PcDo {V} _.
Arguments PcDelete {V} _.
Arguments PcSend {V} _.
Arguments PcExit {V} _.
Arguments PcWait {V} _ _.
Arguments PcDone {V} _.

(** What a run does to the shards and to the hook. *)
Inductive event :=
  | EvDelete (key : string) (loaded : bool)   (* [g.Delete(key)] and its result *)
  | EvNotify (key : string)                   (* [g.expChan <- key] *)
  | EvHook (key : string).                    (* [go g.expFunc(ctx, key)] *)

(** The cache, the calls in flight of [expGroup] (for each key, the reader
    that runs the function), the readers, and the events so far. *)
Record machine (V : Type) := Machine {
  mem : gache V;
  group : gmap string nat;
  threads : list (pc V);
  trace : list event;
}.
Arguments Machine {V} _ _ _ _.
Arguments mem {V} _.
Arguments group {V} _.
Arguments threads {V} _.
Arguments trace {V} _.

(** Who takes the next step: a reader, or the daemon of [StartExpired]. *)
Inductive actor := Reader (i : nat) | Daemon.

(** The reader is inside the function it gave to [expGroup.Do]. *)
Definition in_fn {V} (p : pc V) : bool :=
  match p with PcDelete _ | PcSend _ | PcExit _ => true | _ => false end.
(** The reader has not run [g.Delete] and may still come to run it. *)
Definition pending {V} (p : pc V) : bool :=
  match p with PcLoad | PcCheck _ | PcDo _ | PcDelete _ => true | _ => false end.
(** The reader has run [g.Delete] and not yet sent the key. *)
Definition at_send {V} (p : pc V) : bool :=
  match p with PcSend _ => true | _ => false end.
(** [get] has returned. *)
Definition is_done {V} (p : pc V) : bool :=
  match p with PcDone _ => true | _ => false end.

Definition is_delete (ev : event) : bool :=
  match ev with EvDelete _ _ => true | _ => false end.
Definition is_notify (ev : event) : bool :=
  match ev with EvNotify _ => true | _ => false end.
Definition is_hook (ev : event) : bool :=
  match ev with EvHook _ => true | _ => false end.

(** The number of elements of a list that satisfy a test. *)
Fixpoint count {A} (P : A → bool) (xs : list A) : nat :=
  match xs with
  | [] => 0
  | x :: xs => ((if P x then 1 else 0) + count P xs)%nat
  end.

Section Readers.
Context {V : Type} {zeroV : GoZero V} {hasher : Hasher}.
Implicit Types (m : machine V) (p : pc V) (e : value V).

Definition set_pc (i : nat) p m : machine V :=
  Machine (mem m) (group m) (<[i := p]> (threads m)) (trace m).
Definition set_mem (g : gache V) m : machine V :=
  Machine g (group m) (threads m) (trace m).
Definition set_group (c : gmap string nat) m : machine V :=
  Machine (mem m) c (threads m) (trace m).
Definition add_event (ev : event) m : machine V :=
  Machine (mem m) (group m) (threads m) (trace m ++ [ev]).

(** One step of the reader [i] of [key], with the clock at [now]. [None]:
    the reader cannot move (it has returned, it waits for a call that has
    not completed, or the channel it sends to is full). The two accesses of
    [g.Delete], to the counter and to the shard, make one step: no step of a
    reader depends on the counter. *)
Definition reader_step (key : string) (now : Z) (i : nat) m : option (machine V) :=
  match threads m !! i with
  | None => None
  | Some PcLoad => Some (set_pc i (PcCheck (shard_at (mem m) (shard_of key) !! key)) m)
  | Some (PcCheck None) => Some (set_pc i (PcDone (go_zero, 0, false)) m)
  | Some (PcCheck (Some e)) =>
      if isValid e now then Some (set_pc i (PcDone (val e, vexpire e, true)) m)
      else Some (set_pc i (PcDo e) m)
  | Some (PcDo e) =>
      match group m !! key with
      | Some j => Some (set_pc i (PcWait j e) m)
      | None => Some (set_pc i (PcDelete e) (set_group (<[key := i]> (group m)) m))
      end
  | Some (PcDelete e) =>
      let r := Delete key (mem m) in
      Some (set_pc i (PcSend e) (add_event (EvDelete key r.2) (set_mem r.1 m)))
  | Some (PcSend e) =>
      if expFuncEnabled (mem m) then
        if decide (length (expChan (mem m)) < expChanCap)%nat
        then Some (set_pc i (PcExit e)
                     (add_event (EvNotify key)
                        (set_mem (set_expChan (expChan (mem m) ++ [key]) (mem m)) m)))
        else None
      else Some (set_pc i (PcExit e) m)
  | Some (PcExit e) =>
      Some (set_pc i (PcDone (go_zero, vexpire e, false))
              (set_group (delete key (group m)) m))
  | Some (PcWait j e) =>
      match threads m !! j with
      | Some (PcDone _) => Some (set_pc i (PcDone (go_zero, vexpire e, false)) m)
      | _ => None
      end
  | Some (PcDone _) => None
  end.

(** One turn of the loop of [StartExpired] on its case
    [key := <-g.expChan]: it starts the hook for the key at the head of the
    channel. *)
Definition daemon_step m : option (machine V) :=
  match expChan (mem m) with
  | [] => None
  | key :: rest => Some (add_event (EvHook key) (set_mem (set_expChan rest (mem m)) m))
  end.

Definition step (key : string) (now : Z) (a : actor) m : option (machine V) :=
  match a with
  | Reader i => reader_step key now i m
  | Daemon => daemon_step m
  end.

(** A run under a schedule; an actor that cannot move passes its turn. *)
Definition exec (key : string) (now : Z) (sched : list actor) m : machine V :=
  foldl (λ m a, default m (step key now a m)) m sched.

(** [n] readers about to call [get] on the cache [g]. *)
Definition init (g : gache V) (n : nat) : machine V :=
  Machine g ∅ (replicate n PcLoad) [].

(** How often [g.Delete] ran, a key was sent, the hook was started. *)
Definition deletes (tr : list event) : nat := count is_delete tr.
Definition notifies (tr : list event) : nat := count is_notify tr.
Definition hooks (tr : list event) : nat := count is_hook tr.

(** A reader that has not seen a [Delete] of the key yet: it is about to
    load the entry, holds the entry [e], or is on its way to the
    [Delete]. *)
Definition early e p : Prop :=
  match p with
  | PcLoad | PcDo _ | PcDelete _ | PcWait _ _ => True
  | PcCheck o => o = Some e
  | _ => False
  end.

(** What every state of a run of [n] readers of [key] satisfies, when the
    cache they start on holds for [key] the entry [e], expired at [now],
    with the hook enabled. *)
Record run_inv (key : string) (e : value V) (n : nat) m : Prop := RunInv {
  inv_length : length (threads m) = n;
  inv_enabled : expFuncEnabled (mem m) = true;
  inv_in_fn : (count in_fn (threads m) ≤ 1)%nat;
  inv_group : group m !! key = None → count in_fn (threads m) = 0%nat;
  inv_pending : (deletes (trace m) + count pending (threads m) ≤ n)%nat;
  inv_sends : deletes (trace m) = (notifies (trace m) + count at_send (threads m))%nat;
  inv_chan : notifies (trace m) = (hooks (trace m) + length (expChan (mem m)))%nat;
  inv_early : deletes (trace m) = 0%nat →
              entry_of (mem m) key = Some e ∧ Forall (early e) (threads m);
}.

End Readers.

(** ** The sweep of [DeleteExpired] *)

Section Sweeper.
Context {V : Type} {zeroV : GoZero V} {hasher : Hasher}.

(** The traversal [g.shards[idx].Range] runs in [DeleteExpired]: an expired
    entry is evicted and counted in [rows], a [uint64]; a valid one is passed
    over. The traversal of the shard stops when [c.Done()] is closed. *)
Fixpoint deleteExpired_shard (ctx_done : bool) (now : Z)
    (kvs : list (string * value V)) (rows : Z) : M V Z :=
  match kvs with
  | [] => mret rows
  | (k, v) :: rest =>
      if ctx_done then mret rows
      else if isValid v now then deleteExpired_shard ctx_done now rest rows
      else
        _ ← expiration k;
        deleteExpired_shard ctx_done now rest (wrap_uint64 (rows + 1))
  end.

(** The goroutines of [DeleteExpired], one per shard, run one after the
    other in the order of the indices; each reads its shard when it starts. *)
Fixpoint deleteExpired_from (ctx_done : bool) (now : Z) (idxs : list nat)
    (rows : Z) : M V Z :=
  match idxs with
  | [] => mret rows
  | i :: rest =>
      rows' ← (λ g, deleteExpired_shard ctx_done now (map_to_list (shard_at g i)) rows g);
      deleteExpired_from ctx_done now rest rows'
  end.

(** DeleteExpired deletes expired value from Gache it can be cancel using context *)
Definition DeleteExpired (ctx_done : bool) (now : Z) : M V Z := λ g,
  deleteExpired_from ctx_done now (seq 0 (length (shards g))) 0 g.

End Sweeper.

(** What an operation returns, if it returns. *)
Definition result {V A} (o : outcome V A) : option A :=
  match o with Done a _ => Some a | Blocked _ => None end.

Section SweepVocabulary.
Context {V : Type} {zeroV : GoZero V} {hasher : Hasher}.
Implicit Types (g : gache V) (kvs : list (string * value V)).

(** The keys of the entries of [kvs] that are expired at [now], in the
    order of the list. *)
Definition expired_keys_in (now : Z) kvs : list string :=
  (filter (λ kv, isValid kv.2 now = false) kvs).*1.

(** The keys of the expired entries of the cache, shard after shard. *)
Definition expired_keys_from (now : Z) (idxs : list nat) g : list string :=
  idxs ≫= (λ i, expired_keys_in now (map_to_list (shard_at g i))).

Definition expired_keys (now : Z) g : list string :=
  expired_keys_from now (seq 0 (length (shards g))) g.

(** The sends of [n] evictions can proceed: the hook is disabled, or the
    channel has room for [n] more keys. *)
Definition room_for (n : nat) g : Prop :=
  expFuncEnabled g = false ∨ (length (expChan g) + n ≤ expChanCap)%nat.

End SweepVocabulary.

Section Callbacks.
Context {V : Type}.

(** The callback that counts its calls and returns false. *)
Definition count_and_stop (_ : string) (_ : V) (_ : Z) (n : nat) : nat * bool :=
  (S n, false).

(** The shard holds an entry. *)
Definition nonempty (m : gmap string (value V)) : bool :=
  match map_to_list m with [] => false | _ => true end.

End Callbacks.

(** ** What the readers return and remove *)

(** A [g.Delete] that found the entry. *)
Definition is_removal (ev : event) : bool :=
  match ev with EvDelete _ true => true | _ => false end.

(** How often [g.Delete] removed an entry. *)
Definition removals (tr : list event) : nat := count is_removal tr.

Section Answers.
Context {V : Type} {zeroV : GoZero V} {hasher : Hasher}.
Implicit Types (m : machine V) (p : pc V) (e : value V) (g : gache V).

(** The results of [get] on [key] at [now] that the entry [g] holds for
    [key] allows: the value of a valid entry; for an expired entry the
    answer for an expired entry or, once it is deleted, the answer for a
    key without entry. *)
Definition answer_ok g (key : string) (now : Z) (r : V * Z * bool) : Prop :=
  match entry_of g key with
  | Some e =>
      if isValid e now then r = (val e, vexpire e, true)
      else r = (go_zero, vexpire e, false) ∨ r = (go_zero, 0, false)
  | None => r = (go_zero, 0, false)
  end.

(** What a reader holds, in a run that starts on [g]. *)
Definition pc_ok g (key : string) (now : Z) p : Prop :=
  match p with
  | PcLoad => True
  | PcCheck (Some e) => entry_of g key = Some e
  | PcCheck None =>
      entry_of g key = None ∨ ∃ e, entry_of g key = Some e ∧ isValid e now = false
  | PcDo e | PcDelete e | PcSend e | PcExit e | PcWait _ e =>
      entry_of g key = Some e ∧ isValid e now = false
  | PcDone r => answer_ok g key now r
  end.

(** What every state of a run of readers of [key] satisfies, on any cache
    [g] the run starts on. *)
Record mem_inv g (key : string) (now : Z) m : Prop := MemInv {
  mi_ok : shards_ok (mem m);
  mi_l : l (mem m) = wrap_uint64 (l g - Z.of_nat (deletes (trace m)));
  mi_others : ∀ k, k ≠ key → entry_of (mem m) k = entry_of g k;
  mi_key : match removals (trace m) with
           | O => entry_of (mem m) key = entry_of g key
           | S O => entry_of (mem m) key = None
           | _ => False
           end;
  mi_expired : deletes (trace m) ≠ 0%nat →
               ∃ e, entry_of g key = Some e ∧ isValid e now = false;
  mi_hook : expFuncEnabled (mem m) = expFuncEnabled g;
  mi_threads : Forall (pc_ok g key now) (threads m);
}.

End Answers.

(** * The package of the HTTP cache

    The second package of [src/gache.go] (from line 361): a cache of
    [interface{}] values on one [syncmap.Map], with the caches of HTTP
    responses of a server and of a client on top of it. *)

(** ** The functions of [strings] and [strconv] the package calls

    Strings are sequences of bytes. *)

Module Strings.
Import Stdlib.Strings.Ascii.

(** [strings.HasPrefix(s, prefix)] *)
Fixpoint HasPrefix (s pre : string) {struct pre} : bool :=
  match pre with
  | EmptyString => true
  | String a pre' =>
      match s with
      | EmptyString => false
      | String b s' => Ascii.eqb a b && HasPrefix s' pre'
      end
  end.

(** [strings.Contains(s, substr)]: [substr] starts at some index of [s]. *)
Fixpoint Contains (s substr : string) : bool :=
  HasPrefix s substr ||
  match s with
  | EmptyString => false
  | String _ s' => Contains s' substr
  end.

(** The byte [c] is in the cutset. *)
Fixpoint in_cutset (c : Ascii.ascii) (cutset : string) : bool :=
  match cutset with
  | EmptyString => false
  | String a cutset' => Ascii.eqb c a || in_cutset c cutset'
  end.

(** [strings.TrimLeft], [strings.TrimRight] and [strings.Trim] with a cutset
    of ASCII characters. *)
Fixpoint TrimLeft (s cutset : string) : string :=
  match s with
  | EmptyString => EmptyString
  | String a s' => if in_cutset a cutset then TrimLeft s' cutset else s
  end.

Fixpoint TrimRight (s cutset : string) : string :=
  match s with
  | EmptyString => EmptyString
  | String a s' =>
      match TrimRight s' cutset with
      | EmptyString => if in_cutset a cutset then EmptyString else String a EmptyString
      | r => String a r
      end
  end.

Definition Trim (s cutset : string) : string :=
  TrimRight (TrimLeft s cutset) cutset.

(** The loop of [strings.Split(s, sep)] for a separator that is not empty:
    [cur] is the piece read so far, [skip] the number of bytes of a
    separator found that are still to pass. The separators are found from
    the left and do not overlap. *)
Fixpoint split_go (sep : string) (skip : nat) (s cur : string) : list string :=
  match s with
  | EmptyString => [cur]
  | String c s' =>
      match skip with
      | S k => split_go sep k s' cur
      | O =>
          if HasPrefix s sep
          then cur :: split_go sep (String.length sep - 1) s' EmptyString
          else split_go sep 0 s' (cur +:+ String c EmptyString)
      end
  end.

(** [strings.Split(s, sep)], for [sep] not empty. *)
Definition Split (s sep : string) : list string := split_go sep 0 s EmptyString.

End Strings.

Module Strconv.
Import Stdlib.Strings.Ascii.

(** The value of a decimal digit. *)
Definition digit (c : Ascii.ascii) : option Z :=
  let n := Z.of_nat (Ascii.nat_of_ascii c) in
  if (48 <=? n) && (n <=? 57) then Some (n - 48) else None.

(** The digits of [s] read from the left, after the value [acc]. *)
Fixpoint digits (s : string) (acc : Z) : option Z :=
  match s with
  | EmptyString => Some acc
  | String c s' =>
      match digit c with
      | Some d => digits s' (acc * 10 + d)
      | None => None
      end
  end.

(** [strconv.Atoi(s)] on a platform with [int] of 64 bits: an optional
    sign, then decimal digits, at least one; [None] is the error (of the
    syntax, or of the range). *)
Definition Atoi (s : string) : option Z :=
  match s with
  | EmptyString => None
  | String c s' =>
      let neg := Ascii.eqb c "-"%char in
      let body := if Ascii.eqb c "-"%char || Ascii.eqb c "+"%char then s' else s in
      match body with
      | EmptyString => None
      | _ =>
          match digits body 0 with
          | None => None
          | Some n =>
              let v := if neg then - n else n in
              if (- 2 ^ 63 <=? v) && (v <? 2 ^ 63) then Some v else None
          end
      end
  end.

End Strconv.

(** ** The cache *)

(** What the package reads of [net/http]: of a request the fields that make
    its key, with [BodyV] what [fmt] prints for [r.Body] under [%v]; of a
    response [res.Header.Get(name)]. *)
Class Http := {
  Request : Type;
  Response : Type;
  Header : Type;
  RequestURI : Request → string;
  Proto : Request → string;
  Host : Request → string;
  Method : Request → string;
  BodyV : Request → string;
  HeaderGet : Response → string → string;
}.

Module Legacy.

(** [time.Duration] is an [int64] of nanoseconds. An instant of [time.Time]
    is counted in nanoseconds as an integer without bound: a [time.Time]
    holds the seconds and the nanoseconds apart and does not wrap on the
    sums the package makes. *)

(** [t.Sub(u)]: the difference, held within the range of a [Duration]. *)
Definition Sub (t u : Z) : Z :=
  if t - u <? - 2 ^ 63 then - 2 ^ 63
  else if 2 ^ 63 - 1 <? t - u then 2 ^ 63 - 1
  else t - u.

(** [time.Until(t)], with the clock at [now]. *)
Definition Until (t now : Z) : Z := Sub t now.

(** The result of a function that can panic. *)
Inductive res (A : Type) := Ok (a : A) | Panic.
Arguments Ok {A} _.
Arguments Panic {A}.

Section Cache.
Context {http : Http} {T : Type}.

Record ServerCache := {
  Status : Z;
  SHeader : Header;
  Body : list Byte.byte;
}.

Record ClientCache := {
  Etag : string;
  Expire : Z;
  LastModified : string;
  Res : Response;
}.

(** The values of [interface{}] the cache is given: nil, a [*ServerCache],
    a [*ClientCache], or a value of another type. *)
Inductive any :=
  | Nil
  | Server (c : ServerCache)
  | Client (c : ClientCache)
  | Other (x : T).

Record value := Value {
  expire : Z;
  val : any;
}.

(** The cache: [data] is [None] for the nil pointer. The keys are the
    strings among the values of [interface{}]; the lock [mu] guards
    [expire] only. Every value [set] stores is a [*value]. *)
Record Gache := {
  data : option (gmap string value);
  dexpire : Z;
}.

Definition New : Gache := {| data := Some ∅; dexpire := Second * 30 |}.

(** The cache with the map [d] for [*g.data]. *)
Definition set_data (d : gmap string value) (g : Gache) : Gache :=
  {| data := Some d; dexpire := dexpire g |}.

Definition isValid (v : value) (now : Z) : bool := now <? expire v.

Definition SetDefaultExpire (ex : Z) (g : Gache) : Gache :=
  {| data := data g; dexpire := ex |}.

(** The methods of [syncmap.Map] dereference their receiver: on the nil
    pointer they panic. *)
Definition get (key : string) (now : Z) (g : Gache) : res (any * bool * Gache) :=
  match data g with
  | None => Panic
  | Some d =>
      match d !! key with
      | None => Ok (Nil, false, g)
      | Some v =>
          if isValid v now then Ok (val v, true, g)
          else Ok (Nil, false, set_data (delete key d) g)
      end
  end.

Definition Get (key : string) (now : Z) (g : Gache) : res (any * bool * Gache) :=
  get key now g.

Definition set (key : string) (x : any) (ttl : Z) (now : Z) (g : Gache)
    : res (bool * Gache) :=
  match data g with
  | None => Panic
  | Some d =>
      Ok (true, set_data (<[key := Value (now + ttl) x]> d) g)
  end.

Definition SetWithExpire (key : string) (x : any) (ttl : Z) (now : Z) (g : Gache)
    : res (bool * Gache) :=
  set key x ttl now g.

Definition Set_ (key : string) (x : any) (now : Z) (g : Gache) : res (bool * Gache) :=
  set key x (dexpire g) now g.

(** One call of the function [DeleteExpired] gives to [g.data.Range]. *)
Definition sweep (now : Z) (st : gmap string value * Z) (kv : string * value)
    : gmap string value * Z :=
  if isValid kv.2 now then st else (delete kv.1 st.1, wrap_int64 (st.2 + 1)).

Definition DeleteExpired (now : Z) (g : Gache) : res (Z * Gache) :=
  match data g with
  | None => Panic
  | Some d =>
      let st := foldl (sweep now) (d, 0) (map_to_list d) in
      Ok (st.2, set_data st.1 g)
  end.

Definition Delete (key : string) (g : Gache) : res (bool * Gache) :=
  match data g with
  | None => Panic
  | Some d => Ok (false, set_data (delete key d) g)
  end.

(** [Clear] deletes every key, then sets [g.data] to nil. *)
Definition Clear (g : Gache) : res (unit * Gache) :=
  match data g with
  | None => Panic
  | Some d =>
      let _ := foldl (λ m kv, delete kv.1 m) d (map_to_list d) in
      Ok (tt, {| data := None; dexpire := dexpire g |})
  end.

Definition generateHTTPKey (r : Request) : string :=
  RequestURI r +:+ Proto r +:+ Host r +:+ Method r +:+ BodyV r.

(** [createHTTPCache], with the clock at [now]. The index [[1]] of the
    pieces of the header panics when there is one piece only. *)
Definition createHTTPCache (resp : Response) (now : Z)
    : res (error + ClientCache)%type :=
  let header := HeaderGet resp "Cache-Control" in
  if (String.length header =? 0)%nat then Ok (inl "Cache-Control Header Not Found")
  else
    let header := Strings.Trim header " " in
    if Strings.Contains header "no-store" || negb (Strings.Contains header "max-age")
    then Ok (inl "cache disabled")
    else
      match Strings.Split header "max-age=" !! 1%nat with
      | None => Panic
      | Some rest =>
          match Strings.Split rest "," !! 0%nat with
          | None => Panic
          | Some num =>
              match Strconv.Atoi num with
              | None => Ok (inl "Invalid max-age format")
              | Some t =>
                  Ok (inr {| LastModified := HeaderGet resp "Last-Modified";
                             Etag := HeaderGet resp "ETag";
                             Expire := now + wrap_int64 (t * Second);
                             Res := resp |})
              end
          end
      end.

(** The assertion that [cache] is a pointer to a [ServerCache] panics on a
    value of another type. *)
Definition getServerCache (req : Request) (now : Z) (g : Gache)
    : res (option ServerCache * bool * Gache) :=
  let key := generateHTTPKey req in
  match get key now g with
  | Panic => Panic
  | Ok (cache, ok, g') =>
      if negb ok then Ok (None, false, g')
      else match cache with
           | Server c => Ok (Some c, ok, g')
           | _ => Panic
           end
  end.

(** [setServerCache] reads the clock in [get], at [now], and in [set], at
    [now']. *)
Definition setServerCache (req : Request) (status : Z) (header : Header)
    (body : list Byte.byte) (ttl : Z) (now now' : Z) (g : Gache)
    : res (option error * Gache) :=
  let key := generateHTTPKey req in
  match get key now g with
  | Panic => Panic
  | Ok (_, ok, g1) =>
      if ok then Ok (Some "cache already exists", g1)
      else
        match set key (Server {| Status := status; SHeader := header; Body := body |})
                ttl now' g1 with
        | Panic => Panic
        | Ok (stored, g2) =>
            if negb stored then Ok (Some "cache already exists", g2)
            else Ok (None, g2)
        end
  end.

Definition getClientCache (req : Request) (now : Z) (g : Gache)
    : res (option ClientCache * bool * Gache) :=
  let key := generateHTTPKey req in
  match get key now g with
  | Panic => Panic
  | Ok (cache, ok, g') =>
      if negb ok then Ok (None, false, g')
      else match cache with
           | Client c => Ok (Some c, true, g')
           | _ => Panic
           end
  end.

(** [setClientCache] reads the clock four times: in [get], in
    [createHTTPCache], in [time.Until] and in [set]. *)
Definition setClientCache (req : Request) (val : Response)
    (now1 now2 now3 now4 : Z) (g : Gache) : res (option error * Gache) :=
  let key := generateHTTPKey req in
  match get key now1 g with
  | Panic => Panic
  | Ok (_, ok, g1) =>
      if ok then Ok (Some "cache already exists", g1)
      else
        match createHTTPCache val now2 with
        | Panic => Panic
        | Ok (inl err) => Ok (Some err, g1)
        | Ok (inr cache) =>
            match set key (Client cache) (Until (Expire cache) now3) now4 g1 with
            | Panic => Panic
            | Ok (stored, g2) =>
                if negb stored then Ok (Some "cache already exists", g2)
                else Ok (None, g2)
            end
        end
  end.

Definition SGet := getServerCache.
Definition SSetWithExpire := setServerCache.
Definition SSet (req : Request) (status : Z) (header : Header)
    (body : list Byte.byte) (now now' : Z) (g : Gache) :=
  setServerCache req status header body (dexpire g) now now' g.
Definition CGet := getClientCache.
Definition CSet := setClientCache.

End Cache.

Arguments ServerCache {http}.
Arguments ClientCache {http}.
Arguments any {http} T.
Arguments value {http} T.
Arguments Gache {http} T.

End Legacy.

(** The byte [c] occurs in [s]. *)
Fixpoint occurs (c : Ascii.ascii) (s : string) : bool :=
  match s with
  | EmptyString => false
  | String a s' => Ascii.eqb c a || occurs c s'
  end.

(** The entries of [d] that are expired at [now]. *)
Definition legacy_expired {http : Http} {T : Type} (now : Z)
    (d : gmap string (Legacy.value T)) : list (string * Legacy.value T) :=
  filter (λ kv, Legacy.isValid kv.2 now = false) (map_to_list d).

(** The entry of [key] once the entries expired at [now] are deleted. *)
Definition legacy_live {http : Http} {T : Type} (now : Z)
    (d : gmap string (Legacy.value T)) (key : string) : option (Legacy.value T) :=
  match d !! key with
  | Some v => if Legacy.isValid v now then Some v else None
  | None => None
  end.

(** ** Instances for the examples *)

(** The zero values of [int] and [string]. *)
#[local] Instance Z_zero : GoZero Z := 0.
#[local] Instance string_zero : GoZero string := "".

(** A hash function to run the examples with. The theorems hold for every
    hash function; the examples need one that computes. *)
#[local] Instance example_hasher : Hasher := λ s, Z.of_nat (String.length s).

(** A codec to run the examples with: a stream either carries a map, or is
    cut short. *)
Definition example_encode {V} (m : gmap string V) : error + option (gmap string V) :=
  inr (Some m).
Definition example_decode {V} (w : option (gmap string V)) : error + gmap string V :=
  match w with
  | Some m => inr m
  | None => inl "unexpected EOF"
  end.

#[local] Instance example_gob {V} : Gob V :=
  Build_Gob V (option (gmap string V)) example_encode example_decode
    (λ m w H,
       match H in (_ = y)
         return (match y with inr w' => example_decode w' = inr m | inl _ => True end)
       with eq_refl => eq_refl end).

(** [n * time.Millisecond], in nanoseconds. *)
Definition ms (n : Z) : Z := n * 1000000.

(** A net/http to run the examples with: a request is its URI, a response
    the map of its header fields. *)
#[local] Instance example_http : Http := {|
  Request := string;
  Response := gmap string string;
  Header := unit;
  RequestURI := λ r, r;
  Proto := λ _, "HTTP/1.1";
  Host := λ _, "example.com";
  Method := λ _, "GET";
  BodyV := λ _, "<nil>";
  HeaderGet := λ r name, default EmptyString (r !! name);
|}.

(** * Properties *)

(** ** Machine integers *)

Lemma wrap_int64_id z : int64_range z → wrap_int64 z = z.
Proof.
  unfold int64_range, wrap_int64. intros Hz.
  rewrite Z.mod_small; lia.
Qed.

Lemma wrap_int64_range z : int64_range (wrap_int64 z).
Proof.
  unfold int64_range, wrap_int64.
  pose proof (Z.mod_pos_bound (z + 2 ^ 63) (2 ^ 64)). lia.
Qed.

(** A sum of an instant and a positive duration that leaves the range of
    [int64] wraps to a negative number. *)
Lemma wrap_int64_overflow a b :
  int64_range a → int64_range b → 2 ^ 63 ≤ a + b → wrap_int64 (a + b) < 0.
Proof.
  unfold int64_range, wrap_int64. intros Ha Hb Hab.
  replace (a + b + 2 ^ 63) with ((a + b - 2 ^ 63) + 1 * 2 ^ 64) by lia.
  rewrite Z.mod_add by lia. rewrite Z.mod_small; lia.
Qed.

Lemma wrap_uint64_id z : uint64_range z → wrap_uint64 z = z.
Proof. unfold uint64_range, wrap_uint64. intros Hz. apply Z.mod_small. lia. Qed.

Lemma wrap_uint64_range z : uint64_range (wrap_uint64 z).
Proof. unfold uint64_range, wrap_uint64. apply Z.mod_pos_bound. lia. Qed.

Lemma uint64_max_eq : uint64_max = 2 ^ 64 - 1.
Proof. reflexivity. Qed.

(** Adding [^uint64(0)] undoes adding one. *)
Lemma wrap_uint64_incr_decr n :
  uint64_range n → wrap_uint64 (wrap_uint64 (n + 1) + uint64_max) = n.
Proof.
  unfold uint64_range, wrap_uint64. intros Hn. rewrite uint64_max_eq.
  rewrite Zplus_mod_idemp_l.
  replace (n + 1 + (2 ^ 64 - 1)) with (n + 1 * 2 ^ 64) by lia.
  rewrite Z.mod_add by lia. apply Z.mod_small. lia.
Qed.

(** ** Routing *)

Lemma mask_ones : mask = Z.ones 9.
Proof. reflexivity. Qed.

Lemma land_mask_bounds (h : Z) : 0 ≤ Z.land h mask < slen.
Proof.
  rewrite mask_ones, Z.land_ones by lia.
  change slen with (2 ^ 9). apply Z.mod_pos_bound. lia.
Qed.

(** Filling every index of an array with one value. *)
Lemma foldl_insert_seq {A} (x : A) (s : list A) (n : nat) :
  (n ≤ length s)%nat →
  foldl (λ s i, <[i := x]> s) s (seq 0 n) = replicate n x ++ drop n s.
Proof.
  induction n as [|n IH]; intros Hn; [by rewrite drop_0|].
  rewrite seq_S, foldl_app, IH by lia. simpl.
  destruct (lookup_lt_is_Some_2 s n) as [y Hy]; [lia|].
  rewrite (drop_S s y n Hy).
  rewrite insert_app_r_alt by (rewrite length_replicate; lia).
  rewrite length_replicate, Nat.sub_diag. simpl.
  rewrite app_comm_cons, replicate_cons_app, <- app_assoc. done.
Qed.

Lemma foldl_insert_seq_all {A} (x : A) (s : list A) :
  foldl (λ s i, <[i := x]> s) s (seq 0 (length s)) = replicate (length s) x.
Proof. rewrite foldl_insert_seq by lia. by rewrite drop_all, app_nil_r. Qed.

Section Basics.
Context {V : Type} {zeroV : GoZero V} {hasher : Hasher}.
Implicit Types (g : gache V) (key k : string) (v : V) (e : value V).

Lemma shard_of_lt key : (shard_of key < Z.to_nat slen)%nat.
Proof.
  unfold shard_of. pose proof (land_mask_bounds (HashString key)).
  apply Z2Nat.inj_lt; lia.
Qed.

Lemma isValid_spec e now :
  isValid e now = true ↔ vexpire e ≤ 0 ∨ now ≤ vexpire e.
Proof. unfold isValid. rewrite orb_true_iff, !Z.leb_le. tauto. Qed.

Lemma isValid_false e now :
  isValid e now = false ↔ 0 < vexpire e ∧ vexpire e < now.
Proof. unfold isValid. rewrite orb_false_iff, !Z.leb_gt. tauto. Qed.

(** *** set *)

Lemma set_shards_eq key v ttl now g :
  shards (set key v ttl now g) =
  <[shard_of key := <[key := Value (expire_at ttl now) v]> (shard_at g (shard_of key))]> (shards g).
Proof. reflexivity. Qed.

Lemma set_l_eq key v ttl now g : l (set key v ttl now g) = wrap_uint64 (l g + 1).
Proof. reflexivity. Qed.

Lemma set_expire_eq key v ttl now g : expire (set key v ttl now g) = expire g.
Proof. reflexivity. Qed.

Lemma set_expChan_eq key v ttl now g : expChan (set key v ttl now g) = expChan g.
Proof. reflexivity. Qed.

Lemma set_expFuncEnabled_eq key v ttl now g :
  expFuncEnabled (set key v ttl now g) = expFuncEnabled g.
Proof. reflexivity. Qed.

Lemma shards_ok_set key v ttl now g : shards_ok g → shards_ok (set key v ttl now g).
Proof. unfold shards_ok. rewrite set_shards_eq, length_insert. done. Qed.

Lemma shard_at_set_eq key v ttl now g :
  shards_ok g →
  shard_at (set key v ttl now g) (shard_of key) =
  <[key := Value (expire_at ttl now) v]> (shard_at g (shard_of key)).
Proof.
  intros Hok. unfold shard_at at 1. rewrite set_shards_eq.
  apply list_lookup_total_insert_eq. rewrite Hok. apply shard_of_lt.
Qed.

Lemma shard_at_set_ne key v ttl now g i :
  i ≠ shard_of key → shard_at (set key v ttl now g) i = shard_at g i.
Proof.
  intros Hi. unfold shard_at. rewrite set_shards_eq.
  by apply list_lookup_total_insert_ne.
Qed.

Lemma entry_of_set_eq key v ttl now g :
  shards_ok g →
  entry_of (set key v ttl now g) key = Some (Value (expire_at ttl now) v).
Proof.
  intros Hok. unfold entry_of. rewrite shard_at_set_eq by done.
  apply lookup_insert_eq.
Qed.

Lemma entry_of_set_ne key v ttl now g k :
  shards_ok g → k ≠ key →
  entry_of (set key v ttl now g) k = entry_of g k.
Proof.
  intros Hok Hk. unfold entry_of.
  destruct (decide (shard_of k = shard_of key)) as [Heq|Hne].
  - rewrite Heq, shard_at_set_eq by done. by rewrite lookup_insert_ne.
  - by rewrite shard_at_set_ne.
Qed.

Lemma routed_set key v ttl now g :
  shards_ok g → routed g → routed (set key v ttl now g).
Proof.
  intros Hok Hr i k.
  destruct (decide (i = shard_of key)) as [->|Hne].
  - rewrite shard_at_set_eq by done.
    destruct (decide (key = k)) as [->|Hk]; [done|].
    rewrite lookup_insert_ne by done. apply Hr.
  - rewrite shard_at_set_ne by done. apply Hr.
Qed.

(** *** Delete *)

Lemma Delete_shards_eq key g :
  shards (Delete key g).1 =
  <[shard_of key := delete key (shard_at g (shard_of key))]> (shards g).
Proof. reflexivity. Qed.

Lemma Delete_l_eq key g : l (Delete key g).1 = wrap_uint64 (l g + uint64_max).
Proof. reflexivity. Qed.

Lemma Delete_loaded key g :
  (Delete key g).2 = bool_decide (is_Some (entry_of g key)).
Proof. reflexivity. Qed.

Lemma shards_ok_Delete key g : shards_ok g → shards_ok (Delete key g).1.
Proof. unfold shards_ok. rewrite Delete_shards_eq, length_insert. done. Qed.

Lemma shard_at_Delete_eq key g :
  shards_ok g →
  shard_at (Delete key g).1 (shard_of key) = delete key (shard_at g (shard_of key)).
Proof.
  intros Hok. unfold shard_at at 1. rewrite Delete_shards_eq.
  apply list_lookup_total_insert_eq. rewrite Hok. apply shard_of_lt.
Qed.

Lemma shard_at_Delete_ne key g i :
  i ≠ shard_of key → shard_at (Delete key g).1 i = shard_at g i.
Proof.
  intros Hi. unfold shard_at. rewrite Delete_shards_eq.
  by apply list_lookup_total_insert_ne.
Qed.

Lemma entry_of_Delete_eq key g :
  shards_ok g → entry_of (Delete key g).1 key = None.
Proof.
  intros Hok. unfold entry_of. rewrite shard_at_Delete_eq by done.
  apply lookup_delete_eq.
Qed.

Lemma entry_of_Delete_ne key g k :
  shards_ok g → k ≠ key → entry_of (Delete key g).1 k = entry_of g k.
Proof.
  intros Hok Hk. unfold entry_of.
  destruct (decide (shard_of k = shard_of key)) as [Heq|Hne].
  - rewrite Heq, shard_at_Delete_eq by done. by rewrite lookup_delete_ne.
  - by rewrite shard_at_Delete_ne.
Qed.

Lemma routed_Delete key g :
  shards_ok g → routed g → routed (Delete key g).1.
Proof.
  intros Hok Hr i k.
  destruct (decide (i = shard_of key)) as [->|Hne].
  - rewrite shard_at_Delete_eq by done.
    destruct (decide (key = k)) as [->|Hk].
    + rewrite lookup_delete_eq. by intros [? ?].
    + rewrite lookup_delete_ne by done. apply Hr.
  - rewrite shard_at_Delete_ne by done. apply Hr.
Qed.

(** *** expiration *)

Lemma expiration_done key g :
  can_notify g → expiration key g = Done () (evicted key g).
Proof.
  unfold can_notify, expiration, evicted. simpl.
  intros [Hd|Hroom]; [by rewrite Hd|].
  destruct (expFuncEnabled g); [|done]. by rewrite decide_True.
Qed.

Lemma expiration_blocked key g :
  ¬ can_notify g → expiration key g = Blocked (Delete key g).1.
Proof.
  unfold can_notify, expiration. simpl. intros Hn.
  destruct (expFuncEnabled g); [|tauto].
  rewrite decide_False; [done|]. intros ?. apply Hn. by right.
Qed.

Lemma evicted_shards key g : shards (evicted key g) = shards (Delete key g).1.
Proof. unfold evicted. by destruct (expFuncEnabled g). Qed.

Lemma evicted_l key g : l (evicted key g) = wrap_uint64 (l g + uint64_max).
Proof. unfold evicted. by destruct (expFuncEnabled g). Qed.

Lemma evicted_expire key g : expire (evicted key g) = expire g.
Proof. unfold evicted. by destruct (expFuncEnabled g). Qed.

Lemma evicted_expFuncEnabled key g :
  expFuncEnabled (evicted key g) = expFuncEnabled g.
Proof. unfold evicted. by destruct (expFuncEnabled g) eqn:E. Qed.

Lemma shard_at_evicted key g i :
  shard_at (evicted key g) i = shard_at (Delete key g).1 i.
Proof. unfold shard_at. by rewrite evicted_shards. Qed.

Lemma entry_of_evicted key g k :
  entry_of (evicted key g) k = entry_of (Delete key g).1 k.
Proof. unfold entry_of. by rewrite shard_at_evicted. Qed.

Lemma shards_ok_evicted key g : shards_ok g → shards_ok (evicted key g).
Proof.
  unfold shards_ok. rewrite evicted_shards. apply shards_ok_Delete.
Qed.

Lemma routed_evicted key g : shards_ok g → routed g → routed (evicted key g).
Proof.
  intros Hok Hr i k. rewrite shard_at_evicted. by apply routed_Delete.
Qed.

(** Deleting a key that was just set, and had no entry before, gives back
    the shards as they were. *)
Lemma Delete_set_shards key v ttl now g :
  shards_ok g → entry_of g key = None →
  shards (Delete key (set key v ttl now g)).1 = shards g.
Proof.
  intros Hok Hnone. rewrite Delete_shards_eq, shard_at_set_eq by done.
  rewrite set_shards_eq, list_insert_insert_eq.
  rewrite delete_insert_id by done.
  apply list_insert_id, list_lookup_lookup_total_lt.
  rewrite Hok. apply shard_of_lt.
Qed.

(** *** get *)

Lemma get_absent key now g :
  entry_of g key = None → get key now g = Done (go_zero, 0, false) g.
Proof. unfold get, entry_of. by intros ->. Qed.

Lemma get_valid key now g e :
  entry_of g key = Some e → isValid e now = true →
  get key now g = Done (val e, vexpire e, true) g.
Proof. unfold get, entry_of. by intros -> ->. Qed.

Lemma get_expired key now g e :
  entry_of g key = Some e → isValid e now = false → can_notify g →
  get key now g = Done (go_zero, vexpire e, false) (evicted key g).
Proof.
  unfold get, entry_of. intros -> -> Hn.
  unfold mbind, M_bind. by rewrite expiration_done.
Qed.

(** A [Get] at the time of the [set] finds the value, for every TTL: a
    positive TTL gives an expiration not before [now], or one that has
    wrapped to a negative number, which never expires. *)
Lemma get_set_same_time key v ttl now g :
  shards_ok g → int64_range now → int64_range ttl →
  get key now (set key v ttl now g) =
  Done (v, expire_at ttl now, true) (set key v ttl now g).
Proof.
  intros Hok Hnow Httl.
  rewrite (get_valid key now _ (Value (expire_at ttl now) v));
    [done|by apply entry_of_set_eq|].
  apply isValid_spec. unfold expire_at. cbn [vexpire].
  destruct (Z.ltb_spec 0 ttl) as [Hpos|Hneg]; [|by left].
  destruct (decide (now + ttl < 2 ^ 63)) as [Hin|Hout].
  - right. rewrite wrap_int64_id; [lia|]. unfold int64_range in *. lia.
  - left. apply Z.lt_le_incl, wrap_int64_overflow; [done|done|lia].
Qed.

Lemma get_expired_blocked key now g e :
  entry_of g key = Some e → isValid e now = false → ¬ can_notify g →
  get key now g = Blocked (Delete key g).1.
Proof.
  unfold get, entry_of. intros -> -> Hn.
  unfold mbind, M_bind. by rewrite expiration_blocked.
Qed.

(** *** Clear and New *)

Lemma Clear_shards g : shards (Clear g) = replicate (length (shards g)) ∅.
Proof. unfold Clear. simpl. apply foldl_insert_seq_all. Qed.

Lemma shard_at_Clear g i : shard_at (Clear g) i = ∅.
Proof.
  unfold shard_at. rewrite Clear_shards.
  destruct (decide (i < length (shards g))%nat) as [Hi|Hi].
  - by apply lookup_total_replicate_2.
  - rewrite list_lookup_total_alt, lookup_ge_None_2; [done|].
    rewrite length_replicate. lia.
Qed.

Lemma entry_of_Clear g key : entry_of (Clear g) key = None.
Proof. unfold entry_of. by rewrite shard_at_Clear. Qed.

Lemma New_nil :
  New (V:=V) [] = Gache false (Second * 30) 0 [] (replicate (Z.to_nat slen) ∅).
Proof.
  unfold New. rewrite foldl_insert_seq_all. cbn [foldl].
  unfold WithDefaultExpiration, SetDefaultExpire, new_gache.
  unfold set_expChan, set_shards, set_expire.
  cbn [shards expire l expFuncEnabled expChan].
  by rewrite length_replicate.
Qed.

Lemma shards_ok_New : shards_ok (New (V:=V) []).
Proof. rewrite New_nil. unfold shards_ok. cbn [shards]. apply length_replicate. Qed.

Lemma shard_at_New i : shard_at (New (V:=V) []) i = ∅.
Proof.
  rewrite New_nil. unfold shard_at. cbn [shards].
  destruct (decide (i < Z.to_nat slen)%nat) as [Hi|Hi].
  - by apply lookup_total_replicate_2.
  - rewrite list_lookup_total_alt, lookup_ge_None_2; [done|].
    rewrite length_replicate. lia.
Qed.

Lemma routed_New : routed (New (V:=V) []).
Proof. intros i k. rewrite shard_at_New, lookup_empty. by intros [? ?]. Qed.

End Basics.

(** ** Range with the collecting callback of [ToRawMap] and [Write] *)

Section Collect.
Context {V : Type} {zeroV : GoZero V} {hasher : Hasher}.
Implicit Types (g : gache V) (key k : string) (e : value V)
  (kvs : list (string * value V)) (acc : gmap string V).

Lemma expiration_Done_inv key g u g' :
  expiration key g = Done u g' → g' = evicted key g ∧ can_notify g.
Proof.
  unfold expiration, evicted, can_notify. simpl.
  destruct (expFuncEnabled g); [|intros [= <-]; auto].
  case_decide; [|done]. intros [= <-]. auto.
Qed.

Lemma range_shard_Done now kvs acc g m' g' :
  range_shard false collect now kvs acc g = Done m' g' →
  m' = collect_valid now kvs acc ∧ g' = evict_invalid now kvs g.
Proof.
  revert acc g. induction kvs as [|[k e] kvs IH]; intros acc g; simpl.
  - by intros [= <- <-].
  - destruct (isValid e now); [apply IH|].
    unfold mbind, M_bind.
    destruct (expiration k g) as [u g1|g1] eqn:Hexp; [|done].
    apply expiration_Done_inv in Hexp as [-> _]. apply IH.
Qed.

Lemma evict_invalid_expFuncEnabled now kvs g :
  expFuncEnabled (evict_invalid now kvs g) = expFuncEnabled g.
Proof.
  revert g. induction kvs as [|[k e] kvs IH]; intros g; simpl; [done|].
  fold (evict_invalid now kvs). rewrite IH.
  destruct (isValid e now); [done|]. apply evicted_expFuncEnabled.
Qed.

(** With the hook disabled the traversal of a shard returns. *)
Lemma range_shard_hook_disabled now kvs acc g :
  expFuncEnabled g = false →
  range_shard false collect now kvs acc g =
  Done (collect_valid now kvs acc) (evict_invalid now kvs g).
Proof.
  revert acc g. induction kvs as [|[k e] kvs IH]; intros acc g Hd; simpl; [done|].
  destruct (isValid e now); [by apply IH|].
  unfold mbind, M_bind. rewrite expiration_done by (by left).
  apply IH. by rewrite evicted_expFuncEnabled.
Qed.

(** With every entry valid it returns and leaves the cache as it is. *)
Lemma range_shard_all_valid now kvs acc g :
  Forall (λ kv, isValid kv.2 now = true) kvs →
  range_shard false collect now kvs acc g = Done (collect_valid now kvs acc) g.
Proof.
  intros Hall. revert acc. induction Hall as [|[k e] kvs Hv _ IH]; intros acc; simpl; [done|].
  simpl in Hv. rewrite Hv. apply IH.
Qed.

Lemma evict_invalid_all_valid now kvs g :
  Forall (λ kv, isValid kv.2 now = true) kvs → evict_invalid now kvs g = g.
Proof.
  induction 1 as [|[k e] kvs Hv _ IH]; simpl; [done|].
  simpl in Hv. by rewrite Hv.
Qed.

(** The map a traversal builds, key by key. *)
Lemma collect_valid_lookup now kvs acc k :
  NoDup kvs.*1 →
  collect_valid now kvs acc !! k =
  match (list_to_map kvs : gmap string (value V)) !! k with
  | Some e => if isValid e now then Some (val e) else acc !! k
  | None => acc !! k
  end.
Proof.
  revert acc. induction kvs as [|[k0 e0] kvs IH]; intros acc Hnd; simpl.
  - by rewrite lookup_empty.
  - apply NoDup_cons in Hnd as [Hk0 Hnd].
    fold (collect_valid now kvs). rewrite IH by done.
    destruct (decide (k0 = k)) as [->|Hne].
    + rewrite lookup_insert_eq.
      rewrite (not_elem_of_list_to_map_1 (M:=gmap string) kvs k Hk0).
      destruct (isValid e0 now); [by rewrite lookup_insert_eq|done].
    + rewrite lookup_insert_ne by done.
      destruct (isValid e0 now); [by rewrite lookup_insert_ne|done].
Qed.

(** The cache a traversal leaves: the array keeps its length, and a key
    either keeps its entry or, when the traversal met it expired, has
    none. *)
Lemma shards_ok_evict_invalid now kvs g :
  shards_ok g → shards_ok (evict_invalid now kvs g).
Proof.
  revert g. induction kvs as [|[k e] kvs IH]; intros g Hok; simpl; [done|].
  apply IH. destruct (isValid e now); [done|]. by apply shards_ok_evicted.
Qed.

Lemma routed_evict_invalid now kvs g :
  shards_ok g → routed g → routed (evict_invalid now kvs g).
Proof.
  revert g. induction kvs as [|[k e] kvs IH]; intros g Hok Hr; simpl; [done|].
  destruct (isValid e now); [by apply IH|].
  apply IH; [by apply shards_ok_evicted|by apply routed_evicted].
Qed.

Lemma entry_of_evict_invalid now kvs g k :
  shards_ok g → NoDup kvs.*1 →
  entry_of (evict_invalid now kvs g) k =
  match (list_to_map kvs : gmap string (value V)) !! k with
  | Some e => if isValid e now then entry_of g k else None
  | None => entry_of g k
  end.
Proof.
  revert g. induction kvs as [|[k0 e0] kvs IH]; intros g Hok Hnd; simpl.
  - by rewrite lookup_empty.
  - apply NoDup_cons in Hnd as [Hk0 Hnd].
    fold (evict_invalid now kvs).
    destruct (decide (k0 = k)) as [->|Hne].
    + rewrite lookup_insert_eq.
      pose proof (not_elem_of_list_to_map_1 (M:=gmap string) kvs k Hk0) as Hnone.
      destruct (isValid e0 now).
      * rewrite IH by done. by rewrite Hnone.
      * rewrite IH by (done || by apply shards_ok_evicted). rewrite Hnone.
        rewrite entry_of_evicted. by apply entry_of_Delete_eq.
    + rewrite lookup_insert_ne by done.
      destruct (isValid e0 now); [by apply IH|].
      rewrite IH by (done || by apply shards_ok_evicted).
      rewrite entry_of_evicted, entry_of_Delete_ne by done. done.
Qed.

(** A traversal touches only the shards its keys are routed to. *)
Lemma shard_at_evict_invalid now kvs g i :
  Forall (λ kv, shard_of kv.1 ≠ i) kvs →
  shard_at (evict_invalid now kvs g) i = shard_at g i.
Proof.
  intros Hall. revert g. induction Hall as [|[k e] kvs Hk _ IH]; intros g; simpl; [done|].
  fold (evict_invalid now kvs). rewrite IH.
  destruct (isValid e now); [done|].
  rewrite shard_at_evicted. apply shard_at_Delete_ne. simpl in Hk. congruence.
Qed.

Lemma range_from_Done now idxs acc g m' g' :
  range_from false collect now idxs acc g = Done m' g' →
  (m', g') = sweep_from now idxs acc g.
Proof.
  revert acc g. induction idxs as [|i idxs IH]; intros acc g; simpl.
  - by intros [= <- <-].
  - unfold mbind, M_bind.
    destruct (range_shard _ _ _ _ _ g) as [m1 g1|g1] eqn:Hsh; [|done].
    apply range_shard_Done in Hsh as [-> ->]. apply IH.
Qed.

Lemma range_from_hook_disabled now idxs acc g :
  expFuncEnabled g = false →
  range_from false collect now idxs acc g =
  Done (sweep_from now idxs acc g).1 (sweep_from now idxs acc g).2.
Proof.
  revert acc g. induction idxs as [|i idxs IH]; intros acc g Hd; simpl; [done|].
  unfold mbind, M_bind. rewrite range_shard_hook_disabled by done.
  apply IH. by rewrite evict_invalid_expFuncEnabled.
Qed.

Lemma map_to_list_routed g i :
  routed g → Forall (λ kv, shard_of kv.1 = i) (map_to_list (shard_at g i)).
Proof.
  intros Hr. apply Forall_forall. intros [k e] Hin.
  apply elem_of_map_to_list in Hin. simpl. symmetry. apply Hr. by eexists.
Qed.

Lemma sweep_from_spec now idxs acc g :
  shards_ok g → routed g → NoDup idxs →
  shards_ok (sweep_from now idxs acc g).2 ∧
  routed (sweep_from now idxs acc g).2 ∧
  (∀ k, (sweep_from now idxs acc g).1 !! k =
        if decide (shard_of k ∈ idxs)
        then match live now g k with Some v => Some v | None => acc !! k end
        else acc !! k) ∧
  (∀ k, entry_of (sweep_from now idxs acc g).2 k =
        if decide (shard_of k ∈ idxs) then live_entry now g k else entry_of g k).
Proof.
  revert acc g. induction idxs as [|i idxs IH]; intros acc g Hok Hr Hnd.
  { simpl. repeat split; try done; intros k;
      by rewrite decide_False by apply not_elem_of_nil. }
  apply NoDup_cons in Hnd as [Hi Hnd]. cbn [sweep_from].
  set (kvs := map_to_list (shard_at g i)).
  assert (NoDup kvs.*1) as Hkvs by apply NoDup_fst_map_to_list.
  assert ((list_to_map kvs : gmap string (value V)) = shard_at g i) as Hmap
    by apply list_to_map_to_list.
  pose proof (shards_ok_evict_invalid now kvs g Hok) as Hok1.
  pose proof (routed_evict_invalid now kvs g Hok Hr) as Hr1.
  destruct (IH (collect_valid now kvs acc) (evict_invalid now kvs g) Hok1 Hr1 Hnd)
    as (Hok2 & Hr2 & Hacc & Hent).
  assert (∀ k, shard_of k ≠ i → shard_at g i !! k = None) as Hother.
  { intros k Hk. destruct (shard_at g i !! k) eqn:E; [|done].
    exfalso. apply Hk. symmetry. apply Hr. by eexists. }
  assert (∀ k, shard_of k ≠ i →
    entry_of (evict_invalid now kvs g) k = entry_of g k) as Hent1.
  { intros k Hk. rewrite entry_of_evict_invalid, Hmap by done.
    by rewrite Hother. }
  repeat split; [done|done| |].
  - intros k. rewrite Hacc, collect_valid_lookup, Hmap by done.
    destruct (decide (shard_of k = i)) as [Hk|Hk].
    + rewrite decide_False by (by rewrite Hk).
      rewrite decide_True by (rewrite Hk; apply list_elem_of_here).
      unfold live, entry_of. rewrite Hk.
      destruct (shard_at g i !! k) as [e|]; [|done]. by destruct (isValid e now).
    + rewrite Hother by done. unfold live. rewrite Hent1 by done.
      destruct (decide (shard_of k ∈ idxs)).
      * by rewrite decide_True by (by apply list_elem_of_further).
      * by rewrite decide_False by (rewrite elem_of_cons; intros [?|?]; done).
  - intros k. rewrite Hent.
    destruct (decide (shard_of k = i)) as [Hk|Hk].
    + rewrite decide_False by (by rewrite Hk).
      rewrite decide_True by (rewrite Hk; apply list_elem_of_here).
      rewrite entry_of_evict_invalid, Hmap by done.
      unfold live_entry, entry_of. rewrite Hk.
      destruct (shard_at g i !! k) as [e|]; [|done]. by destruct (isValid e now).
    + unfold live_entry. rewrite Hent1 by done.
      destruct (decide (shard_of k ∈ idxs)).
      * by rewrite decide_True by (by apply list_elem_of_further).
      * by rewrite decide_False by (rewrite elem_of_cons; intros [?|?]; done).
Qed.

Lemma shard_of_in_seq g k : shards_ok g → shard_of k ∈ seq 0 (length (shards g)).
Proof.
  intros Hok. apply list_elem_of_In, in_seq. rewrite Hok.
  pose proof (shard_of_lt k). lia.
Qed.

(** [Range] with the collecting callback: when it returns, the map holds
    the valid entries, and the cache has lost the expired ones. *)
Lemma Range_collect_Done now g m' g' :
  shards_ok g → routed g →
  Range false collect now ∅ g = Done m' g' →
  shards_ok g' ∧ routed g' ∧
  (∀ k, m' !! k = live now g k) ∧ (∀ k, entry_of g' k = live_entry now g k).
Proof.
  intros Hok Hr HR. unfold Range in HR. apply range_from_Done in HR.
  destruct (sweep_from_spec now (seq 0 (length (shards g))) ∅ g Hok Hr)
    as (Hok' & Hr' & Hacc & Hent); [apply NoDup_seq|].
  rewrite <- HR in *. simpl in *. repeat split; [done|done| |].
  - intros k. rewrite Hacc, decide_True by (by apply shard_of_in_seq).
    rewrite lookup_empty. by destruct (live now g k).
  - intros k. by rewrite Hent, decide_True by (by apply shard_of_in_seq).
Qed.

(** With the hook disabled, [Range] returns. *)
Lemma Range_collect_hook_disabled now g :
  expFuncEnabled g = false →
  ∃ m' g', Range false collect now ∅ g = Done m' g'.
Proof.
  intros Hd. unfold Range. rewrite range_from_hook_disabled by done. eauto.
Qed.

End Collect.

(** ** Sequences of [set]: populating a cache, and the loop of [Read] *)

Section Stores.
Context {V : Type} {zeroV : GoZero V} {hasher : Hasher}.
Implicit Types (g : gache V) (key k : string) (e : value V).

Lemma shards_ok_stores xs g : shards_ok g → shards_ok (foldl run_store g xs).
Proof.
  revert g. induction xs as [|x xs IH]; intros g Hok; simpl; [done|].
  apply IH. by apply shards_ok_set.
Qed.

Lemma routed_stores xs g :
  shards_ok g → routed g → routed (foldl run_store g xs).
Proof.
  revert g. induction xs as [|x xs IH]; intros g Hok Hr; simpl; [done|].
  apply IH; [by apply shards_ok_set|by apply routed_set].
Qed.

Lemma expire_stores xs g : expire (foldl run_store g xs) = expire g.
Proof. revert g. induction xs as [|x xs IH]; intros g; simpl; [done|]. by rewrite IH. Qed.

Lemma expFuncEnabled_stores xs g :
  expFuncEnabled (foldl run_store g xs) = expFuncEnabled g.
Proof. revert g. induction xs as [|x xs IH]; intros g; simpl; [done|]. by rewrite IH. Qed.

Lemma expChan_stores xs g : expChan (foldl run_store g xs) = expChan g.
Proof. revert g. induction xs as [|x xs IH]; intros g; simpl; [done|]. by rewrite IH. Qed.

(** Every call adds one to the counter, whether or not the key is new. *)
Lemma l_stores xs g :
  uint64_range (l g) →
  l (foldl run_store g xs) = wrap_uint64 (l g + Z.of_nat (length xs)).
Proof.
  revert g. induction xs as [|x xs IH]; intros g Hl.
  - simpl. rewrite Z.add_0_r. by rewrite wrap_uint64_id.
  - cbn [foldl length]. rewrite IH by apply wrap_uint64_range.
    unfold run_store. rewrite set_l_eq.
    unfold wrap_uint64. rewrite Zplus_mod_idemp_l. f_equal. lia.
Qed.

(** With distinct keys, each key holds the entry of its call. *)
Lemma entry_of_stores xs g k :
  shards_ok g → NoDup (st_key <$> xs) →
  entry_of (foldl run_store g xs) k =
  match (list_to_map (store_entry <$> xs) : gmap string (value V)) !! k with
  | Some e => Some e
  | None => entry_of g k
  end.
Proof.
  revert g. induction xs as [|x xs IH]; intros g Hok Hnd.
  - simpl. by rewrite lookup_empty.
  - cbn [foldl fmap list_fmap] in *. apply NoDup_cons in Hnd as [Hx Hnd].
    rewrite IH by (done || by apply shards_ok_set).
    unfold store_entry at 2. rewrite list_to_map_cons.
    destruct (decide (st_key x = k)) as [<-|Hne].
    + rewrite lookup_insert_eq.
      rewrite (not_elem_of_list_to_map_1 (M:=gmap string)).
      * unfold run_store. by rewrite entry_of_set_eq.
      * rewrite <- list_fmap_compose. exact Hx.
    + rewrite lookup_insert_ne by done.
      unfold run_store. by rewrite entry_of_set_ne.
Qed.

(** The loop of [Read] is such a sequence: every call uses the default TTL
    of the cache, which the loop does not change, and the clock [now]. *)
Lemma Read_loop_stores (kvs : list (string * V)) now g :
  foldl (λ g kv, Set_ kv.1 kv.2 now g) g kvs =
  foldl run_store g ((λ kv, Store kv.1 kv.2 (expire g) now) <$> kvs).
Proof.
  revert g. induction kvs as [|[k v] kvs IH]; intros g; simpl; [done|].
  rewrite IH. by change (expire (Set_ k v now g)) with (expire g).
Qed.

End Stores.


(** ** Write and Read *)

Section Persist.
Context {V : Type} {zeroV : GoZero V} {hasher : Hasher} {gob : Gob V}.
Implicit Types (g : gache V) (key k : string) (e : value V) (m : gmap string V).

Lemma all_valid_shard now g i :
  routed g → all_valid now g →
  Forall (λ kv, isValid kv.2 now = true) (map_to_list (shard_at g i)).
Proof.
  intros Hr Hall. apply Forall_forall. intros [k e] Hin.
  apply elem_of_map_to_list in Hin. simpl. apply (Hall k).
  unfold entry_of. rewrite <- (Hr i k); [done|by eexists].
Qed.

Lemma range_from_all_valid now idxs acc g :
  routed g → all_valid now g →
  range_from false collect now idxs acc g = Done (sweep_from now idxs acc g).1 g.
Proof.
  intros Hr Hall. revert acc. induction idxs as [|i idxs IH]; intros acc; simpl; [done|].
  unfold mbind, M_bind.
  rewrite range_shard_all_valid by (by apply all_valid_shard).
  rewrite evict_invalid_all_valid by (by apply all_valid_shard). apply IH.
Qed.

(** [Range] with the collecting callback on a cache without expired
    entries returns, changes nothing, and yields every pair. *)
Lemma Range_collect_all_valid now g :
  shards_ok g → routed g → all_valid now g →
  ∃ m, Range false collect now ∅ g = Done m g ∧ ∀ k, m !! k = val <$> entry_of g k.
Proof.
  intros Hok Hr Hall. unfold Range. rewrite range_from_all_valid by done.
  eexists. split; [done|]. intros k.
  destruct (sweep_from_spec now (seq 0 (length (shards g))) ∅ g Hok Hr)
    as (_ & _ & Hacc & _); [apply NoDup_seq|].
  rewrite Hacc, decide_True by (by apply shard_of_in_seq).
  rewrite lookup_empty. unfold live.
  destruct (entry_of g k) as [e|] eqn:He; [|done].
  by rewrite (Hall k e He).
Qed.

Lemma Write_all_valid now g :
  shards_ok g → routed g → all_valid now g →
  ∃ m, Write false now g = Done (gob_encode m) g ∧ ∀ k, m !! k = val <$> entry_of g k.
Proof.
  intros Hok Hr Hall.
  destruct (Range_collect_all_valid now g Hok Hr Hall) as (m & HR & Hm).
  exists m. split; [|done]. unfold Write, mbind, M_bind.
  fold (@collect V). by rewrite HR.
Qed.

(** When [Write] returns, it has encoded the pairs that are valid. *)
Lemma Write_Done now g r g' :
  shards_ok g → routed g →
  Write false now g = Done r g' →
  ∃ m, r = gob_encode m ∧ (∀ k, m !! k = live now g k) ∧
       (∀ k, entry_of g' k = live_entry now g k).
Proof.
  intros Hok Hr. unfold Write, mbind, M_bind. fold (@collect V).
  destruct (Range false collect now ∅ g) as [m g1|g1] eqn:HR; [|done].
  intros [= <- <-]. exists m.
  destruct (Range_collect_Done now g m g1 Hok Hr HR) as (_ & _ & Hm & He). auto.
Qed.

(** [Read] of a stream that decodes stores every pair, with the default
    TTL of the reading cache counted from the clock of the call. *)
Lemma Read_decoded r now g m :
  shards_ok g → gob_decode r = inr m →
  (Read r now g).1 = None ∧
  shards_ok (Read r now g).2 ∧
  expire (Read r now g).2 = expire g ∧
  ∀ k, entry_of (Read r now g).2 k =
       match m !! k with
       | Some v => Some (Value (expire_at (expire g) now) v)
       | None => entry_of g k
       end.
Proof.
  intros Hok Hdec. unfold Read. rewrite Hdec. cbn [fst snd].
  rewrite Read_loop_stores.
  split; [done|]. split; [by apply shards_ok_stores|].
  split; [apply expire_stores|]. intros k.
  rewrite entry_of_stores; [|done|].
  - rewrite <- list_fmap_compose.
    replace (list_to_map _) with
      (Value (expire_at (expire g) now) <$> m : gmap string (value V)).
    + rewrite lookup_fmap. by destruct (m !! k).
    + rewrite <- (list_to_map_to_list m) at 1. rewrite <- list_to_map_fmap.
      apply (f_equal list_to_map). apply list_fmap_ext. by intros ? [? ?].
  - rewrite <- list_fmap_compose.
    replace (_ <$> map_to_list m) with (map_to_list m).*1.
    + apply NoDup_fst_map_to_list.
    + apply list_fmap_ext. by intros ? [? ?].
Qed.

Lemma Read_decode_error r now g err :
  gob_decode r = inl err → Read r now g = (Some err, g).
Proof. unfold Read. by intros ->. Qed.

End Persist.

(** ** Well-formed caches *)

Section Invariant.
Context {V : Type} {zeroV : GoZero V} {hasher : Hasher}.
Implicit Types (g : gache V) (key k : string) (v : V).

Lemma gache_ok_New : gache_ok (New (V:=V) []).
Proof.
  split; [apply shards_ok_New|]. split; [apply routed_New|].
  rewrite New_nil. unfold uint64_range. cbn [l]. lia.
Qed.

Lemma gache_ok_set key v ttl now g : gache_ok g → gache_ok (set key v ttl now g).
Proof.
  intros (Hok & Hr & _). split; [by apply shards_ok_set|].
  split; [by apply routed_set|]. rewrite set_l_eq. apply wrap_uint64_range.
Qed.

Lemma gache_ok_Delete key g : gache_ok g → gache_ok (Delete key g).1.
Proof.
  intros (Hok & Hr & _). split; [by apply shards_ok_Delete|].
  split; [by apply routed_Delete|]. rewrite Delete_l_eq. apply wrap_uint64_range.
Qed.

Lemma gache_ok_evicted key g : gache_ok g → gache_ok (evicted key g).
Proof.
  intros (Hok & Hr & _). split; [by apply shards_ok_evicted|].
  split; [by apply routed_evicted|]. rewrite evicted_l. apply wrap_uint64_range.
Qed.

Lemma gache_ok_Clear g : gache_ok g → gache_ok (Clear g).
Proof.
  intros (Hok & Hr & Hl). split; [|split; [|done]].
  - unfold shards_ok. by rewrite Clear_shards, length_replicate.
  - intros i k. rewrite shard_at_Clear, lookup_empty. by intros [? ?].
Qed.

Lemma get_Get key now g x t b g' :
  get key now g = Done (x, t, b) g' → Get key now g = Done (x, b) g'.
Proof. unfold Get, mbind, M_bind. by intros ->. Qed.

(** [get] leaves the other shards as they are, whatever its outcome. *)
Lemma shard_at_get key now g i :
  i ≠ shard_of key → shard_at (final (get key now g)) i = shard_at g i.
Proof.
  intros Hi. unfold get.
  destruct (shard_at g (shard_of key) !! key) as [e|]; [|done].
  destruct (isValid e now); [done|].
  unfold mbind, M_bind, expiration.
  destruct (expFuncEnabled (Delete key g).1); [case_decide|]; simpl;
    by apply shard_at_Delete_ne.
Qed.

End Invariant.

(** ** Runs of parallel readers *)

Lemma count_app {A} (P : A → bool) (xs ys : list A) :
  count P (xs ++ ys) = (count P xs + count P ys)%nat.
Proof. induction xs as [|x xs IH]; simpl; [done|]. rewrite IH. lia. Qed.

Lemma count_insert {A} (P : A → bool) (xs : list A) (i : nat) (x y : A) :
  xs !! i = Some x →
  (count P (<[i := y]> xs) + (if P x then 1 else 0) =
   count P xs + (if P y then 1 else 0))%nat.
Proof.
  revert i. induction xs as [|z xs IH]; intros [|i] Hx; simplify_eq/=.
  - lia.
  - specialize (IH i Hx). lia.
Qed.

Lemma count_replicate {A} (P : A → bool) (n : nat) (x : A) :
  count P (replicate n x) = if P x then n else 0%nat.
Proof. induction n as [|n IH]; simpl; [by destruct (P x)|]. rewrite IH. by destruct (P x). Qed.

Lemma count_le_length {A} (P : A → bool) (xs : list A) :
  (count P xs ≤ length xs)%nat.
Proof. induction xs as [|x xs IH]; simpl; [done|]. destruct (P x); lia. Qed.

Section ReaderRuns.
Context {V : Type} {zeroV : GoZero V} {hasher : Hasher}.
Implicit Types (m : machine V) (p : pc V) (e : value V) (g : gache V).

Lemma run_inv_init key e n g :
  entry_of g key = Some e → expFuncEnabled g = true → expChan g = [] →
  run_inv key e n (init g n).
Proof.
  intros He Hen Hch. split; simpl.
  - apply length_replicate.
  - done.
  - rewrite count_replicate. simpl. lia.
  - intros _. by rewrite count_replicate.
  - rewrite count_replicate. simpl. lia.
  - by rewrite count_replicate.
  - by rewrite Hch.
  - intros _. split; [done|]. by apply Forall_replicate.
Qed.

Ltac inv_split :=
  split; simpl in *; unfold deletes, notifies, hooks in *;
  rewrite ?count_app, ?length_app, ?length_insert; simpl;
  try (done || lia);
  try (intros ?;
       match goal with
       | H : ?P → count in_fn _ = 0%nat, H' : ?P |- _ => specialize (H H'); lia
       | H : ?x = Some _, H' : ?x = None |- _ => congruence
       end).

Lemma run_inv_step key e now n a m m' :
  isValid e now = false →
  run_inv key e n m → step key now a m = Some m' → run_inv key e n m'.
Proof.
  intros Hexp [Hlen Hen Hfn Hgr Hpend Hsend Hchan Hearly].
  destruct a as [i|]; simpl.
  - unfold reader_step. destruct (threads m !! i) as [p|] eqn:Hp; [|done].
    pose proof (λ q, count_insert in_fn (threads m) i p q Hp) as Cfn.
    pose proof (λ q, count_insert pending (threads m) i p q Hp) as Cpend.
    pose proof (λ q, count_insert at_send (threads m) i p q Hp) as Csend.
    assert (∀ q, (deletes (trace m) = 0%nat → early e q) →
                 deletes (trace m) = 0%nat →
                 entry_of (mem m) key = Some e ∧
                 Forall (early e) (<[i := q]> (threads m))) as Hkeep.
    { intros q Hq H0. destruct (Hearly H0) as [He Hall].
      split; [done|]. apply Forall_insert; auto. }
    assert (deletes (trace m) = 0%nat → early e p) as Hp_early.
    { intros H0. destruct (Hearly H0) as [_ Hall].
      by apply (Forall_lookup_1 _ _ _ _ Hall Hp). }
    destruct p as [|[e'|]|e'|e'|e'|e'|j e'|r].
    + (* PcLoad *)
      intros [= <-].
      specialize (Cfn (PcCheck (shard_at (mem m) (shard_of key) !! key))).
      specialize (Cpend (PcCheck (shard_at (mem m) (shard_of key) !! key))).
      specialize (Csend (PcCheck (shard_at (mem m) (shard_of key) !! key))).
      inv_split.
      * apply Hkeep. intros H0. simpl. by destruct (Hearly H0) as [He _].
    + (* PcCheck (Some e') *)
      destruct (isValid e' now) eqn:Hv; intros [= <-].
      * specialize (Cfn (PcDone (val e', vexpire e', true))).
        specialize (Cpend (PcDone (val e', vexpire e', true))).
        specialize (Csend (PcDone (val e', vexpire e', true))).
        inv_split.
        -- intros H0. exfalso. specialize (Hp_early H0). simpl in Hp_early.
           congruence.
      * specialize (Cfn (PcDo e')).
        specialize (Cpend (PcDo e')).
        specialize (Csend (PcDo e')).
        inv_split.
        -- by apply Hkeep.
    + (* PcCheck None *)
      intros [= <-].
      specialize (Cfn (PcDone (go_zero, 0, false))).
      specialize (Cpend (PcDone (go_zero, 0, false))).
      specialize (Csend (PcDone (go_zero, 0, false))).
      inv_split.
      intros H0. exfalso. by specialize (Hp_early H0).
    + (* PcDo *)
      destruct (group m !! key) as [j|] eqn:Hg; intros [= <-].
      * specialize (Cfn (PcWait j e')).
        specialize (Cpend (PcWait j e')).
        specialize (Csend (PcWait j e')).
        inv_split.
        -- by apply Hkeep.
      * specialize (Cfn (PcDelete e')).
        specialize (Cpend (PcDelete e')).
        specialize (Csend (PcDelete e')).
        specialize (Hgr eq_refl).
        inv_split.
        -- by rewrite lookup_insert_eq.
        -- by apply Hkeep.
    + (* PcDelete *)
      intros [= <-].
      specialize (Cfn (PcSend e')).
      specialize (Cpend (PcSend e')).
      specialize (Csend (PcSend e')).
      inv_split.
    + (* PcSend *)
      rewrite Hen. case_decide; [|done]. intros [= <-].
      specialize (Cfn (PcExit e')).
      specialize (Cpend (PcExit e')).
      specialize (Csend (PcExit e')).
      inv_split.
    + (* PcExit *)
      intros [= <-].
      specialize (Cfn (PcDone (go_zero, vexpire e', false))).
      specialize (Cpend (PcDone (go_zero, vexpire e', false))).
      specialize (Csend (PcDone (go_zero, vexpire e', false))).
      inv_split.
    + (* PcWait *)
      destruct (threads m !! j) as [[| | | | | | |r]|] eqn:Hj; try done.
      intros [= <-].
      specialize (Cfn (PcDone (go_zero, vexpire e', false))).
      specialize (Cpend (PcDone (go_zero, vexpire e', false))).
      specialize (Csend (PcDone (go_zero, vexpire e', false))).
      inv_split.
      * intros H0. exfalso. destruct (Hearly H0) as [_ Hall].
        by apply (Forall_lookup_1 _ _ _ _ Hall Hj).
    + done.
  - unfold daemon_step. destruct (expChan (mem m)) as [|k rest] eqn:Hch; [done|].
    intros [= <-]. inv_split.
Qed.

Lemma run_inv_exec key e now n sched m :
  isValid e now = false →
  run_inv key e n m → run_inv key e n (exec key now sched m).
Proof.
  intros Hexp. revert m. induction sched as [|a sched IH]; intros m Hinv; simpl; [done|].
  apply IH. destruct (step key now a m) as [m'|] eqn:Hs; simpl; [|done].
  by apply (run_inv_step key e now n a m).
Qed.

Lemma count_none {A} (P : A → bool) (xs : list A) :
  Forall (λ x, P x = false) xs → count P xs = 0%nat.
Proof. induction 1 as [|x xs Hx _ IH]; simpl; [done|]. by rewrite Hx, IH. Qed.

Lemma exec_cons key now a sched m :
  exec key now (a :: sched) m = exec key now sched (default m (step key now a m)).
Proof. reflexivity. Qed.

(** A reader that runs alone does what [get] does: it returns the result of
    [get] and leaves the cache [get] leaves, or stops at the send where
    [get] blocks. *)
Lemma reader_alone g key now :
  let m := exec key now (replicate 6 (Reader 0)) (init g 1) in
  match get key now g with
  | Done r g' => threads m = [PcDone r] ∧ mem m = g' ∧ group m = ∅
  | Blocked g' => mem m = g' ∧ ∃ e, threads m = [PcSend e]
  end.
Proof.
  assert (∀ c r tr g', step key now (Reader 0) (Machine g' c [PcDone r] tr) = None)
    as Hstop by done.
  unfold get, init. cbn [replicate]. rewrite exec_cons.
  change (step key now (Reader 0) (Machine g ∅ [PcLoad] []))
    with (Some (Machine g ∅ [PcCheck (shard_at g (shard_of key) !! key)] [])).
  cbn [default from_option id]. destruct (shard_at g (shard_of key) !! key) as [e|] eqn:He.
  2: { rewrite exec_cons.
       change (step key now (Reader 0) (Machine g ∅ [PcCheck None] []))
         with (Some (Machine g ∅ [PcDone (go_zero, 0, false)] [])).
       cbn [default from_option id]. repeat (rewrite exec_cons, Hstop; cbn [default from_option id]). done. }
  rewrite exec_cons.
  assert (step key now (Reader 0) (Machine g ∅ [PcCheck (Some e)] []) =
          Some (Machine g ∅ [if isValid e now then PcDone (val e, vexpire e, true)
                             else PcDo e] [])) as ->.
  { unfold step, reader_step. cbn [threads lookup list_lookup].
    by destruct (isValid e now). }
  cbn [default from_option id]. destruct (isValid e now) eqn:Hv.
  { repeat (rewrite exec_cons, Hstop; cbn [default from_option id]). done. }
  rewrite exec_cons.
  assert (step key now (Reader 0) (Machine g ∅ [PcDo e] []) =
          Some (Machine g {[key := 0%nat]} [PcDelete e] [])) as ->.
  { unfold step, reader_step. cbn [threads group lookup list_lookup].
    by rewrite lookup_empty. }
  cbn [default from_option id]. rewrite exec_cons.
  change (step key now (Reader 0) (Machine g {[key := 0%nat]} [PcDelete e] []))
    with (Some (Machine (Delete key g).1 {[key := 0%nat]} [PcSend e]
                  [EvDelete key (Delete key g).2])).
  cbn [default from_option id]. unfold mbind, M_bind, expiration.
  set (g1 := (Delete key g).1). set (tr := [EvDelete key (Delete key g).2]).
  assert (∀ g' tr', step key now (Reader 0) (Machine g' {[key := 0%nat]} [PcExit e] tr') =
                    Some (Machine g' ∅ [PcDone (go_zero, vexpire e, false)] tr')) as Hexit.
  { intros g' tr'. unfold step, reader_step.
    cbn [threads group lookup list_lookup set_pc set_group mem trace insert list_insert].
    by rewrite delete_singleton_eq. }
  assert (step key now (Reader 0) (Machine g1 {[key := 0%nat]} [PcSend e] tr) =
          if expFuncEnabled g1 then
            if decide (length (expChan g1) < expChanCap)%nat
            then Some (Machine (set_expChan (expChan g1 ++ [key]) g1) {[key := 0%nat]}
                         [PcExit e] (tr ++ [EvNotify key]))
            else None
          else Some (Machine g1 {[key := 0%nat]} [PcExit e] tr)) as Hsend.
  { unfold step, reader_step. cbn [threads lookup list_lookup mem].
    destruct (expFuncEnabled g1); [case_decide|]; done. }
  rewrite exec_cons, Hsend.
  destruct (expFuncEnabled g1) eqn:Hen; [case_decide|]; cbn [default from_option id].
  - rewrite exec_cons, Hexit. cbn [default from_option id].
    repeat (rewrite exec_cons, Hstop; cbn [default from_option id]). done.
  - repeat (rewrite exec_cons, Hsend; cbn [default from_option id]).
    cbn [exec foldl mem threads]. eauto.
  - rewrite exec_cons, Hexit. cbn [default from_option id].
    repeat (rewrite exec_cons, Hstop; cbn [default from_option id]). done.
Qed.

End ReaderRuns.

(** * The claims of the specification *)

Section Claims.
Context {V : Type} {zeroV : GoZero V} {hasher : Hasher}.
Implicit Types (g : gache V) (key k : string) (v : V) (e : value V).

(** C1. A key set with a TTL [ttl > 0] at the time [now] (a Unix time, so
    not negative) is returned with its value by a [Get] at any time up to
    [now + ttl], the time of the [Set] included. A [Get] later than
    [now + ttl] returns the zero value and [false]; it evicts the entry:
    the key has no entry in its shard any more, every later [Get] finds
    nothing, and [Len] is back to what it was before the [Set]; when the key
    had no entry before the [Set], the shards are as they were before it.
    The [Get] that evicts returns provided the send of [expiration] can
    proceed ([can_notify]: the hook is disabled or its channel has room). *)
Theorem C1_expiration g key v (ttl now now' : Z) :
  gache_ok g → can_notify g →
  0 < ttl → 0 ≤ now → now + ttl < now' → int64_range now' →
  let g1 := SetWithExpire key v ttl now g in
  let g2 := evicted key g1 in
  (∀ t, now ≤ t ≤ now + ttl → Get key t g1 = Done (v, true) g1) ∧
  Get key now' g1 = Done (go_zero, false) g2 ∧
  entry_of g2 key = None ∧
  (∀ t, Get key t g2 = Done (go_zero, false) g2) ∧
  Len g2 = Len g ∧
  (entry_of g key = None → shards g2 = shards g).
Proof.
  intros (Hok & Hr & Hl) Hn Httl Hnow Hlate Hnow' g1 g2.
  assert (int64_range (now + ttl)) as Hsum by (unfold int64_range in *; lia).
  assert (entry_of g1 key = Some (Value (now + ttl) v)) as Hent.
  { unfold g1, SetWithExpire. rewrite entry_of_set_eq by done.
    unfold expire_at. rewrite (proj2 (Z.ltb_lt 0 ttl)) by done.
    by rewrite wrap_int64_id. }
  assert (entry_of g2 key = None) as Hgone.
  { unfold g2. rewrite entry_of_evicted. apply entry_of_Delete_eq.
    by apply shards_ok_set. }
  split; [|split; [|split; [|split; [|split]]]].
  - intros t Ht. apply (get_Get _ _ _ _ (now + ttl)).
    rewrite (get_valid key t g1 _ Hent); [done|].
    apply isValid_spec. simpl. lia.
  - apply (get_Get _ _ _ _ (now + ttl)).
    rewrite (get_expired key now' g1 _ Hent); [done| |done].
    apply isValid_false. simpl. lia.
  - done.
  - intros t. apply (get_Get _ _ _ _ 0). by apply get_absent.
  - unfold Len, g2. rewrite evicted_l. unfold g1, SetWithExpire.
    rewrite set_l_eq. by rewrite wrap_uint64_incr_decr.
  - intros Hnone. unfold g2. rewrite evicted_shards.
    by apply Delete_set_shards.
Qed.

(** C2. [isValid] holds exactly when [expire <= 0] or [now <= expire], and
    it decides the reads: [get] returns [true] exactly for a key whose
    entry is valid, and then the value and expiration of that entry; the
    map [Range] builds for [ToRawMap] holds exactly the pairs of the valid
    entries. A key set with [NoTTL] is returned with its value by a [Get]
    at any time. *)
Theorem C2_validity g key v (now now' : Z) :
  gache_ok g →
  (∀ e t, isValid e t = true ↔ vexpire e ≤ 0 ∨ t ≤ vexpire e) ∧
  (∀ t, (∃ x t' g', get key t g = Done (x, t', true) g') ↔
        (∃ e, entry_of g key = Some e ∧ isValid e t = true)) ∧
  (∀ t x t' g', get key t g = Done (x, t', true) g' →
        entry_of g key = Some (Value t' x) ∧ g' = g) ∧
  (∀ t m g', ToRawMap false t g = Done m g' →
        ∀ k x, m !! k = Some x ↔
               ∃ e, entry_of g k = Some e ∧ val e = x ∧ isValid e t = true) ∧
  Get key now' (SetWithExpire key v NoTTL now g) =
    Done (v, true) (SetWithExpire key v NoTTL now g).
Proof.
  intros (Hok & Hr & Hl).
  assert (∀ t x t' g', get key t g = Done (x, t', true) g' →
    ∃ e, entry_of g key = Some e ∧ isValid e t = true ∧ e = Value t' x ∧ g' = g)
    as Hget.
  { intros t x t' g'. unfold get. fold (entry_of g key).
    destruct (entry_of g key) as [e|]; [|done].
    destruct (isValid e t) eqn:Hv.
    - intros [= <- <- <-]. exists e. by destruct e.
    - unfold mbind, M_bind. by destruct (expiration key g). }
  split; [apply isValid_spec|]. split; [|split; [|split]].
  - intros t. split.
    + intros (x & t' & g' & Hg). apply Hget in Hg as (e & ? & ? & _). eauto.
    + intros (e & He & Hv). exists (val e), (vexpire e), g. by apply get_valid.
  - intros t x t' g' Hg. apply Hget in Hg as (e & ? & ? & -> & ->). done.
  - intros t m g' HR k x.
    destruct (Range_collect_Done t g m g' Hok Hr HR) as (_ & _ & Hm & _).
    rewrite Hm. unfold live. split.
    + destruct (entry_of g k) as [e|]; [|done].
      destruct (isValid e t) eqn:Hv; [|done]. intros [= <-]. eauto.
    + intros (e & -> & <- & ->). done.
  - apply (get_Get _ _ _ _ NoTTL). unfold SetWithExpire.
    rewrite (get_valid key now' _ (Value NoTTL v)); [done| |done].
    by apply (entry_of_set_eq key v NoTTL now g).
Qed.

(** C3, as amended. [set] stores under the key the value with the
    expiration [now + ttl], in [int64] arithmetic, when [ttl > 0], and with
    the expiration [ttl] itself when [ttl <= 0]: [-1] for [NoTTL], [0] only
    for [ttl = 0]; an entry whose expiration is not positive is valid at any
    time. [set] adds one to the size counter, a [uint64]. [Set] is [set]
    with the default TTL of the cache. *)
Theorem C3_set_stores g key v (ttl now : Z) :
  gache_ok g →
  let g' := SetWithExpire key v ttl now g in
  entry_of g' key = Some (Value (if 0 <? ttl then wrap_int64 (now + ttl) else ttl) v) ∧
  (0 < ttl → int64_range (now + ttl) →
     entry_of g' key = Some (Value (now + ttl) v)) ∧
  (ttl ≤ 0 →
     entry_of g' key = Some (Value ttl v) ∧ ∀ t, isValid (Value ttl v) t = true) ∧
  l g' = wrap_uint64 (l g + 1) ∧
  (l g + 1 < 2 ^ 64 → l g' = l g + 1) ∧
  Set_ key v now g = SetWithExpire key v (expire g) now g.
Proof.
  intros (Hok & Hr & Hl) g'.
  assert (entry_of g' key = Some (Value (expire_at ttl now) v)) as Hent
    by (by apply entry_of_set_eq).
  unfold expire_at in Hent.
  split; [done|]. split; [|split; [|split; [|split]]].
  - intros Hpos Hsum. rewrite Hent, (proj2 (Z.ltb_lt 0 ttl)) by done.
    by rewrite wrap_int64_id.
  - intros Hneg. rewrite Hent, (proj2 (Z.ltb_ge 0 ttl)) by done.
    split; [done|]. intros t. apply isValid_spec. simpl. lia.
  - done.
  - intros Hlt. unfold g', SetWithExpire. rewrite set_l_eq.
    apply wrap_uint64_id. unfold uint64_range in *. lia.
  - done.
Qed.

(** C4, the part the code keeps: [Delete] of a key that has an entry
    removes it from its shard, leaves the other keys as they are, adds
    [^uint64(0)] to the counter (one less, modulo [2^64]) and returns
    true. *)
Lemma Delete_present g key e :
  gache_ok g → entry_of g key = Some e →
  (Delete key g).2 = true ∧
  entry_of (Delete key g).1 key = None ∧
  (∀ k, k ≠ key → entry_of (Delete key g).1 k = entry_of g k) ∧
  l (Delete key g).1 = wrap_uint64 (l g + uint64_max).
Proof.
  intros (Hok & Hr & Hl) He. split; [|split; [|split]].
  - rewrite Delete_loaded, He. by apply bool_decide_eq_true_2.
  - by apply entry_of_Delete_eq.
  - intros k Hk. by apply entry_of_Delete_ne.
  - done.
Qed.

(** The counter after a [Delete], for a key with or without an entry. *)
Lemma Delete_Len g key :
  uint64_range (l g) →
  Len (Delete key g).1 = if decide (l g = 0) then -1 else
                         if decide (l g = 2 ^ 63) then 2 ^ 63 - 1 else Len g - 1.
Proof.
  unfold Len, int_of_uint64, uint64_range. rewrite Delete_l_eq, uint64_max_eq.
  intros Hl. unfold wrap_uint64.
  destruct (decide (l g = 0)) as [->|H0]; [done|].
  replace (l g + (2 ^ 64 - 1)) with ((l g - 1) + 1 * 2 ^ 64) by lia.
  rewrite Z.mod_add, Z.mod_small by lia.
  destruct (decide (l g = 2 ^ 63)) as [->|H1]; [done|].
  destruct (Z.ltb_spec (l g - 1) (2 ^ 63)), (Z.ltb_spec (l g) (2 ^ 63)); lia.
Qed.

(** C4, at the failing input. On a cache fresh from [New], which holds no
    key, [Delete] returns false, and [Len] goes from 0 to -1: the counter is
    decremented although nothing was removed. *)
Theorem C4_Delete_absent_decrements key :
  entry_of (New (V:=V) []) key = None ∧
  (Delete key (New (V:=V) [])).2 = false ∧
  Len (New (V:=V) []) = 0 ∧
  Len (Delete key (New (V:=V) [])).1 = -1.
Proof.
  assert (entry_of (New (V:=V) []) key = None) as He.
  { unfold entry_of. by rewrite shard_at_New. }
  split; [done|]. split; [|split].
  - rewrite Delete_loaded, He. apply bool_decide_eq_false_2. by intros [? ?].
  - by rewrite New_nil.
  - rewrite Delete_Len; rewrite New_nil; [done|]. unfold uint64_range. cbn [l]. lia.
Qed.

(** C8. [slen] is the power of two 512 and [mask] is [slen - 1]; the index
    [xxh3.HashString(key) & mask] is therefore in [0, slen), within the
    array of shards. [get], [set] and [Delete] of a key use the shard at
    that index and leave every other shard as it is; what [set] stores
    there is what [get] reads and what [Delete] removes. *)
Theorem C8_routing g key v (ttl now : Z) :
  shards_ok g →
  slen = 2 ^ 9 ∧ mask = slen - 1 ∧
  0 ≤ Z.land (HashString key) mask < slen ∧
  Z.of_nat (shard_of key) = Z.land (HashString key) mask ∧
  (shard_of key < length (shards g))%nat ∧
  (∀ i, i ≠ shard_of key →
     shard_at (set key v ttl now g) i = shard_at g i ∧
     shard_at (Delete key g).1 i = shard_at g i ∧
     shard_at (final (get key now g)) i = shard_at g i) ∧
  shard_at (set key v ttl now g) (shard_of key) !! key =
    Some (Value (expire_at ttl now) v) ∧
  shard_at (Delete key (set key v ttl now g)).1 (shard_of key) !! key = None ∧
  get key now (Delete key (set key v ttl now g)).1 =
    Done (go_zero, 0, false) (Delete key (set key v ttl now g)).1.
Proof.
  intros Hok. pose proof (land_mask_bounds (HashString key)) as Hb.
  split; [done|]. split; [done|]. split; [done|].
  split; [unfold shard_of; lia|].
  split; [rewrite Hok; apply shard_of_lt|].
  split; [|split; [|split]].
  - intros i Hi. split; [by apply shard_at_set_ne|].
    split; [by apply shard_at_Delete_ne|by apply shard_at_get].
  - by apply entry_of_set_eq.
  - apply entry_of_Delete_eq. by apply shards_ok_set.
  - apply get_absent, entry_of_Delete_eq. by apply shards_ok_set.
Qed.

(** C9. [Clear] puts an empty map at every index of the array of shards;
    after it, [Get] finds no key, whatever was stored and with whatever
    TTL. *)
Theorem C9_Clear g key (now : Z) :
  shards (Clear g) = replicate (length (shards g)) ∅ ∧
  (∀ i, shard_at (Clear g) i = ∅) ∧
  Get key now (Clear g) = Done (go_zero, false) (Clear g).
Proof.
  split; [apply Clear_shards|]. split; [apply shard_at_Clear|].
  apply (get_Get _ _ _ _ 0), get_absent, entry_of_Clear.
Qed.

End Claims.

Section PersistClaims.
Context {V : Type} {zeroV : GoZero V} {hasher : Hasher} {gob : Gob V}.
Implicit Types (g : gache V) (key k : string) (v : V) (e : value V)
  (m : gmap string V).

Lemma set_all_NoTTL_stores kvts g :
  set_all_NoTTL kvts g =
  foldl run_store g ((λ x, Store x.1.1 x.1.2 NoTTL x.2) <$> kvts).
Proof.
  unfold set_all_NoTTL. revert g.
  induction kvts as [|x kvts IH]; intros g; simpl; [done|]. by rewrite IH.
Qed.

Lemma entry_of_set_all_NoTTL kvts m k :
  kvts.*1 ≡ₚ map_to_list m →
  entry_of (set_all_NoTTL kvts (New [])) k = Value NoTTL <$> m !! k.
Proof.
  intros Hperm. rewrite set_all_NoTTL_stores.
  assert (NoDup (map_to_list m).*1) as Hnd by apply NoDup_fst_map_to_list.
  rewrite entry_of_stores; [|apply shards_ok_New|].
  - rewrite <- list_fmap_compose.
    replace (list_to_map _) with (Value NoTTL <$> m : gmap string (value V)).
    + rewrite lookup_fmap. unfold entry_of. rewrite shard_at_New, lookup_empty.
      by destruct (m !! k).
    + rewrite <- (list_to_map_to_list m) at 1. rewrite <- list_to_map_fmap.
      transitivity (list_to_map (prod_map id (Value NoTTL) <$> kvts.*1)
                      : gmap string (value V)).
      * apply list_to_map_proper; [|by rewrite Hperm].
        rewrite <- list_fmap_compose.
        replace (_ <$> map_to_list m) with (map_to_list m).*1; [done|].
        apply list_fmap_ext. by intros ? [? ?].
      * rewrite <- list_fmap_compose.
        apply (f_equal list_to_map). apply list_fmap_ext. by intros ? [[? ?] ?].
  - rewrite <- list_fmap_compose.
    replace (_ <$> kvts) with (kvts.*1.*1).
    + by rewrite Hperm.
    + rewrite <- list_fmap_compose. apply list_fmap_ext. by intros ? [[? ?] ?].
Qed.

(** C5. Let the pairs of a finite map [m] be set with [NoTTL] in a cache
    fresh from [New], in any order ([kvts] lists them in the order of the
    calls, each with the time of its call). [Write] returns and hands the
    encoder exactly [m]; when the encoder succeeds, with the bytes [w],
    [Read] of [w] into another fresh cache succeeds, and there [Get]
    returns, for every key of [m], its value and [true], at any time up to
    the default TTL (30 seconds) after the time [tr] of the [Read]. *)
Theorem C5_round_trip m (kvts : list (string * V * Z)) (tw tr tg : Z) (w : wire) :
  kvts.*1 ≡ₚ map_to_list m →
  gob_encode m = inr w →
  int64_range tr → tg ≤ tr + Second * 30 →
  let g1 := set_all_NoTTL kvts (New []) in
  let g2 := (Read w tr (New [])).2 in
  Write false tw g1 = Done (inr w) g1 ∧
  (Read w tr (New [])).1 = None ∧
  ∀ k v, m !! k = Some v → Get k tg g2 = Done (v, true) g2.
Proof.
  intros Hperm Henc Htr Htg g1 g2.
  assert (gache_ok g1) as (Hok1 & Hr1 & _).
  { unfold g1. rewrite set_all_NoTTL_stores.
    split; [apply shards_ok_stores, shards_ok_New|].
    split; [apply routed_stores; [apply shards_ok_New|apply routed_New]|].
    rewrite l_stores by apply gache_ok_New. apply wrap_uint64_range. }
  assert (all_valid tw g1) as Hall.
  { intros k e. unfold g1. rewrite (entry_of_set_all_NoTTL kvts m k Hperm).
    destruct (m !! k); [|done]. by intros [= <-]. }
  destruct (Write_all_valid tw g1 Hok1 Hr1 Hall) as (m' & HW & Hm').
  assert (m' = m) as ->.
  { apply map_eq. intros k. rewrite Hm'. unfold g1.
    rewrite (entry_of_set_all_NoTTL kvts m k Hperm). by destruct (m !! k). }
  rewrite Henc in HW. split; [done|].
  destruct (Read_decoded w tr (New []) m shards_ok_New (gob_decode_encode m w Henc))
    as (Hnone & _ & _ & Hent).
  split; [done|]. intros k v Hk.
  assert (entry_of g2 k = Some (Value (wrap_int64 (tr + Second * 30)) v)) as He.
  { unfold g2. rewrite Hent, Hk. by rewrite New_nil. }
  apply (get_Get _ _ _ _ (wrap_int64 (tr + Second * 30))).
  rewrite (get_valid k tg g2 _ He); [done|].
  apply isValid_spec. cbn [vexpire].
  destruct (decide (tr + Second * 30 < 2 ^ 63)) as [Hin|Hout].
  - right. rewrite wrap_int64_id; [done|].
    unfold int64_range, Second in *. lia.
  - left. apply Z.lt_le_incl, wrap_int64_overflow; [done| |lia].
    unfold int64_range, Second. lia.
Qed.

(** C6. What [Write] hands the encoder is a map from keys to values: the
    pairs of the entries valid at the time of the [Write], without their
    expirations. [Read] of these bytes into a cache [g2] at the time [tr]
    stores every pair with the expiration [set] computes from the default
    TTL of [g2] at [tr], whatever the expiration of the entry in the cache
    that was written: [tr + expire g2] when the default TTL is positive and
    the sum fits [int64]. The keys that were not written keep the entry they
    have in [g2]. *)
Theorem C6_Read_default_TTL g1 g2 (tw tr : Z) (w : wire) g1' :
  gache_ok g1 → gache_ok g2 →
  Write false tw g1 = Done (inr w) g1' →
  (Read w tr g2).1 = None ∧
  (∀ k, entry_of (Read w tr g2).2 k =
        match entry_of g1 k with
        | Some e =>
            if isValid e tw
            then Some (Value (if 0 <? expire g2 then wrap_int64 (tr + expire g2)
                              else expire g2) (val e))
            else entry_of g2 k
        | None => entry_of g2 k
        end) ∧
  (0 < expire g2 → int64_range (tr + expire g2) →
   ∀ k e, entry_of g1 k = Some e → isValid e tw = true →
          entry_of (Read w tr g2).2 k = Some (Value (tr + expire g2) (val e))).
Proof.
  intros (Hok1 & Hr1 & _) (Hok2 & _ & _) HW.
  destruct (Write_Done tw g1 _ g1' Hok1 Hr1 HW) as (m & Henc & Hm & _).
  symmetry in Henc.
  destruct (Read_decoded w tr g2 m Hok2 (gob_decode_encode m w Henc))
    as (Hnone & _ & _ & Hent).
  assert (∀ k, entry_of (Read w tr g2).2 k =
    match entry_of g1 k with
    | Some e => if isValid e tw then Some (Value (expire_at (expire g2) tr) (val e))
                else entry_of g2 k
    | None => entry_of g2 k
    end) as Hall.
  { intros k. rewrite Hent, Hm. unfold live.
    destruct (entry_of g1 k) as [e|]; [|done]. by destruct (isValid e tw). }
  split; [done|]. split; [exact Hall|].
  intros Hpos Hsum k e He Hv. rewrite Hall, He, Hv. unfold expire_at.
  rewrite (proj2 (Z.ltb_lt 0 (expire g2))) by done. by rewrite wrap_int64_id.
Qed.

(** C10. When the decoder fails on its source, [Read] returns that error
    and the cache is left as it was: no [Set] has run. *)
Theorem C10_Read_decode_error g (r : wire) (now : Z) (err : error) :
  gob_decode r = inl err →
  Read r now g = (Some err, g).
Proof. apply Read_decode_error. Qed.

End PersistClaims.

Section ReaderClaims.
Context {V : Type} {zeroV : GoZero V} {hasher : Hasher}.
Implicit Types (m : machine V) (p : pc V) (e : value V) (g : gache V).

(** C7, as amended. [n] readers call [get] in parallel for a key whose entry
    [e] is expired at [now], with the hook enabled and its channel empty;
    the daemon of [StartExpired] runs with them, under any schedule. At any
    moment at most one reader is inside the function of [expGroup.Do]; the
    hook has been started at most as often as keys were sent, keys were sent
    at most as often as [Delete] ran, and [Delete] ran at most [n] times.
    When all the readers have returned, [Delete] has run at least once, each
    run of [Delete] has sent the key once, and every key sent has started
    the hook or is still in the channel. *)
Theorem C7_eviction_per_flight g key e (now : Z) (n : nat) (sched : list actor) :
  entry_of g key = Some e → isValid e now = false →
  expFuncEnabled g = true → expChan g = [] →
  let m := exec key now sched (init g n) in
  (count in_fn (threads m) ≤ 1)%nat ∧
  (hooks (trace m) ≤ notifies (trace m))%nat ∧
  (notifies (trace m) ≤ deletes (trace m))%nat ∧
  (deletes (trace m) ≤ n)%nat ∧
  (Forall (λ p, is_done p = true) (threads m) → (0 < n)%nat →
     (1 ≤ deletes (trace m))%nat ∧
     notifies (trace m) = deletes (trace m) ∧
     (hooks (trace m) + length (expChan (mem m)))%nat = notifies (trace m)).
Proof.
  intros He Hexp Hen Hch m.
  destruct (run_inv_exec key e now n sched (init g n) Hexp
              (run_inv_init key e n g He Hen Hch))
    as [Hlen _ Hfn _ Hpend Hsend Hchan Hearly].
  fold m in Hlen, Hfn, Hpend, Hsend, Hchan, Hearly.
  split; [done|]. split; [lia|]. split; [lia|]. split; [lia|].
  intros Hdone Hn.
  assert (count at_send (threads m) = 0%nat) as Hnone.
  { apply count_none. eapply Forall_impl; [exact Hdone|]. by intros []. }
  split; [|lia].
  destruct (deletes (trace m)) as [|d] eqn:Hd; [|lia].
  destruct (Hearly eq_refl) as [_ Hall].
  destruct (threads m) as [|p ts]; [simpl in Hlen; lia|].
  apply Forall_cons in Hall as [Hp _]. apply Forall_cons in Hdone as [Hp' _].
  by destruct p.
Qed.

End ReaderClaims.

(** * Further properties of the code *)

(** ** The sweeps: [DeleteExpired], [Range], [ToRawMap] *)

Section SweepFacts.
Context {V : Type} {zeroV : GoZero V} {hasher : Hasher}.
Implicit Types (g : gache V) (kvs : list (string * value V)) (k key : string).

Lemma expired_keys_in_cons_valid now k e kvs :
  isValid e now = true → expired_keys_in now ((k, e) :: kvs) = expired_keys_in now kvs.
Proof. intros Hv. unfold expired_keys_in. rewrite filter_cons_False; [done|]. simpl. congruence. Qed.

Lemma expired_keys_in_cons_expired now k e kvs :
  isValid e now = false →
  expired_keys_in now ((k, e) :: kvs) = k :: expired_keys_in now kvs.
Proof. intros Hv. unfold expired_keys_in. by rewrite filter_cons_True. Qed.

Lemma room_for_le n n' g : (n' ≤ n)%nat → room_for n g → room_for n' g.
Proof. intros Hle [Hd|Hr]; [by left|right; lia]. Qed.

Lemma room_for_can_notify n g : room_for (S n) g → can_notify g.
Proof. intros [Hd|Hr]; [by left|right; lia]. Qed.

Lemma room_for_evicted n key g : room_for (S n) g → room_for n (evicted key g).
Proof.
  intros [Hd|Hr]; [left; by rewrite evicted_expFuncEnabled|].
  unfold room_for, evicted. destruct (expFuncEnabled g) eqn:Hen; [|by left].
  right. simpl. rewrite length_app. simpl. lia.
Qed.

(** The channel after the evictions of a traversal. *)
Lemma expChan_evict_invalid now kvs g :
  expChan (evict_invalid now kvs g) =
  if expFuncEnabled g then expChan g ++ expired_keys_in now kvs else expChan g.
Proof.
  revert g. induction kvs as [|[k e] kvs IH]; intros g; simpl.
  - destruct (expFuncEnabled g); [by rewrite app_nil_r|done].
  - fold (evict_invalid now kvs). rewrite IH.
    destruct (isValid e now) eqn:Hv.
    + by rewrite expired_keys_in_cons_valid.
    + rewrite expired_keys_in_cons_expired, evicted_expFuncEnabled by done.
      unfold evicted. destruct (expFuncEnabled g); [|done].
      simpl. by rewrite <- app_assoc.
Qed.

Lemma l_evict_invalid now kvs g :
  uint64_range (l g) →
  l (evict_invalid now kvs g) =
  wrap_uint64 (l g - Z.of_nat (length (expired_keys_in now kvs))).
Proof.
  revert g. induction kvs as [|[k e] kvs IH]; intros g Hl; simpl.
  - rewrite Z.sub_0_r. by rewrite wrap_uint64_id.
  - fold (evict_invalid now kvs). destruct (isValid e now) eqn:Hv.
    + rewrite expired_keys_in_cons_valid by done. by apply IH.
    + rewrite expired_keys_in_cons_expired by done.
      rewrite IH by (rewrite evicted_l; apply wrap_uint64_range).
      rewrite evicted_l, uint64_max_eq. unfold wrap_uint64.
      rewrite Zminus_mod_idemp_l. cbn [length].
      replace (l g + (2 ^ 64 - 1) - Z.of_nat (length (expired_keys_in now kvs)))
        with (l g - Z.of_nat (S (length (expired_keys_in now kvs))) + 1 * 2 ^ 64) by lia.
      by rewrite Z.mod_add by lia.
Qed.

Lemma room_for_evict_invalid now kvs n g :
  room_for (length (expired_keys_in now kvs) + n) g →
  room_for n (evict_invalid now kvs g).
Proof.
  revert g. induction kvs as [|[k e] kvs IH]; intros g Hroom; simpl; [done|].
  fold (evict_invalid now kvs). destruct (isValid e now) eqn:Hv.
  - rewrite expired_keys_in_cons_valid in Hroom by done. by apply IH.
  - rewrite expired_keys_in_cons_expired in Hroom by done.
    apply IH. by apply room_for_evicted.
Qed.

(** The traversal of one shard by [DeleteExpired]: when the sends can
    proceed it returns, with the expired entries evicted and counted. *)
Lemma deleteExpired_shard_run now kvs rows g :
  room_for (length (expired_keys_in now kvs)) g → uint64_range rows →
  deleteExpired_shard false now kvs rows g =
  Done (wrap_uint64 (rows + Z.of_nat (length (expired_keys_in now kvs))))
       (evict_invalid now kvs g).
Proof.
  revert rows g. induction kvs as [|[k e] kvs IH]; intros rows g Hroom Hrows; simpl.
  - rewrite Z.add_0_r. by rewrite wrap_uint64_id.
  - fold (evict_invalid now kvs). destruct (isValid e now) eqn:Hv.
    + rewrite expired_keys_in_cons_valid in * by done. by apply IH.
    + rewrite expired_keys_in_cons_expired in * by done.
      unfold mbind, M_bind.
      rewrite expiration_done by (by apply (room_for_can_notify _ _ Hroom)).
      rewrite IH; [|by apply room_for_evicted|apply wrap_uint64_range].
      f_equal. unfold wrap_uint64. rewrite Zplus_mod_idemp_l.
      f_equal. cbn [length]. lia.
Qed.

(** When the context is cancelled the traversal of a shard does nothing. *)
Lemma deleteExpired_shard_cancelled now kvs rows g :
  deleteExpired_shard true now kvs rows g = Done rows g.
Proof. by destruct kvs as [|[k e] kvs]. Qed.

Lemma deleteExpired_from_cancelled now idxs rows g :
  deleteExpired_from true now idxs rows g = Done rows g.
Proof.
  induction idxs as [|i idxs IH]; simpl; [done|].
  unfold mbind, M_bind. by rewrite deleteExpired_shard_cancelled.
Qed.

(** What a sweep leaves of the cache does not depend on the accumulator of
    the callback. *)
Lemma sweep_from_snd now idxs (acc acc' : gmap string V) g :
  (sweep_from now idxs acc g).2 = (sweep_from now idxs acc' g).2.
Proof.
  revert acc acc' g. induction idxs as [|i idxs IH]; intros acc acc' g; simpl; [done|].
  apply IH.
Qed.

(** The evictions in one shard leave the expired keys of the others. *)
Lemma expired_keys_from_evict_invalid now i idxs g :
  routed g → i ∉ idxs →
  expired_keys_from now idxs (evict_invalid now (map_to_list (shard_at g i)) g) =
  expired_keys_from now idxs g.
Proof.
  intros Hr Hi. unfold expired_keys_from.
  induction idxs as [|j idxs IH]; [done|].
  rewrite !bind_cons. rewrite IH by (intros ?; apply Hi; by apply list_elem_of_further).
  f_equal. f_equal. f_equal. apply shard_at_evict_invalid.
  eapply Forall_impl; [by apply map_to_list_routed|].
  intros kv ->. intros ->. apply Hi. apply list_elem_of_here.
Qed.

Lemma deleteExpired_from_run now idxs rows g :
  shards_ok g → routed g → NoDup idxs →
  room_for (length (expired_keys_from now idxs g)) g → uint64_range rows →
  deleteExpired_from false now idxs rows g =
  Done (wrap_uint64 (rows + Z.of_nat (length (expired_keys_from now idxs g))))
       (sweep_from now idxs ∅ g).2.
Proof.
  revert rows g. induction idxs as [|i idxs IH]; intros rows g Hok Hr Hnd Hroom Hrows.
  - simpl. rewrite Z.add_0_r. by rewrite wrap_uint64_id.
  - apply NoDup_cons in Hnd as [Hi Hnd].
    unfold expired_keys_from in Hroom |- *. rewrite bind_cons, length_app in *.
    fold (expired_keys_from now idxs g) in Hroom |- *.
    cbn [deleteExpired_from sweep_from]. unfold mbind, M_bind.
    rewrite deleteExpired_shard_run; [|by eapply room_for_le; [|exact Hroom]; lia|done].
    rewrite IH.
    + rewrite (expired_keys_from_evict_invalid now i idxs g Hr Hi).
      rewrite (sweep_from_snd now idxs ∅
                 (collect_valid now (map_to_list (shard_at g i)) ∅)).
      f_equal. unfold wrap_uint64. rewrite Zplus_mod_idemp_l. f_equal. lia.
    + by apply shards_ok_evict_invalid.
    + by apply routed_evict_invalid.
    + done.
    + rewrite (expired_keys_from_evict_invalid now i idxs g Hr Hi).
      by apply room_for_evict_invalid.
    + apply wrap_uint64_range.
Qed.

(** The channel and the counter after a sweep. *)
Lemma sweep_from_expChan now idxs acc g :
  routed g → shards_ok g → NoDup idxs →
  expChan (sweep_from now idxs acc g).2 =
  if expFuncEnabled g then expChan g ++ expired_keys_from now idxs g else expChan g.
Proof.
  revert acc g. induction idxs as [|i idxs IH]; intros acc g Hr Hok Hnd.
  - simpl. destruct (expFuncEnabled g); [by rewrite app_nil_r|done].
  - apply NoDup_cons in Hnd as [Hi Hnd]. cbn [sweep_from].
    rewrite IH by (done || by apply routed_evict_invalid || by apply shards_ok_evict_invalid).
    rewrite evict_invalid_expFuncEnabled, expChan_evict_invalid.
    rewrite (expired_keys_from_evict_invalid now i idxs g Hr Hi).
    unfold expired_keys_from at 2. rewrite bind_cons.
    destruct (expFuncEnabled g); [by rewrite <- app_assoc|done].
Qed.

Lemma sweep_from_l now idxs acc g :
  routed g → shards_ok g → NoDup idxs → uint64_range (l g) →
  l (sweep_from now idxs acc g).2 =
  wrap_uint64 (l g - Z.of_nat (length (expired_keys_from now idxs g))).
Proof.
  revert acc g. induction idxs as [|i idxs IH]; intros acc g Hr Hok Hnd Hl.
  - simpl. rewrite Z.sub_0_r. by rewrite wrap_uint64_id.
  - apply NoDup_cons in Hnd as [Hi Hnd]. cbn [sweep_from].
    rewrite IH; [|by apply routed_evict_invalid|by apply shards_ok_evict_invalid|done|].
    + rewrite l_evict_invalid by done.
      rewrite (expired_keys_from_evict_invalid now i idxs g Hr Hi).
      unfold expired_keys_from at 2. rewrite bind_cons, length_app.
      fold (expired_keys_from now idxs g).
      unfold wrap_uint64. rewrite Zminus_mod_idemp_l. f_equal. lia.
    + rewrite l_evict_invalid by done. apply wrap_uint64_range.
Qed.

(** The expired keys: each one once, and exactly the keys whose entry is
    expired. *)
Lemma elem_of_expired_keys_in now (m : gmap string (value V)) k :
  k ∈ expired_keys_in now (map_to_list m) ↔
  ∃ e, m !! k = Some e ∧ isValid e now = false.
Proof.
  unfold expired_keys_in. rewrite list_elem_of_fmap. split.
  - intros ([k' e] & -> & Hin). apply list_elem_of_filter in Hin as [Hv Hin].
    apply elem_of_map_to_list in Hin. eauto.
  - intros (e & He & Hv). exists (k, e). split; [done|].
    apply list_elem_of_filter. split; [done|]. by apply elem_of_map_to_list.
Qed.

Lemma NoDup_expired_keys_in now (m : gmap string (value V)) :
  NoDup (expired_keys_in now (map_to_list m)).
Proof.
  unfold expired_keys_in. apply (sublist_NoDup _ (map_to_list m).*1).
  - apply NoDup_fst_map_to_list.
  - apply fmap_sublist, sublist_filter.
Qed.

Lemma elem_of_expired_keys now g k :
  shards_ok g → routed g →
  k ∈ expired_keys now g ↔ ∃ e, entry_of g k = Some e ∧ isValid e now = false.
Proof.
  intros Hok Hr. unfold expired_keys, expired_keys_from.
  rewrite list_elem_of_bind. split.
  - intros (i & Hk & _). apply elem_of_expired_keys_in in Hk as (e & He & Hv).
    exists e. split; [|done]. unfold entry_of.
    rewrite <- (Hr i k); [done|by eexists].
  - intros (e & He & Hv). exists (shard_of k). split.
    + apply elem_of_expired_keys_in. eauto.
    + by apply shard_of_in_seq.
Qed.

Lemma NoDup_expired_keys now g : routed g → NoDup (expired_keys now g).
Proof.
  intros Hr. unfold expired_keys, expired_keys_from. apply NoDup_bind.
  - intros i j k _ _ Hi Hj.
    apply elem_of_expired_keys_in in Hi as (e & He & _).
    apply elem_of_expired_keys_in in Hj as (e' & He' & _).
    rewrite (Hr i k), (Hr j k); [done|by eexists|by eexists].
  - intros i _. apply NoDup_expired_keys_in.
  - apply NoDup_seq.
Qed.


Lemma expired_keys_all_valid now g :
  shards_ok g → routed g → all_valid now g → expired_keys now g = [].
Proof.
  intros Hok Hr Hall. destruct (expired_keys now g) as [|k ks] eqn:E; [done|].
  assert (k ∈ expired_keys now g) as Hk by (rewrite E; apply list_elem_of_here).
  apply elem_of_expired_keys in Hk as (e & He & Hv); [|done|done].
  rewrite (Hall k e He) in Hv. done.
Qed.

Lemma all_valid_live_entry now g g' :
  (∀ k, entry_of g' k = live_entry now g k) → all_valid now g'.
Proof.
  intros Hent k e. rewrite Hent. unfold live_entry.
  destruct (entry_of g k) as [e'|]; [|done].
  destruct (isValid e' now) eqn:Hv; [|done]. by intros [= <-].
Qed.

(** The traversal of one shard by [Range] with the collecting callback,
    when the sends can proceed. *)
Lemma range_shard_room now kvs (acc : gmap string V) g :
  room_for (length (expired_keys_in now kvs)) g →
  range_shard false collect now kvs acc g =
  Done (collect_valid now kvs acc) (evict_invalid now kvs g).
Proof.
  revert acc g. induction kvs as [|[k e] kvs IH]; intros acc g Hroom; simpl; [done|].
  fold (evict_invalid now kvs). fold (collect_valid now kvs).
  destruct (isValid e now) eqn:Hv.
  - rewrite expired_keys_in_cons_valid in Hroom by done. by apply IH.
  - rewrite expired_keys_in_cons_expired in Hroom by done.
    unfold mbind, M_bind.
    rewrite expiration_done by (by apply (room_for_can_notify _ _ Hroom)).
    apply IH. by apply room_for_evicted.
Qed.

Lemma range_from_room now idxs (acc : gmap string V) g :
  shards_ok g → routed g → NoDup idxs →
  room_for (length (expired_keys_from now idxs g)) g →
  range_from false collect now idxs acc g =
  Done (sweep_from now idxs acc g).1 (sweep_from now idxs acc g).2.
Proof.
  revert acc g. induction idxs as [|i idxs IH]; intros acc g Hok Hr Hnd Hroom; [done|].
  apply NoDup_cons in Hnd as [Hi Hnd].
  unfold expired_keys_from in Hroom. rewrite bind_cons, length_app in Hroom.
  fold (expired_keys_from now idxs g) in Hroom.
  cbn [range_from sweep_from]. unfold mbind, M_bind.
  rewrite range_shard_room by (eapply room_for_le; [|exact Hroom]; lia).
  apply IH; [by apply shards_ok_evict_invalid|by apply routed_evict_invalid|done|].
  rewrite (expired_keys_from_evict_invalid now i idxs g Hr Hi).
  by apply room_for_evict_invalid.
Qed.

(** With the context cancelled, the traversals of [Range] call nothing. *)
Lemma range_shard_cancelled {A} (f : string → V → Z → A → A * bool) now kvs acc g :
  range_shard true f now kvs acc g = Done acc g.
Proof. by destruct kvs as [|[k e] kvs]. Qed.

Lemma range_from_cancelled {A} (f : string → V → Z → A → A * bool) now idxs acc g :
  range_from true f now idxs acc g = Done acc g.
Proof.
  induction idxs as [|i idxs IH]; simpl; [done|].
  unfold mbind, M_bind. by rewrite range_shard_cancelled.
Qed.

Lemma range_shard_count_and_stop now (m : gmap string (value V)) n g :
  Forall (λ kv, isValid kv.2 now = true) (map_to_list m) →
  range_shard false count_and_stop now (map_to_list m) n g =
  Done ((if nonempty m then 1 else 0) + n)%nat g.
Proof.
  unfold nonempty. destruct (map_to_list m) as [|[k e] kvs]; [done|].
  intros Hall. apply Forall_cons in Hall as [Hv _]. simpl in *. by rewrite Hv.
Qed.

Lemma range_from_count_and_stop now idxs n g :
  routed g → all_valid now g →
  range_from false count_and_stop now idxs n g =
  Done (count nonempty ((λ i, shard_at g i) <$> idxs) + n)%nat g.
Proof.
  intros Hr Hall. revert n. induction idxs as [|i idxs IH]; intros n; [done|].
  cbn [range_from fmap list_fmap count]. unfold mbind, M_bind.
  rewrite range_shard_count_and_stop by (by apply all_valid_shard).
  rewrite IH. f_equal. lia.
Qed.

Lemma fmap_shard_at_seq g :
  (λ i, shard_at g i) <$> seq 0 (length (shards g)) = shards g.
Proof.
  apply list_eq. intros j. rewrite list_lookup_fmap.
  destruct (decide (j < length (shards g))%nat) as [Hj|Hj].
  - rewrite lookup_seq_lt by done. simpl. unfold shard_at.
    symmetry. by apply list_lookup_lookup_total_lt.
  - rewrite lookup_seq_ge by lia. simpl. symmetry. apply lookup_ge_None. lia.
Qed.

End SweepFacts.

Section SweepMore.
Context {V : Type} {zeroV : GoZero V} {hasher : Hasher}.
Implicit Types (g : gache V) (k key : string).

Lemma sweep_from_all_valid now idxs (acc : gmap string V) g :
  routed g → all_valid now g → (sweep_from now idxs acc g).2 = g.
Proof.
  intros Hr Hall. revert acc. induction idxs as [|i idxs IH]; intros acc; simpl; [done|].
  rewrite evict_invalid_all_valid by (by apply all_valid_shard). apply IH.
Qed.

(** The cache a sweep of all the shards leaves. *)
Lemma sweep_all now (acc : gmap string V) g :
  gache_ok g →
  let g' := (sweep_from now (seq 0 (length (shards g))) acc g).2 in
  gache_ok g' ∧
  (∀ k, entry_of g' k = live_entry now g k) ∧
  l g' = wrap_uint64 (l g - Z.of_nat (length (expired_keys now g))) ∧
  expChan g' = (if expFuncEnabled g then expChan g ++ expired_keys now g
                else expChan g) ∧
  expFuncEnabled g' = expFuncEnabled g ∧
  all_valid now g' ∧ expired_keys now g' = [].
Proof.
  intros (Hok & Hr & Hl) g'.
  destruct (sweep_from_spec now (seq 0 (length (shards g))) acc g Hok Hr)
    as (Hok' & Hr' & _ & Hent); [apply NoDup_seq|].
  fold g' in Hok', Hr', Hent.
  assert (∀ k, entry_of g' k = live_entry now g k) as Hent'.
  { intros k. by rewrite Hent, decide_True by (by apply shard_of_in_seq). }
  assert (l g' = wrap_uint64 (l g - Z.of_nat (length (expired_keys now g)))) as Hl'.
  { by apply sweep_from_l; [| |apply NoDup_seq|]. }
  pose proof (all_valid_live_entry now g g' Hent') as Hall.
  split; [split; [done|split; [done|]]|].
  { rewrite Hl'. apply wrap_uint64_range. }
  split; [done|]. split; [done|].
  split; [by apply sweep_from_expChan; [| |apply NoDup_seq]|].
  split; [|split; [done|by apply expired_keys_all_valid]].
  unfold g'. clear. generalize (seq 0 (length (shards g))). intros idxs.
  revert acc g. induction idxs as [|i idxs IH]; intros acc g; simpl; [done|].
  by rewrite IH, evict_invalid_expFuncEnabled.
Qed.

Lemma room_for_zero_sweep now n g g' :
  room_for n g →
  expChan g' = (if expFuncEnabled g then expChan g ++ expired_keys now g else expChan g) →
  expFuncEnabled g' = expFuncEnabled g →
  n = length (expired_keys now g) →
  room_for 0 g'.
Proof.
  intros [Hd|Hr] Hch Hen ->; [left; congruence|].
  unfold room_for. rewrite Hen, Hch.
  destruct (expFuncEnabled g); [|by left]. right. rewrite length_app. lia.
Qed.

(** The result of [Get], if it returns. *)
Lemma result_Get key t g :
  result (Get key t g) =
  match entry_of g key with
  | None => Some (go_zero, false)
  | Some e =>
      if isValid e t then Some (val e, true)
      else if expFuncEnabled g then
        if decide (length (expChan g) < expChanCap)%nat
        then Some (go_zero, false) else None
      else Some (go_zero, false)
  end.
Proof.
  unfold Get, get, mbind, M_bind, expiration. fold (entry_of g key).
  destruct (entry_of g key) as [e|]; [|done].
  destruct (isValid e t); [done|]. simpl.
  destruct (expFuncEnabled g); [case_decide|]; done.
Qed.

End SweepMore.

Section CoreExtras.
Context {V : Type} {zeroV : GoZero V} {hasher : Hasher}.
Implicit Types (g : gache V) (k key : string) (v : V) (e : value V).

(** X1. [DeleteExpired] on a context that is not cancelled, when the sends
    to the hook can proceed: it returns the number of expired entries (as a
    [uint64]); each expired key, and no other, is deleted, takes one off the
    counter and, with the hook enabled, is sent once to the channel of the
    hook; the valid entries stay. A second [DeleteExpired] at the same time
    returns 0 and changes nothing. *)
Theorem X1_DeleteExpired g (now : Z) :
  gache_ok g → room_for (length (expired_keys now g)) g →
  let ks := expired_keys now g in
  let g' := final (DeleteExpired false now g) in
  DeleteExpired false now g = Done (wrap_uint64 (Z.of_nat (length ks))) g' ∧
  NoDup ks ∧
  (∀ k, k ∈ ks ↔ ∃ e, entry_of g k = Some e ∧ isValid e now = false) ∧
  (∀ k, entry_of g' k = live_entry now g k) ∧
  l g' = wrap_uint64 (l g - Z.of_nat (length ks)) ∧
  expChan g' ≡ₚ (if expFuncEnabled g then expChan g ++ ks else expChan g) ∧
  DeleteExpired false now g' = Done 0 g'.
Proof.
  intros Hg Hroom ks g'. pose proof Hg as (Hok & Hr & Hl).
  assert (DeleteExpired false now g =
          Done (wrap_uint64 (Z.of_nat (length ks)))
               (sweep_from now (seq 0 (length (shards g))) ∅ g).2) as Hrun.
  { unfold DeleteExpired.
    rewrite deleteExpired_from_run; [done|done|done|apply NoDup_seq|done|].
    unfold uint64_range. lia. }
  assert (g' = (sweep_from now (seq 0 (length (shards g))) ∅ g).2) as Hg'
    by (unfold g'; by rewrite Hrun).
  destruct (sweep_all now ∅ g Hg) as (Hg2 & Hent & Hl' & Hch & Hen & Hall & Hnil).
  rewrite <- Hg' in Hg2, Hent, Hl', Hch, Hen, Hall, Hnil.
  split; [by rewrite Hg'|]. split; [by apply NoDup_expired_keys|].
  split; [intros k; by apply elem_of_expired_keys|].
  split; [done|]. split; [done|]. split; [by rewrite Hch|].
  destruct Hg2 as (Hok' & Hr' & _).
  unfold DeleteExpired.
  rewrite deleteExpired_from_run; [|done|done|apply NoDup_seq| |unfold uint64_range; lia].
  - fold (expired_keys now g'). rewrite Hnil.
    by rewrite sweep_from_all_valid.
  - fold (expired_keys now g'). rewrite Hnil.
    by apply (room_for_zero_sweep now _ g g' Hroom).
Qed.

(** X3. [ToRawMap] is not a pure read. On a context that is not cancelled,
    when the sends to the hook can proceed, it returns the map of the valid
    entries, and it has evicted the expired ones: they have no entry any
    more and each has taken one off the counter. A second [ToRawMap] at the
    same time returns the same map and changes nothing. *)
Theorem X3_ToRawMap_evicts g (now : Z) :
  gache_ok g → room_for (length (expired_keys now g)) g →
  let g' := final (ToRawMap false now g) in
  ∃ m, ToRawMap false now g = Done m g' ∧
       (∀ k, m !! k = live now g k) ∧
       (∀ k, entry_of g' k = live_entry now g k) ∧
       l g' = wrap_uint64 (l g - Z.of_nat (length (expired_keys now g))) ∧
       ToRawMap false now g' = Done m g'.
Proof.
  intros Hg Hroom g'. pose proof Hg as (Hok & Hr & Hl).
  set (idxs := seq 0 (length (shards g))).
  assert (ToRawMap false now g =
          Done (sweep_from now idxs ∅ g).1 (sweep_from now idxs ∅ g).2) as Hrun.
  { unfold ToRawMap, Range. fold (@collect V). fold idxs.
    apply range_from_room; [done|done|apply NoDup_seq|done]. }
  assert (g' = (sweep_from now idxs ∅ g).2) as Hg'
    by (unfold g'; by rewrite Hrun).
  destruct (sweep_all now ∅ g Hg) as (Hg2 & Hent & Hl' & Hch & Hen & Hall & Hnil).
  fold idxs in Hg2, Hent, Hl', Hch, Hen, Hall, Hnil.
  rewrite <- Hg' in Hg2, Hent, Hl', Hch, Hen, Hall, Hnil.
  destruct (sweep_from_spec now idxs ∅ g Hok Hr) as (_ & _ & Hacc & _);
    [apply NoDup_seq|].
  assert (∀ k, (sweep_from now idxs ∅ g).1 !! k = live now g k) as Hm.
  { intros k. rewrite Hacc, decide_True by (by apply shard_of_in_seq).
    rewrite lookup_empty. by destruct (live now g k). }
  exists (sweep_from now idxs ∅ g).1.
  split; [by rewrite Hg'|]. split; [done|]. split; [done|]. split; [done|].
  destruct Hg2 as (Hok' & Hr' & _).
  destruct (Range_collect_all_valid now g' Hok' Hr' Hall) as (m' & HR & Hm').
  unfold ToRawMap. fold (@collect V). rewrite HR. f_equal.
  apply map_eq. intros k. rewrite Hm', Hm, Hent. unfold live, live_entry.
  destruct (entry_of g k) as [e|]; [|done]. by destruct (isValid e now).
Qed.

(** X4. A callback that returns false ends the traversal of one shard, not
    the [Range]: on a cache without expired entries, [Range] calls a
    callback that always returns false once in every shard that holds an
    entry. *)
Theorem X4_Range_stops_per_shard g (now : Z) :
  gache_ok g → all_valid now g →
  Range false count_and_stop now 0%nat g = Done (count nonempty (shards g)) g ∧
  (count nonempty (shards g) ≤ Z.to_nat slen)%nat.
Proof.
  intros (Hok & Hr & _) Hall. split.
  - unfold Range. rewrite range_from_count_and_stop by done.
    by rewrite fmap_shard_at_seq, Nat.add_0_r.
  - rewrite <- Hok. apply count_le_length.
Qed.

(** X5. [Clear] empties the shards and leaves the counter: after a [set]
    and a [Clear] no key is found, and [Len] still counts the [set]. *)
Theorem X5_Clear_keeps_counter g key v (ttl now t : Z) :
  let g' := Clear (set key v ttl now g) in
  (∀ k, Get k t g' = Done (go_zero, false) g') ∧
  l g' = wrap_uint64 (l g + 1) ∧
  Len (Clear g) = Len g.
Proof.
  intros g'. split; [|done].
  intros k. apply (get_Get _ _ _ _ 0), get_absent, entry_of_Clear.
Qed.

(** X6. A [set] on a key that has an entry replaces it: the shards are
    those of the second [set] alone, and a [Get] finds the second value.
    The counter counts both calls. *)
Theorem X6_set_overwrites g key v1 v2 (ttl1 ttl2 now1 now2 : Z) :
  shards_ok g →
  let g2 := set key v2 ttl2 now2 (set key v1 ttl1 now1 g) in
  shards g2 = shards (set key v2 ttl2 now2 g) ∧
  entry_of g2 key = Some (Value (expire_at ttl2 now2) v2) ∧
  l g2 = wrap_uint64 (l g + 2).
Proof.
  intros Hok g2. split; [|split].
  - unfold g2. rewrite !set_shards_eq, shard_at_set_eq by done.
    by rewrite insert_insert_eq, list_insert_insert_eq.
  - apply entry_of_set_eq. by apply shards_ok_set.
  - unfold g2. rewrite !set_l_eq. unfold wrap_uint64.
    rewrite Zplus_mod_idemp_l. f_equal. lia.
Qed.

(** X7. [set] and [Delete] of a key leave the other keys alone: a [Get] of
    another key returns what it returned before, or blocks as before. *)
Theorem X7_other_keys g key k v (ttl now t : Z) :
  shards_ok g → k ≠ key →
  result (Get k t (set key v ttl now g)) = result (Get k t g) ∧
  result (Get k t (Delete key g).1) = result (Get k t g).
Proof.
  intros Hok Hk. rewrite !result_Get.
  by rewrite entry_of_set_ne, entry_of_Delete_ne.
Qed.

(** X8. A [get] on an expired entry deletes it and takes one off the
    counter. When the hook is disabled, or its channel has room, [get]
    returns the zero value, the expiration of the entry and false, and with
    the hook enabled the key is at the end of the channel. When the hook is
    enabled and its channel is full, [get] does not return: it stands at the
    send, with the entry already deleted and the channel as it was. *)
Theorem X8_get_expired g key e (now : Z) :
  shards_ok g → entry_of g key = Some e → isValid e now = false →
  (can_notify g →
     get key now g = Done (go_zero, vexpire e, false) (evicted key g) ∧
     expChan (evicted key g) =
       (if expFuncEnabled g then expChan g ++ [key] else expChan g)) ∧
  (¬ can_notify g →
     get key now g = Blocked (Delete key g).1 ∧
     expFuncEnabled g = true ∧ (expChanCap ≤ length (expChan g))%nat ∧
     expChan (Delete key g).1 = expChan g) ∧
  entry_of (final (get key now g)) key = None ∧
  l (final (get key now g)) = wrap_uint64 (l g + uint64_max).
Proof.
  intros Hok He Hv. split; [|split].
  - intros Hn. split; [by apply (get_expired key now g e)|]. unfold evicted.
    by destruct (expFuncEnabled g).
  - intros Hn. split; [by apply (get_expired_blocked key now g e)|].
    destruct (expFuncEnabled g) eqn:Hen.
    + split; [done|]. split; [|done].
      destruct (decide (length (expChan g) < expChanCap)%nat); [|lia].
      destruct Hn. by right.
    + destruct Hn. by left.
  - destruct (expFuncEnabled g) eqn:Hen.
    + destruct (decide (length (expChan g) < expChanCap)%nat) as [Hroom|Hfull].
      * rewrite (get_expired key now g e He Hv) by (by right). cbn [final].
        rewrite entry_of_evicted, evicted_l. split; [by apply entry_of_Delete_eq|done].
      * rewrite (get_expired_blocked key now g e He Hv).
        -- cbn [final]. split; [by apply entry_of_Delete_eq|done].
        -- intros [Hd|Hr]; [congruence|done].
    + rewrite (get_expired key now g e He Hv) by (by left). cbn [final].
      rewrite entry_of_evicted, evicted_l. split; [by apply entry_of_Delete_eq|done].
Qed.

(** X10. [GetWithExpire] returns, with the value, the expiration stored by
    [SetWithExpire]: [now + ttl] for a positive TTL. For an expired entry it
    returns the zero value and false with the expiration of the entry it
    evicts, and for a key without entry the zero value, 0 and false. *)
Theorem X10_GetWithExpire g key v (ttl now t : Z) :
  shards_ok g → can_notify g → 0 < ttl → 0 < now + ttl → int64_range (now + ttl) →
  let g1 := SetWithExpire key v ttl now g in
  (t ≤ now + ttl → GetWithExpire key t g1 = Done (v, now + ttl, true) g1) ∧
  (now + ttl < t →
     GetWithExpire key t g1 = Done (go_zero, now + ttl, false) (evicted key g1)) ∧
  GetWithExpire key t (Delete key g1).1 = Done (go_zero, 0, false) (Delete key g1).1.
Proof.
  intros Hok Hn Httl Hpos Hsum g1.
  assert (entry_of g1 key = Some (Value (now + ttl) v)) as Hent.
  { unfold g1, SetWithExpire. rewrite entry_of_set_eq by done.
    unfold expire_at. rewrite (proj2 (Z.ltb_lt 0 ttl)) by done.
    by rewrite wrap_int64_id. }
  unfold GetWithExpire. split; [|split].
  - intros Ht. rewrite (get_valid key t g1 _ Hent); [done|].
    apply isValid_spec. simpl. lia.
  - intros Ht. rewrite (get_expired key t g1 _ Hent); [done| |done].
    apply isValid_false. simpl. lia.
  - apply get_absent, entry_of_Delete_eq. by apply shards_ok_set.
Qed.

(** X11. [Set] stores with the TTL given last to [SetDefaultExpire]. With a
    default that is not positive the entry never expires; with a positive
    default [d] it is found up to [now + d] and not after. *)
Theorem X11_default_expire g key v (d now t : Z) :
  shards_ok g → can_notify g →
  let g1 := Set_ key v now (SetDefaultExpire d g) in
  expire g1 = d ∧
  (d ≤ 0 → Get key t g1 = Done (v, true) g1) ∧
  (0 < d → 0 < now + d → int64_range (now + d) →
     (t ≤ now + d → Get key t g1 = Done (v, true) g1) ∧
     (now + d < t → Get key t g1 = Done (go_zero, false) (evicted key g1))).
Proof.
  intros Hok Hn g1.
  assert (entry_of g1 key = Some (Value (expire_at d now) v)) as Hent
    by (by apply (entry_of_set_eq key v d now (SetDefaultExpire d g))).
  unfold expire_at in Hent.
  split; [done|]. split.
  - intros Hd. rewrite (proj2 (Z.ltb_ge 0 d)) in Hent by done.
    apply (get_Get _ _ _ _ d). rewrite (get_valid key t g1 _ Hent); [done|].
    apply isValid_spec. simpl. lia.
  - intros Hd Hpos Hsum. rewrite (proj2 (Z.ltb_lt 0 d)) in Hent by done.
    rewrite wrap_int64_id in Hent by done. split; intros Ht.
    + apply (get_Get _ _ _ _ (now + d)).
      rewrite (get_valid key t g1 _ Hent); [done|].
      apply isValid_spec. simpl. lia.
    + apply (get_Get _ _ _ _ (now + d)).
      rewrite (get_expired key t g1 _ Hent); [done| |done].
      apply isValid_false. simpl. lia.
Qed.

End CoreExtras.

Section CoreExtrasGob.
Context {V : Type} {zeroV : GoZero V} {hasher : Hasher} {gob : Gob V}.
Implicit Types (g : gache V) (k key : string) (v : V) (e : value V).

(** X2. With a cancelled context nothing is visited and nothing is evicted,
    whatever the cache holds: [Range] calls its callback on no entry,
    [ToRawMap] returns the empty map, [Write] encodes the empty map and
    [DeleteExpired] returns 0. *)
Theorem X2_cancelled_context {A} (f : string → V → Z → A → A * bool) (acc : A)
    g (now : Z) :
  Range true f now acc g = Done acc g ∧
  ToRawMap true now g = Done ∅ g ∧
  Write true now g = Done (gob_encode ∅) g ∧
  DeleteExpired true now g = Done 0 g.
Proof.
  split; [apply range_from_cancelled|]. split; [apply range_from_cancelled|].
  split; [|apply deleteExpired_from_cancelled].
  unfold Write, mbind, M_bind, Range. by rewrite range_from_cancelled.
Qed.

(** X9. [Read] of a stream that decodes to [m] adds the number of pairs of
    [m] to the counter, whether or not the cache holds their keys; it
    replaces the entries of the keys of [m] and leaves the other keys and the
    default TTL as they are. *)
Theorem X9_Read_counts_pairs g (r : wire) (m : gmap string V) (now : Z) :
  gache_ok g → gob_decode r = inr m →
  let g' := (Read r now g).2 in
  l g' = wrap_uint64 (l g + Z.of_nat (size m)) ∧
  (∀ k v, m !! k = Some v →
     entry_of g' k = Some (Value (expire_at (expire g) now) v)) ∧
  (∀ k, m !! k = None → entry_of g' k = entry_of g k) ∧
  expire g' = expire g.
Proof.
  intros (Hok & Hr & Hl) Hdec g'.
  destruct (Read_decoded r now g m Hok Hdec) as (_ & _ & Hexp & Hent).
  split; [|split; [|split; [|done]]].
  - unfold g', Read. rewrite Hdec. cbn [snd].
    rewrite Read_loop_stores, l_stores by done.
    by rewrite length_fmap, length_map_to_list.
  - intros k v Hk. unfold g'. by rewrite Hent, Hk.
  - intros k Hk. unfold g'. by rewrite Hent, Hk.
Qed.

End CoreExtrasGob.

Section Decide.
Context {V : Type} {zeroV : GoZero V} {hasher : Hasher}.

Lemma all_valid_expired_keys (now : Z) (g : gache V) :
  shards_ok g → routed g → expired_keys now g = [] → all_valid now g.
Proof.
  intros Hok Hr Hnil k e He.
  destruct (isValid e now) eqn:Hv; [done|].
  assert (k ∈ expired_keys now g) as Hk
    by (apply elem_of_expired_keys; [done|done|by exists e]).
  rewrite Hnil in Hk. by apply not_elem_of_nil in Hk.
Qed.

Lemma gache_ok_EnableExpiredHook (g : gache V) :
  gache_ok g → gache_ok (EnableExpiredHook g).
Proof. done. Qed.

End Decide.

(** ** A TTL beyond the range of the clock *)

Section Overflow.
Context {V : Type} {zeroV : GoZero V} {hasher : Hasher}.
Implicit Types (g : gache V) (key : string) (v : V).

(** X23. A positive TTL whose sum with the clock passes the range of
    [int64] wraps to a negative expiration, which [isValid] takes for "no
    expiration": the entry is found at every later time. *)
Theorem X23_ttl_overflow g key v (ttl now t : Z) :
  shards_ok g → int64_range now → int64_range ttl →
  0 < ttl → 2 ^ 63 ≤ now + ttl →
  let g1 := SetWithExpire key v ttl now g in
  entry_of g1 key = Some (Value (now + ttl - 2 ^ 64) v) ∧
  now + ttl - 2 ^ 64 < 0 ∧
  Get key t g1 = Done (v, true) g1.
Proof.
  intros Hok Hnow Httl Hpos Hsum g1.
  assert (wrap_int64 (now + ttl) = now + ttl - 2 ^ 64) as Hw.
  { unfold int64_range in *. unfold wrap_int64.
    replace (now + ttl + 2 ^ 63) with ((now + ttl - 2 ^ 63) + 1 * 2 ^ 64) by lia.
    rewrite Z.mod_add by lia. rewrite Z.mod_small; lia. }
  assert (entry_of g1 key = Some (Value (now + ttl - 2 ^ 64) v)) as Hent.
  { unfold g1, SetWithExpire. rewrite entry_of_set_eq by done.
    unfold expire_at. rewrite (proj2 (Z.ltb_lt 0 ttl)) by done. by rewrite Hw. }
  assert (now + ttl - 2 ^ 64 < 0) as Hneg by (unfold int64_range in *; lia).
  split; [done|]. split; [done|].
  apply (get_Get _ _ _ _ (now + ttl - 2 ^ 64)).
  rewrite (get_valid key t g1 _ Hent); [done|].
  apply isValid_spec. simpl. lia.
Qed.

End Overflow.

(** ** What the readers return and remove *)

Lemma wrap_uint64_decr a d :
  wrap_uint64 (wrap_uint64 (a - Z.of_nat d) + uint64_max) =
  wrap_uint64 (a - Z.of_nat (d + 1)).
Proof.
  unfold wrap_uint64. rewrite uint64_max_eq, Zplus_mod_idemp_l.
  replace (a - Z.of_nat d + (2 ^ 64 - 1))
    with (a - Z.of_nat (d + 1) + 1 * 2 ^ 64) by lia.
  apply Z_mod_plus_full.
Qed.

Lemma removals_le_deletes (tr : list event) : (removals tr ≤ deletes tr)%nat.
Proof.
  unfold removals, deletes. induction tr as [|[k [|]|k|k] tr IH]; simpl; lia.
Qed.

Section AnswerRuns.
Context {V : Type} {zeroV : GoZero V} {hasher : Hasher}.
Implicit Types (m : machine V) (p : pc V) (e : value V) (g : gache V).

Lemma mem_inv_init g key now n :
  gache_ok g → mem_inv g key now (init g n).
Proof.
  intros (Hok & _ & Hl). split; simpl; try done.
  - rewrite Z.sub_0_r. by rewrite wrap_uint64_id.
  - by apply Forall_replicate.
Qed.

Ltac mi_split :=
  split; cbn [mem trace threads group set_pc add_event set_mem set_group
              set_expChan expFuncEnabled];
  unfold deletes, removals in *; rewrite ?count_app;
  cbn [count is_delete is_removal]; rewrite ?Nat.add_0_r; try (done || congruence).

Lemma mem_inv_step g key now a m m' :
  mem_inv g key now m → step key now a m = Some m' → mem_inv g key now m'.
Proof.
  intros [Hok Hl Hoth Hkey Hexp Hen Hth].
  destruct a as [i|]; cbn [step].
  - unfold reader_step. destruct (threads m !! i) as [p|] eqn:Hp; [|done].
    pose proof (Forall_lookup_1 _ _ _ _ Hth Hp) as Hpc.
    assert (∀ q, pc_ok g key now q → Forall (pc_ok g key now) (<[i := q]> (threads m)))
      as Hins by (intros q Hq; by apply Forall_insert).
    destruct p as [|[e'|]|e'|e'|e'|e'|j e'|r].
    + (* PcLoad *)
      intros [= <-]. mi_split. apply Hins.
      fold (entry_of (mem m) key).
      pose proof (removals_le_deletes (trace m)) as Hle.
      unfold deletes, removals in Hle.
      destruct (count is_removal (trace m)) as [|[|c]] eqn:Hrem; [| |done].
      * rewrite Hkey. destruct (entry_of g key) as [e|] eqn:He; simpl; [done|by left].
      * rewrite Hkey. simpl. right. apply Hexp. lia.
    + (* PcCheck (Some e') *)
      simpl in Hpc. destruct (isValid e' now) eqn:Hv; intros [= <-].
      * mi_split. apply Hins. simpl. unfold answer_ok. by rewrite Hpc, Hv.
      * mi_split. by apply Hins.
    + (* PcCheck None *)
      intros [= <-]. mi_split. apply Hins. simpl.
      unfold answer_ok. destruct Hpc as [->|(e & -> & ->)]; [done|by right].
    + (* PcDo *)
      destruct (group m !! key) as [j|] eqn:Hg; intros [= <-];
        mi_split; by apply Hins.
    + (* PcDelete *)
      intros Heq. apply (inj Some) in Heq. subst m'. simpl in Hpc.
      mi_split.
      * by apply shards_ok_Delete.
      * rewrite Delete_l_eq, Hl. apply wrap_uint64_decr.
      * intros k Hk. rewrite entry_of_Delete_ne by done. by apply Hoth.
      * rewrite Delete_loaded, entry_of_Delete_eq by done.
        destruct (count is_removal (trace m)) as [|[|c]] eqn:Hrem; [| |done].
        -- destruct (entry_of (mem m) key) as [e|] eqn:He; simpl; [done|].
           by rewrite <- Hkey.
        -- rewrite Hkey. done.
      * intros _. by exists e'.
      * by apply Hins.
    + (* PcSend *)
      destruct (expFuncEnabled (mem m)) eqn:Hen'.
      * case_decide; [|done]. intros [= <-]. mi_split. by apply Hins.
      * intros [= <-]. mi_split. by apply Hins.
    + (* PcExit *)
      intros [= <-]. mi_split. apply Hins. simpl.
      unfold answer_ok. destruct Hpc as [-> ->]. by left.
    + (* PcWait *)
      destruct (threads m !! j) as [[| | | | | | |r]|] eqn:Hj; try done.
      intros [= <-]. mi_split. apply Hins. simpl.
      unfold answer_ok. destruct Hpc as [-> ->]. by left.
    + done.
  - unfold daemon_step. destruct (expChan (mem m)) as [|k rest] eqn:Hch; [done|].
    intros [= <-]. mi_split.
Qed.

Lemma mem_inv_exec g key now sched m :
  mem_inv g key now m → mem_inv g key now (exec key now sched m).
Proof.
  revert m. induction sched as [|a sched IH]; intros m Hinv; simpl; [done|].
  apply IH. destruct (step key now a m) as [m'|] eqn:Hs; simpl; [|done].
  by apply (mem_inv_step g key now a m).
Qed.

End AnswerRuns.

Section ReaderExtras.
Context {V : Type} {zeroV : GoZero V} {hasher : Hasher}.
Implicit Types (m : machine V) (p : pc V) (e : value V) (g : gache V).

(** X12. Readers of one key in parallel, with the daemon of [StartExpired],
    under any schedule and on any cache. The counter has gone down by one
    for each run of [Delete], and at most one of these runs has removed an
    entry: the entry of the key is the one of the start until then, and none
    after. [Delete] runs only for an entry that is expired, and the entries
    of the other keys stay. *)
Theorem X12_readers_counter g key (now : Z) (n : nat) (sched : list actor) :
  gache_ok g →
  let m := exec key now sched (init g n) in
  l (mem m) = wrap_uint64 (l g - Z.of_nat (deletes (trace m))) ∧
  (removals (trace m) ≤ 1)%nat ∧
  entry_of (mem m) key =
    (if decide (removals (trace m) = 0%nat) then entry_of g key else None) ∧
  (deletes (trace m) ≠ 0%nat →
     ∃ e, entry_of g key = Some e ∧ isValid e now = false) ∧
  (∀ k, k ≠ key → entry_of (mem m) k = entry_of g k).
Proof.
  intros Hg m.
  destruct (mem_inv_exec g key now sched (init g n) (mem_inv_init g key now n Hg))
    as [_ Hl Hoth Hkey Hexp _ _].
  fold m in Hl, Hoth, Hkey, Hexp.
  split; [done|].
  destruct (removals (trace m)) as [|[|c]]; [| |done].
  - split; [lia|]. by rewrite decide_True.
  - split; [lia|]. by rewrite decide_False.
Qed.

(** X13. Under any schedule, a reader that returns a value returns the
    value and the expiration of an entry that is valid; no reader returns
    the value of an expired entry. For an expired entry a reader returns the
    zero value and false, with the expiration of the entry, or with 0 when
    it loaded after the [Delete]; for a key without entry it returns the
    zero value, 0 and false. *)
Theorem X13_readers_answers g key (now : Z) (n : nat) (sched : list actor)
    (i : nat) (r : V * Z * bool) :
  gache_ok g →
  threads (exec key now sched (init g n)) !! i = Some (PcDone r) →
  answer_ok g key now r ∧
  (r.2 = true →
     ∃ e, entry_of g key = Some e ∧ isValid e now = true ∧
          r = (val e, vexpire e, true)) ∧
  (r.2 = false → r.1.1 = go_zero).
Proof.
  intros Hg Hi.
  destruct (mem_inv_exec g key now sched (init g n) (mem_inv_init g key now n Hg))
    as [_ _ _ _ _ _ Hth].
  pose proof (Forall_lookup_1 _ _ _ _ Hth Hi) as Hr. simpl in Hr.
  split; [done|]. unfold answer_ok in Hr.
  destruct (entry_of g key) as [e|].
  - destruct (isValid e now) eqn:Hv.
    + subst r. split; [|done]. intros _. by exists e.
    + destruct Hr as [-> | ->]; by split.
  - subst r. by split.
Qed.

End ReaderExtras.

(** ** The HTTP cache *)

(** *** Strings *)

Lemma split_go_cons sep skip s cur :
  ∃ a rest, Strings.split_go sep skip s cur = a :: rest.
Proof.
  revert skip cur.
  induction s as [|c s IH]; intros skip cur; cbn [Strings.split_go]; [by eexists _, _|].
  destruct skip as [|k]; [|apply IH].
  destruct (Strings.HasPrefix (String c s) sep); [by eexists _, _|apply IH].
Qed.

Lemma append_cons a s t : String a s +:+ t = String a (s +:+ t).
Proof. reflexivity. Qed.

Lemma append_assoc_char cur c s :
  (cur +:+ String c EmptyString) +:+ s = cur +:+ String c s.
Proof. induction cur as [|a cur IH]; [done|]. by rewrite !append_cons, IH. Qed.

Lemma append_empty_r s : s +:+ EmptyString = s.
Proof. induction s as [|a s IH]; [done|]. by rewrite append_cons, IH. Qed.

Lemma split_go_no_sep sep s cur :
  Strings.Contains s sep = false → Strings.split_go sep 0 s cur = [cur +:+ s].
Proof.
  revert cur.
  induction s as [|c s IH]; intros cur; cbn [Strings.split_go Strings.Contains].
  - intros _. by rewrite append_empty_r.
  - intros [Hp Hc]%orb_false_iff. rewrite Hp.
    rewrite IH by done. by rewrite append_assoc_char.
Qed.

Lemma Split_no_sep s sep :
  Strings.Contains s sep = false → Strings.Split s sep = [s].
Proof. intros H. unfold Strings.Split. by rewrite split_go_no_sep. Qed.

Lemma split_go_sep sep s cur :
  sep ≠ EmptyString → Strings.Contains s sep = true →
  ∃ a b rest, Strings.split_go sep 0 s cur = a :: b :: rest.
Proof.
  intros Hsep. revert cur.
  induction s as [|c s IH]; intros cur; cbn [Strings.split_go Strings.Contains].
  - destruct sep; [done|]. done.
  - destruct (Strings.HasPrefix (String c s) sep) eqn:Hp.
    + intros _.
      destruct (split_go_cons sep (String.length sep - 1) s EmptyString)
        as (b & rest & ->).
      by eexists _, _, _.
    + cbn [orb]. apply IH.
Qed.

(** The second piece of [Split] exists when the separator occurs, and only
    then. *)
Lemma Split_second s sep :
  sep ≠ EmptyString →
  (Strings.Split s sep !! 1%nat = None ↔ Strings.Contains s sep = false).
Proof.
  intros Hsep. split.
  - intros Hnone. destruct (Strings.Contains s sep) eqn:Hc; [|done].
    destruct (split_go_sep sep s EmptyString Hsep Hc) as (a & b & rest & Heq).
    unfold Strings.Split in Hnone. by rewrite Heq in Hnone.
  - intros Hc. by rewrite Split_no_sep.
Qed.

Lemma Split_first s sep : ∃ a, Strings.Split s sep !! 0%nat = Some a.
Proof.
  destruct (split_go_cons sep 0 s EmptyString) as (a & rest & Heq).
  exists a. unfold Strings.Split. by rewrite Heq.
Qed.

Lemma TrimLeft_id s c :
  occurs c s = false → Strings.TrimLeft s (String c EmptyString) = s.
Proof.
  destruct s as [|a s]; simpl; [done|].
  intros [Ha _]%orb_false_iff. rewrite orb_false_r.
  rewrite Ascii.eqb_sym in Ha. by rewrite Ha.
Qed.

Lemma TrimRight_id s c :
  occurs c s = false → Strings.TrimRight s (String c EmptyString) = s.
Proof.
  induction s as [|a s IH]; simpl; [done|].
  intros [Ha Hs]%orb_false_iff. rewrite IH by done. rewrite orb_false_r.
  rewrite Ascii.eqb_sym in Ha. rewrite Ha. by destruct s.
Qed.

Lemma Trim_id s c :
  occurs c s = false → Strings.Trim s (String c EmptyString) = s.
Proof.
  intros H. unfold Strings.Trim. rewrite TrimLeft_id by done. by apply TrimRight_id.
Qed.

Lemma Contains_occurs s a sub :
  occurs a s = false → Strings.Contains s (String a sub) = false.
Proof.
  induction s as [|c s IH]; [done|].
  cbn [occurs Strings.Contains Strings.HasPrefix].
  intros [Ha Hs]%orb_false_iff. rewrite Ha. cbn [andb orb]. by apply IH.
Qed.

(** *** Numbers *)

Section Numbers.
Import Stdlib.Strings.Ascii.

Lemma digit_occurs a s acc n :
  Strconv.digit a = None → Strconv.digits s acc = Some n → occurs a s = false.
Proof.
  intros Ha. revert acc. induction s as [|c s IH]; intros acc; simpl; [done|].
  destruct (Strconv.digit c) as [d|] eqn:Hd; [|done]. intros Hs.
  rewrite (IH _ Hs), orb_false_r.
  destruct (Ascii.eqb_spec a c) as [->|]; [congruence|done].
Qed.

Lemma digit_bounds c d : Strconv.digit c = Some d → 0 ≤ d ≤ 9.
Proof.
  unfold Strconv.digit.
  destruct (48 <=? Z.of_nat (Ascii.nat_of_ascii c)) eqn:H1; [|done].
  destruct (Z.of_nat (Ascii.nat_of_ascii c) <=? 57) eqn:H2; [|done].
  simpl. intros [= <-]. lia.
Qed.

Lemma digits_nonneg s acc n :
  0 ≤ acc → Strconv.digits s acc = Some n → 0 ≤ n.
Proof.
  revert acc. induction s as [|c s IH]; intros acc Hacc; simpl.
  - intros [= <-]. done.
  - destruct (Strconv.digit c) as [d|] eqn:Hd; [|done].
    apply IH. apply digit_bounds in Hd. lia.
Qed.

Lemma Atoi_digits s n :
  s ≠ EmptyString → Strconv.digits s 0 = Some n → n < 2 ^ 63 →
  Strconv.Atoi s = Some n.
Proof.
  intros Hs Hd Hn. destruct s as [|c s]; [done|].
  assert (occurs "-"%char (String c s) = false) as Hm by (by apply (digit_occurs _ _ 0 n)).
  assert (occurs "+"%char (String c s) = false) as Hp by (by apply (digit_occurs _ _ 0 n)).
  cbn [occurs] in Hm, Hp.
  apply orb_false_iff in Hm as [Hm _]. apply orb_false_iff in Hp as [Hp _].
  rewrite Ascii.eqb_sym in Hm. rewrite Ascii.eqb_sym in Hp.
  unfold Strconv.Atoi. rewrite Hm, Hp. cbn [orb].
  rewrite Hd. pose proof (digits_nonneg _ _ _ (Z.le_refl 0) Hd).
  rewrite (proj2 (Z.leb_le _ _)) by lia. by rewrite (proj2 (Z.ltb_lt _ _)).
Qed.

End Numbers.

(** *** The cache *)

Section LegacyCache.
Context {http : Http} {T : Type}.
Implicit Types (g : Legacy.Gache T) (d : gmap string (Legacy.value T))
  (v : Legacy.value T) (x : Legacy.any T) (key k : string).

Lemma legacy_isValid_spec v now :
  Legacy.isValid v now = true ↔ now < Legacy.expire v.
Proof. unfold Legacy.isValid. apply Z.ltb_lt. Qed.

Lemma legacy_get_absent g d key now :
  Legacy.data g = Some d → d !! key = None →
  Legacy.get key now g = Legacy.Ok (Legacy.Nil, false, g).
Proof. intros Hd Hk. unfold Legacy.get. by rewrite Hd, Hk. Qed.

Lemma legacy_get_valid g d key v now :
  Legacy.data g = Some d → d !! key = Some v → Legacy.isValid v now = true →
  Legacy.get key now g = Legacy.Ok (Legacy.val v, true, g).
Proof. intros Hd Hk Hv. unfold Legacy.get. by rewrite Hd, Hk, Hv. Qed.

Lemma legacy_get_expired g d key v now :
  Legacy.data g = Some d → d !! key = Some v → Legacy.isValid v now = false →
  Legacy.get key now g =
  Legacy.Ok (Legacy.Nil, false, Legacy.set_data (delete key d) g).
Proof. intros Hd Hk Hv. unfold Legacy.get. by rewrite Hd, Hk, Hv. Qed.

(** [get] does not find a key: the entry is missing or expired, and gone
    afterwards. *)
Lemma legacy_get_not_found g d key now :
  Legacy.data g = Some d → legacy_live now d key = None →
  ∃ d', Legacy.get key now g = Legacy.Ok (Legacy.Nil, false, Legacy.set_data d' g) ∧
        d' !! key = None ∧ (∀ k, k ≠ key → d' !! k = d !! k).
Proof.
  intros Hd Hl. unfold legacy_live in Hl.
  destruct (d !! key) as [v|] eqn:Hk.
  - destruct (Legacy.isValid v now) eqn:Hv; [done|].
    exists (delete key d). rewrite (legacy_get_expired g d key v) by done.
    split; [done|]. split; [apply lookup_delete_eq|].
    intros k Hne. by apply lookup_delete_ne.
  - exists d. rewrite (legacy_get_absent g d key) by done.
    split; [|done]. do 2 f_equal. destruct g. simpl in *. by subst.
Qed.

(** **** The sweep of [DeleteExpired] *)

Lemma legacy_sweep_lookup now kvs d r k :
  (foldl (Legacy.sweep now) (d, r) kvs).1 !! k =
  if decide (k ∈ (filter (λ kv, Legacy.isValid kv.2 now = false) kvs).*1)
  then None else d !! k.
Proof.
  revert d r. induction kvs as [|[k' v'] kvs IH]; intros d r.
  - case_decide as Hin; [|done]. by apply elem_of_nil in Hin.
  - cbn [foldl]. unfold Legacy.sweep at 2. cbn [fst snd].
    destruct (Legacy.isValid v' now) eqn:Hv.
    + rewrite filter_cons_False by (simpl; congruence). apply IH.
    + rewrite filter_cons_True by done. rewrite IH. rewrite fmap_cons. cbn [fst].
      destruct (decide (k = k')) as [->|Hne].
      * rewrite lookup_delete_eq.
        destruct (decide (k' ∈ k' :: _)) as [_|Hnin]; [by case_decide|].
        destruct Hnin. apply list_elem_of_here.
      * rewrite lookup_delete_ne by done.
        destruct (decide (k ∈ (filter _ kvs).*1)) as [Hin|Hnin].
        -- rewrite decide_True; [done|]. by apply list_elem_of_further.
        -- rewrite decide_False; [done|].
           intros [?|?]%elem_of_cons; done.
Qed.

Lemma legacy_sweep_rows now kvs d r :
  0 ≤ r → r + Z.of_nat (length kvs) < 2 ^ 63 →
  (foldl (Legacy.sweep now) (d, r) kvs).2 =
  r + Z.of_nat (length (filter (λ kv, Legacy.isValid kv.2 now = false) kvs)).
Proof.
  revert d r. induction kvs as [|[k' v'] kvs IH]; intros d r Hr Hlen; simpl.
  - lia.
  - simpl in Hlen. unfold Legacy.sweep at 2. simpl.
    destruct (Legacy.isValid v' now) eqn:Hv.
    + rewrite filter_cons_False by (simpl; congruence). apply IH; lia.
    + rewrite filter_cons_True by done.
      rewrite wrap_int64_id by (unfold int64_range; lia).
      rewrite IH by lia. simpl. lia.
Qed.

Lemma legacy_sweep_valid now kvs d r :
  Forall (λ kv, Legacy.isValid kv.2 now = true) kvs →
  foldl (Legacy.sweep now) (d, r) kvs = (d, r).
Proof.
  induction 1 as [|[k v] kvs Hv _ IH]; simpl; [done|].
  unfold Legacy.sweep at 2. simpl in *. by rewrite Hv.
Qed.

Lemma legacy_swept now d k :
  (foldl (Legacy.sweep now) (d, 0) (map_to_list d)).1 !! k = legacy_live now d k.
Proof.
  rewrite legacy_sweep_lookup. unfold legacy_live.
  destruct (d !! k) as [v|] eqn:Hk.
  - destruct (Legacy.isValid v now) eqn:Hv.
    + rewrite decide_False; [done|].
      intros ([k' v'] & -> & [Hv' Hin]%list_elem_of_filter)%list_elem_of_fmap.
      apply elem_of_map_to_list in Hin. simpl in *. congruence.
    + rewrite decide_True; [done|].
      apply list_elem_of_fmap. exists (k, v). split; [done|].
      apply list_elem_of_filter. split; [done|]. by apply elem_of_map_to_list.
  - by case_decide.
Qed.

(** X14. In the HTTP cache the results of [set] and [Delete] tell nothing:
    [set] returns true, on a key without entry and on a key that has one,
    and [Delete] returns false, also when it has removed the entry [set] has
    stored; after the [Delete] the key is not found. *)
Theorem X14_legacy_set_Delete_results g d key x (ttl now t : Z) :
  Legacy.data g = Some d →
  let g1 := Legacy.set_data (<[key := Legacy.Value (now + ttl) x]> d) g in
  let g2 := Legacy.set_data (delete key d) g in
  Legacy.set key x ttl now g = Legacy.Ok (true, g1) ∧
  Legacy.Delete key g1 = Legacy.Ok (false, g2) ∧
  Legacy.get key t g2 = Legacy.Ok (Legacy.Nil, false, g2).
Proof.
  intros Hd g1 g2. split; [|split].
  - unfold Legacy.set. by rewrite Hd.
  - unfold Legacy.Delete, g1, g2. cbn [Legacy.data Legacy.set_data].
    by rewrite delete_insert_eq.
  - apply (legacy_get_absent g2 (delete key d)); [done|apply lookup_delete_eq].
Qed.

(** X15. In the HTTP cache an entry stored at [now] with the TTL [ttl] is
    found strictly before [now + ttl], and not at [now + ttl] or after; the
    [get] that does not find it deletes it. No TTL stands for "never
    expires": with a TTL of 0 or less, such as -1, the entry is never
    found. *)
Theorem X15_legacy_expiry g d key x (ttl now t : Z) :
  Legacy.data g = Some d →
  let g1 := Legacy.set_data (<[key := Legacy.Value (now + ttl) x]> d) g in
  Legacy.set key x ttl now g = Legacy.Ok (true, g1) ∧
  (t < now + ttl → Legacy.get key t g1 = Legacy.Ok (x, true, g1)) ∧
  (now + ttl ≤ t →
     Legacy.get key t g1 =
     Legacy.Ok (Legacy.Nil, false, Legacy.set_data (delete key d) g)) ∧
  (ttl ≤ 0 → now ≤ t →
     Legacy.get key t g1 =
     Legacy.Ok (Legacy.Nil, false, Legacy.set_data (delete key d) g)).
Proof.
  intros Hd g1.
  assert (now + ttl ≤ t →
          Legacy.get key t g1 =
          Legacy.Ok (Legacy.Nil, false, Legacy.set_data (delete key d) g)) as Hexp.
  { intros Ht.
    rewrite (legacy_get_expired g1 (<[key := Legacy.Value (now + ttl) x]> d)
               key (Legacy.Value (now + ttl) x));
      [|done|apply lookup_insert_eq|].
    - unfold g1, Legacy.set_data. cbn [Legacy.dexpire]. by rewrite delete_insert_eq.
    - unfold Legacy.isValid. cbn [Legacy.expire]. apply Z.ltb_ge. lia. }
  split; [|split; [|split]].
  - unfold Legacy.set. by rewrite Hd.
  - intros Ht.
    rewrite (legacy_get_valid g1 (<[key := Legacy.Value (now + ttl) x]> d)
               key (Legacy.Value (now + ttl) x));
      [done|done|apply lookup_insert_eq|].
    apply legacy_isValid_spec. cbn [Legacy.expire]. lia.
  - done.
  - intros Httl Ht. apply Hexp. lia.
Qed.

(** X16. [Clear] leaves the cache with a nil map: after a [Clear], every
    method that reaches the map panics, a second [Clear] too. *)
Theorem X16_legacy_Clear_nil g d key x (ttl now : Z) (req : Request)
    (status : Z) (header : Header) (body : list Byte.byte) (resp : Response)
    (now2 now3 now4 : Z) :
  Legacy.data g = Some d →
  ∃ g', Legacy.Clear g = Legacy.Ok (tt, g') ∧
        Legacy.data g' = None ∧
        Legacy.get key now g' = Legacy.Panic ∧
        Legacy.set key x ttl now g' = Legacy.Panic ∧
        Legacy.Delete key g' = Legacy.Panic ∧
        Legacy.DeleteExpired now g' = Legacy.Panic ∧
        Legacy.Clear g' = Legacy.Panic ∧
        Legacy.getServerCache req now g' = Legacy.Panic ∧
        Legacy.setServerCache req status header body ttl now now2 g' = Legacy.Panic ∧
        Legacy.getClientCache req now g' = Legacy.Panic ∧
        Legacy.setClientCache req resp now now2 now3 now4 g' = Legacy.Panic.
Proof.
  intros Hd. eexists. split; [unfold Legacy.Clear; by rewrite Hd|].
  repeat split.
Qed.

(** X17. [DeleteExpired] of the HTTP cache returns the number of the
    expired entries and deletes them; the entries that are valid stay. A
    second [DeleteExpired] at the same time returns 0 and changes
    nothing. *)
Theorem X17_legacy_DeleteExpired g d (now : Z) :
  Legacy.data g = Some d → Z.of_nat (size d) < 2 ^ 63 →
  ∃ d', Legacy.DeleteExpired now g =
          Legacy.Ok (Z.of_nat (length (legacy_expired now d)), Legacy.set_data d' g) ∧
        (∀ k, d' !! k = legacy_live now d k) ∧
        Legacy.DeleteExpired now (Legacy.set_data d' g) =
          Legacy.Ok (0, Legacy.set_data d' g).
Proof.
  intros Hd Hsize.
  exists (foldl (Legacy.sweep now) (d, 0) (map_to_list d)).1.
  set (d' := (foldl (Legacy.sweep now) (d, 0) (map_to_list d)).1).
  assert (∀ k, d' !! k = legacy_live now d k) as Hlive
    by (intros k; apply legacy_swept).
  split; [|split; [done|]].
  - unfold Legacy.DeleteExpired. rewrite Hd. cbn zeta.
    rewrite legacy_sweep_rows; [done|done|].
    rewrite length_map_to_list. lia.
  - unfold Legacy.DeleteExpired. cbn [Legacy.data Legacy.set_data].
    rewrite legacy_sweep_valid; [done|].
    apply Forall_forall. intros [k v] Hin. apply elem_of_map_to_list in Hin.
    rewrite Hlive in Hin. unfold legacy_live in Hin. simpl.
    destruct (d !! k) as [v'|]; [|done].
    destruct (Legacy.isValid v' now) eqn:Hv; [|done]. congruence.
Qed.

(** X18. [setServerCache] stores only for a request whose key has no valid
    entry: on a valid entry it returns the error and changes nothing;
    otherwise it returns nil, and up to the expiration [getServerCache]
    returns the status, the header and the body it was given. An expired
    entry does not stand in the way. *)
Theorem X18_legacy_server_cache g d (req : Request) (status : Z)
    (header : Header) (body : list Byte.byte) (ttl now now' t : Z) :
  Legacy.data g = Some d →
  let key := Legacy.generateHTTPKey req in
  let c := Legacy.Build_ServerCache status header body in
  (∀ v, d !! key = Some v → Legacy.isValid v now = true →
     Legacy.setServerCache req status header body ttl now now' g =
     Legacy.Ok (Some "cache already exists", g)) ∧
  (legacy_live now d key = None →
     ∃ g2, Legacy.setServerCache req status header body ttl now now' g =
             Legacy.Ok (None, g2) ∧
           (t < now' + ttl →
              Legacy.getServerCache req t g2 = Legacy.Ok (Some c, true, g2)) ∧
           (now' + ttl ≤ t →
              ∃ g3, Legacy.getServerCache req t g2 = Legacy.Ok (None, false, g3))).
Proof.
  intros Hd key c. split.
  - intros v Hk Hv. unfold Legacy.setServerCache. fold key.
    by rewrite (legacy_get_valid g d key v).
  - intros Hl.
    destruct (legacy_get_not_found g d key now Hd Hl) as (d' & Hget & Hk & _).
    set (e := Legacy.Value (T:=T) (now' + ttl) (Legacy.Server c)).
    set (g2 := Legacy.set_data (<[key := e]> d') g).
    exists g2. split; [|split].
    + unfold Legacy.setServerCache. fold key. by rewrite Hget.
    + intros Ht. unfold Legacy.getServerCache. fold key.
      rewrite (legacy_get_valid g2 (<[key := e]> d') key e);
        [done|done|apply lookup_insert_eq|].
      apply legacy_isValid_spec. cbn [Legacy.expire e]. lia.
    + intros Ht. unfold Legacy.getServerCache. fold key.
      rewrite (legacy_get_expired g2 (<[key := e]> d') key e);
        [by eexists|done|apply lookup_insert_eq|].
      unfold Legacy.isValid. cbn [Legacy.expire e]. apply Z.ltb_ge. lia.
Qed.

(** X19. The caches of the server and of the client share the map and the
    keys. On a valid entry, [getServerCache] panics unless the value is a
    [ServerCache], and [getClientCache] panics unless it is a
    [ClientCache]: a response stored for a request by the one makes the
    other panic on that request. *)
Theorem X19_legacy_type_assertion g d (req : Request) v (now : Z) :
  Legacy.data g = Some d →
  d !! Legacy.generateHTTPKey req = Some v → Legacy.isValid v now = true →
  (Legacy.getServerCache req now g = Legacy.Panic ↔
     ∀ c, Legacy.val v ≠ Legacy.Server c) ∧
  (Legacy.getClientCache req now g = Legacy.Panic ↔
     ∀ c, Legacy.val v ≠ Legacy.Client c) ∧
  (∀ c, Legacy.val v = Legacy.Server c →
     Legacy.getServerCache req now g = Legacy.Ok (Some c, true, g)) ∧
  (∀ c, Legacy.val v = Legacy.Client c →
     Legacy.getClientCache req now g = Legacy.Ok (Some c, true, g)).
Proof.
  intros Hd Hk Hv.
  unfold Legacy.getServerCache, Legacy.getClientCache.
  rewrite (legacy_get_valid g d _ v) by done. cbn [negb].
  destruct (Legacy.val v) as [|c|c|y]; repeat split; try done;
    try (intros H; by destruct (H c)); try (by intros ? [= ->]).
Qed.

(** X22. [setClientCache], for a request whose key has no valid entry and a
    response of which [createHTTPCache] makes the cache [c]: it returns nil
    and stores [c] until the clock of [set] plus [time.Until(c.Expire)];
    [getClientCache] returns [c] before that instant. When the clock has
    advanced between [time.Until] and [set], this is later than
    [c.Expire]. *)
Theorem X22_legacy_client_cache g d (req : Request) (resp : Response)
    (c : Legacy.ClientCache) (now1 now2 now3 now4 t : Z) :
  Legacy.data g = Some d →
  legacy_live now1 d (Legacy.generateHTTPKey req) = None →
  Legacy.createHTTPCache resp now2 = Legacy.Ok (inr c) →
  let until := now4 + Legacy.Until (Legacy.Expire c) now3 in
  ∃ g2, Legacy.setClientCache req resp now1 now2 now3 now4 g = Legacy.Ok (None, g2) ∧
        (t < until → Legacy.getClientCache req t g2 = Legacy.Ok (Some c, true, g2)) ∧
        (- 2 ^ 63 ≤ Legacy.Expire c - now3 < 2 ^ 63 →
           until = Legacy.Expire c + (now4 - now3)).
Proof.
  intros Hd Hl Hc until.
  destruct (legacy_get_not_found g d _ now1 Hd Hl) as (d' & Hget & Hk & _).
  set (e := Legacy.Value (T:=T) until (Legacy.Client c)).
  set (g2 := Legacy.set_data (<[Legacy.generateHTTPKey req := e]> d') g).
  exists g2. split; [|split].
  - unfold Legacy.setClientCache. by rewrite Hget, Hc.
  - intros Ht. unfold Legacy.getClientCache.
    rewrite (legacy_get_valid g2 (<[Legacy.generateHTTPKey req := e]> d') _ e);
      [done|done|apply lookup_insert_eq|].
    apply legacy_isValid_spec. cbn [Legacy.expire e]. lia.
  - intros Hr. unfold until, Legacy.Until, Legacy.Sub.
    rewrite (proj2 (Z.ltb_ge _ _)) by lia.
    rewrite (proj2 (Z.ltb_ge _ _)) by lia. lia.
Qed.

End LegacyCache.

(** *** The header [Cache-Control] *)

Section CacheControl.
Context {http : Http}.
Import Stdlib.Strings.Ascii.

Lemma length_zero_empty (s : string) :
  (String.length s =? 0)%nat = true ↔ s = EmptyString.
Proof. destruct s; simpl; split; done. Qed.

(** X20. [createHTTPCache] panics on the headers, and only on those, that
    are not empty and hold, once the spaces around them are trimmed,
    "max-age" but neither "no-store" nor "max-age=": the second piece of the
    header split at "max-age=" is read, and there is none. *)
Theorem X20_createHTTPCache_panic (resp : Response) (now : Z) :
  let header := HeaderGet resp "Cache-Control" in
  let trimmed := Strings.Trim header " " in
  Legacy.createHTTPCache resp now = Legacy.Panic ↔
  header ≠ EmptyString ∧
  Strings.Contains trimmed "no-store" = false ∧
  Strings.Contains trimmed "max-age" = true ∧
  Strings.Contains trimmed "max-age=" = false.
Proof.
  intros header trimmed. unfold Legacy.createHTTPCache.
  fold header. fold trimmed.
  destruct (String.length header =? 0)%nat eqn:Hlen.
  { apply length_zero_empty in Hlen. split; [done|]. by intros [? _]. }
  assert (header ≠ EmptyString) as Hne.
  { intros He. apply length_zero_empty in He. congruence. }
  destruct (Strings.Contains trimmed "no-store") eqn:Hns; cbn [orb].
  { split; [done|]. by intros (_ & ? & _). }
  destruct (Strings.Contains trimmed "max-age") eqn:Hma; cbn [negb].
  2:{ split; [done|]. by intros (_ & _ & ? & _). }
  destruct (Strings.Split trimmed "max-age=" !! 1%nat) as [rest|] eqn:Hsp.
  - assert (Strings.Contains trimmed "max-age=" ≠ false) as Hc.
    { intros Hc. apply Split_second in Hc; [congruence|done]. }
    destruct (Split_first rest ",") as (num & ->).
    destruct (Strconv.Atoi num); (split; [done|]); by intros (_ & _ & _ & ?).
  - apply Split_second in Hsp; [|done]. done.
Qed.

(** X21. For a header [max-age=] followed by decimal digits of the value
    [n], [createHTTPCache] returns a cache that expires [n] seconds after
    the clock, the product with [time.Second] taken in [int64]; it carries
    the headers [Last-Modified] and [ETag] and the response. *)
Theorem X21_createHTTPCache_max_age (resp : Response) (ds : string) (n now : Z) :
  HeaderGet resp "Cache-Control" = "max-age=" +:+ ds →
  ds ≠ EmptyString → Strconv.digits ds 0 = Some n → n < 2 ^ 63 →
  Legacy.createHTTPCache resp now =
  Legacy.Ok (inr {| Legacy.Etag := HeaderGet resp "ETag";
                    Legacy.Expire := now + wrap_int64 (n * Second);
                    Legacy.LastModified := HeaderGet resp "Last-Modified";
                    Legacy.Res := resp |}).
Proof.
  intros Hh Hds Hd Hn.
  assert (∀ a, Strconv.digit a = None → occurs a ds = false) as Hocc
    by (intros a Ha; by apply (digit_occurs a ds 0 n)).
  unfold Legacy.createHTTPCache. rewrite Hh.
  rewrite !append_cons. change (EmptyString +:+ ds) with ds.
  cbn [String.length Nat.eqb].
  rewrite Trim_id.
  2:{ cbn [occurs]. by rewrite (Hocc " "%char). }
  rewrite Contains_occurs.
  2:{ cbn [occurs]. by rewrite (Hocc "n"%char). }
  cbn [Strings.Contains Strings.HasPrefix Ascii.eqb Bool.eqb andb orb negb].
  unfold Strings.Split.
  cbn [Strings.split_go Strings.HasPrefix Ascii.eqb Bool.eqb andb String.length Nat.sub].
  rewrite split_go_no_sep by (apply Contains_occurs; by apply (Hocc "m"%char)).
  change (EmptyString +:+ ds) with ds. cbn [lookup list_lookup].
  rewrite split_go_no_sep by (apply Contains_occurs; by apply (Hocc ","%char)).
  change (EmptyString +:+ ds) with ds. cbn [lookup list_lookup].
  by rewrite (Atoi_digits ds n).
Qed.

End CacheControl.

(** * Runs on concrete caches *)

(** Scenario 7 of the specification: [Set("a", 1, 50ms)]; [Get("a")] is
    [(1, true)]; 60ms later [Get("a")] is [(_, false)] and [Len()] is 0. *)
Example scenario_set_get_expire :
  let g1 := SetWithExpire "a" 1 (ms 50) 1000 (New []) in
  let g2 := evicted "a" g1 in
  Get "a" 1000 g1 = Done (1, true) g1 ∧
  Get "a" (1000 + ms 60) g1 = Done (0, false) g2 ∧
  Len g2 = 0.
Proof. split; [|split]; vm_compute; reflexivity. Qed.

(** Scenario 8: [Set("x", "v", NoTTL)]; [Write(buf)]; [Read(buf)] in a new
    cache; [Get("x")] is [("v", true)]. *)
Example scenario_write_read :
  let g1 := SetWithExpire "x" "v" NoTTL 1000 (New []) in
  let w := Some ({[ "x" := "v" ]} : gmap string string) in
  let g2 := (Read w 3000 (New [])).2 in
  Write false 2000 g1 = Done (inr w) g1 ∧
  Get "x" 4000 g2 = Done ("v", true) g2.
Proof. split; vm_compute; reflexivity. Qed.

Lemma C1_expiration_witness :
  let g1 := SetWithExpire "a" 1 (ms 50) 1000 (New []) in
  let g2 := evicted "a" g1 in
  (∀ t, 1000 ≤ t ≤ 1000 + ms 50 → Get "a" t g1 = Done (1, true) g1) ∧
  Get "a" (1000 + ms 60) g1 = Done (go_zero, false) g2 ∧
  entry_of g2 "a" = None ∧
  (∀ t, Get "a" t g2 = Done (go_zero, false) g2) ∧
  Len g2 = Len (New (V:=Z) []) ∧
  (entry_of (New (V:=Z) []) "a" = None → shards g2 = shards (New (V:=Z) [])).
Proof.
  apply (C1_expiration (New []) "a" 1 (ms 50) 1000 (1000 + ms 60)).
  - apply gache_ok_New.
  - left. reflexivity.
  - reflexivity.
  - discriminate.
  - reflexivity.
  - split; [discriminate|reflexivity].
Defined.

Lemma C2_validity_witness :
  Get "a" (2 ^ 63 - 1) (SetWithExpire "a" 1 NoTTL 1000 (New [])) =
  Done (1, true) (SetWithExpire "a" 1 NoTTL 1000 (New [])).
Proof.
  apply (C2_validity (New []) "a" 1 1000 (2 ^ 63 - 1)). apply gache_ok_New.
Defined.

(** C3 as stated fails: with [NoTTL] the stored expiration is [-1], not 0. *)
Lemma C3_counterexample :
  vexpire <$> entry_of (SetWithExpire "a" 1 NoTTL 1000 (New [])) "a" ≠ Some 0.
Proof. vm_compute. discriminate. Qed.

Lemma C3_set_stores_witness :
  entry_of (SetWithExpire "a" 1 NoTTL 1000 (New [])) "a" = Some (Value (-1) 1) ∧
  l (SetWithExpire "a" 1 NoTTL 1000 (New [])) = 1.
Proof.
  destruct (C3_set_stores (New []) "a" 1 NoTTL 1000 gache_ok_New)
    as (H1 & _ & _ & H2 & _).
  split; [exact H1|exact H2].
Defined.

Lemma C5_round_trip_witness :
  let m : gmap string string := {[ "x" := "v"; "yy" := "w" ]} in
  let g1 := set_all_NoTTL [("x", "v", 9); ("yy", "w", 7)] (New []) in
  let g2 := (Read (Some m) 3000 (New [])).2 in
  Write false 2000 g1 = Done (inr (Some m)) g1 ∧
  (Read (Some m) 3000 (New [])).1 = None ∧
  ∀ k v, m !! k = Some v → Get k 4000 g2 = Done (v, true) g2.
Proof.
  refine (C5_round_trip (gob:=example_gob) {[ "x" := "v"; "yy" := "w" ]}
            [("x", "v", 9); ("yy", "w", 7)] 2000 3000 4000
            (Some {[ "x" := "v"; "yy" := "w" ]}) _ _ _ _).
  - vm_compute. apply perm_swap.
  - reflexivity.
  - split; [discriminate|reflexivity].
  - discriminate.
Defined.

Lemma C6_Read_default_TTL_witness :
  let g1 := SetWithExpire "x" "v" (ms 3600000) 1000 (New []) in
  let w := Some ({[ "x" := "v" ]} : gmap string string) in
  entry_of g1 "x" = Some (Value (1000 + ms 3600000) "v") ∧
  entry_of (Read w 5000 (New [])).2 "x" = Some (Value (5000 + Second * 30) "v").
Proof.
  intros g1 w. split; [vm_compute; reflexivity|].
  destruct (C6_Read_default_TTL (gob:=example_gob) g1 (New []) 2000 5000 w g1)
    as (_ & _ & H).
  - apply gache_ok_set, gache_ok_New.
  - apply gache_ok_New.
  - vm_compute. reflexivity.
  - apply (H eq_refl) with (e := Value (1000 + ms 3600000) "v").
    + split; [discriminate|reflexivity].
    + vm_compute. reflexivity.
    + vm_compute. reflexivity.
Defined.

Lemma C8_routing_witness :
  Z.land (HashString "a") mask = 1 ∧
  (shard_of "a" < length (shards (New (V:=Z) [])))%nat.
Proof.
  destruct (C8_routing (New []) "a" 1 NoTTL 1000) as (_ & _ & _ & _ & H & _).
  - reflexivity.
  - split; [reflexivity|exact H].
Defined.

Lemma C10_Read_decode_error_witness :
  Read None 1000 (SetWithExpire "a" 1 NoTTL 1000 (New [])) =
  (Some "unexpected EOF", SetWithExpire "a" 1 NoTTL 1000 (New [])).
Proof.
  apply (C10_Read_decode_error (gob:=example_gob) _ None 1000 "unexpected EOF").
  reflexivity.
Defined.

(** C7 as stated fails. Two readers call [Get("a")] after the entry of "a"
    has expired, with the hook enabled. Both load the entry; the first runs
    its eviction to the end; the second then enters [expGroup.Do], finds no
    call in flight and runs the function again: [Delete] runs twice and the
    hook is started twice for the one expiration. *)
Lemma C7_counterexample :
  let g := SetWithExpire "a" 1 (ms 50) 1000 (EnableExpiredHook (New [])) in
  let sched := [Reader 0; Reader 1; Reader 0; Reader 0; Reader 0; Reader 0; Reader 0;
                Reader 1; Reader 1; Reader 1; Reader 1; Reader 1; Daemon; Daemon] in
  let m := exec "a" (1000 + ms 60) sched (init g 2) in
  threads m = [PcDone (0, 1000 + ms 50, false); PcDone (0, 1000 + ms 50, false)] ∧
  expChan (mem m) = [] ∧
  trace m = [EvDelete "a" true; EvNotify "a"; EvDelete "a" false; EvNotify "a";
             EvHook "a"; EvHook "a"] ∧
  hooks (trace m) ≠ 1%nat.
Proof.
  split; [vm_compute; reflexivity|]. split; [vm_compute; reflexivity|].
  split; [vm_compute; reflexivity|]. vm_compute. discriminate.
Qed.

(** When the second reader enters [expGroup.Do] while the call of the first
    is in flight, it waits and shares it: one [Delete], one hook. *)
Example flight_shared :
  let g := SetWithExpire "a" 1 (ms 50) 1000 (EnableExpiredHook (New [])) in
  let sched := [Reader 0; Reader 1; Reader 0; Reader 0; Reader 1; Reader 1;
                Reader 0; Reader 0; Reader 0; Reader 1; Daemon] in
  let m := exec "a" (1000 + ms 60) sched (init g 2) in
  threads m = [PcDone (0, 1000 + ms 50, false); PcDone (0, 1000 + ms 50, false)] ∧
  trace m = [EvDelete "a" true; EvNotify "a"; EvHook "a"].
Proof. split; vm_compute; reflexivity. Qed.

Lemma C7_eviction_per_flight_witness :
  let g := SetWithExpire "a" 1 (ms 50) 1000 (EnableExpiredHook (New [])) in
  let sched := [Reader 0; Reader 1; Reader 0; Reader 0; Reader 0; Reader 0; Reader 0;
                Reader 1; Reader 1; Reader 1; Reader 1; Reader 1; Daemon; Daemon] in
  let m := exec "a" (1000 + ms 60) sched (init g 2) in
  (hooks (trace m) ≤ notifies (trace m))%nat ∧
  (notifies (trace m) ≤ deletes (trace m))%nat ∧
  (deletes (trace m) ≤ 2)%nat.
Proof.
  intros g sched m.
  destruct (C7_eviction_per_flight g "a" (Value (1000 + ms 50) 1) (1000 + ms 60) 2 sched)
    as (_ & H1 & H2 & H3 & _).
  - vm_compute. reflexivity.
  - reflexivity.
  - reflexivity.
  - reflexivity.
  - exact (conj H1 (conj H2 H3)).
Defined.

(** ** Runs for the further properties *)

Lemma X1_DeleteExpired_witness :
  let g := SetWithExpire "a" 1 (ms 50) 1000
             (SetWithExpire "bb" 2 NoTTL 1000 (EnableExpiredHook (New []))) in
  let g' := final (DeleteExpired false (1000 + ms 60) g) in
  DeleteExpired false (1000 + ms 60) g = Done 1 g' ∧
  entry_of g' "a" = None ∧ entry_of g' "bb" = Some (Value (-1) 2) ∧
  l g' = 1 ∧ expChan g' ≡ₚ ["a"] ∧
  DeleteExpired false (1000 + ms 60) g' = Done 0 g'.
Proof.
  intros g g'.
  destruct (X1_DeleteExpired g (1000 + ms 60)) as (H1 & _ & _ & H4 & H5 & H6 & H7).
  - apply gache_ok_set, gache_ok_set, gache_ok_EnableExpiredHook, gache_ok_New.
  - right. apply Nat.leb_le. vm_compute. reflexivity.
  - split; [exact H1|]. split; [exact (H4 "a")|]. split; [exact (H4 "bb")|].
    split; [exact H5|]. split; [exact H6|exact H7].
Defined.

Lemma X3_ToRawMap_evicts_witness :
  let g := SetWithExpire "a" 1 (ms 50) 1000
             (SetWithExpire "bb" 2 NoTTL 1000 (EnableExpiredHook (New []))) in
  let g' := final (ToRawMap false (1000 + ms 60) g) in
  ToRawMap false (1000 + ms 60) g = Done {[ "bb" := 2 ]} g' ∧
  entry_of g' "a" = None ∧ l g' = 1.
Proof.
  intros g g'.
  destruct (X3_ToRawMap_evicts g (1000 + ms 60)) as (m & _ & _ & H3 & H4 & _).
  - apply gache_ok_set, gache_ok_set, gache_ok_EnableExpiredHook, gache_ok_New.
  - right. apply Nat.leb_le. vm_compute. reflexivity.
  - split; [vm_compute; reflexivity|]. split; [exact (H3 "a")|exact H4].
Defined.

Lemma X4_Range_stops_per_shard_witness :
  let g := SetWithExpire "a" 1 NoTTL 1000
             (SetWithExpire "b" 2 NoTTL 1000
                (SetWithExpire "cc" 3 NoTTL 1000 (New []))) in
  Range false count_and_stop 2000 0%nat g = Done 2%nat g.
Proof.
  intros g.
  assert (gache_ok g) as Hg by apply gache_ok_set, gache_ok_set, gache_ok_set, gache_ok_New.
  destruct (X4_Range_stops_per_shard g 2000 Hg) as (H & _).
  - destruct Hg as (Hok & Hr & _).
    apply all_valid_expired_keys; [done|done|vm_compute; reflexivity].
  - exact H.
Defined.

Lemma X6_set_overwrites_witness :
  let g2 := set "a" 2 NoTTL 2000 (set "a" 1 (ms 50) 1000 (New [])) in
  shards g2 = shards (set "a" 2 NoTTL 2000 (New [])) ∧
  entry_of g2 "a" = Some (Value (-1) 2) ∧
  l g2 = 2.
Proof.
  apply (X6_set_overwrites (New []) "a" 1 2 (ms 50) NoTTL 1000 2000).
  apply shards_ok_New.
Defined.

Lemma X7_other_keys_witness :
  result (Get "bb" 2000 (set "a" 1 NoTTL 1000 (New []))) =
    result (Get "bb" 2000 (New (V:=Z) [])) ∧
  result (Get "bb" 2000 (Delete "a" (New [])).1) =
    result (Get "bb" 2000 (New (V:=Z) [])).
Proof.
  apply (X7_other_keys (New []) "a" "bb" 1 NoTTL 1000 2000).
  - apply shards_ok_New.
  - discriminate.
Defined.

Lemma X8_get_expired_witness :
  let g := SetWithExpire "a" 1 (ms 50) 1000 (EnableExpiredHook (New [])) in
  get "a" (1000 + ms 60) g = Done (0, 1000 + ms 50, false) (evicted "a" g) ∧
  expChan (evicted "a" g) = ["a"].
Proof.
  intros g.
  destruct (X8_get_expired g "a" (Value (1000 + ms 50) 1) (1000 + ms 60))
    as (H & _).
  - apply shards_ok_set. exact (shards_ok_New (V:=Z)).
  - reflexivity.
  - reflexivity.
  - apply H. right. apply Nat.ltb_lt. vm_compute. reflexivity.
Defined.

(** With the hook enabled and 5120 keys waiting in its channel, a [get] on
    an expired entry stands at the send. *)
Example get_blocks_on_full_channel :
  let g := set_expChan (replicate expChanCap "z")
             (SetWithExpire "a" 1 (ms 50) 1000 (EnableExpiredHook (New []))) in
  let g' := (Delete "a" g).1 in
  get "a" (1000 + ms 60) g = Blocked g' ∧
  entry_of g' "a" = None ∧ Len g' = 0.
Proof.
  split; [vm_compute; reflexivity|]. split; vm_compute; reflexivity.
Qed.

Lemma X10_GetWithExpire_witness :
  let g1 := SetWithExpire "a" 1 (ms 50) 1000 (New []) in
  GetWithExpire "a" (1000 + ms 50) g1 = Done (1, 1000 + ms 50, true) g1 ∧
  GetWithExpire "a" (1000 + ms 60) g1 =
    Done (0, 1000 + ms 50, false) (evicted "a" g1).
Proof.
  intros g1.
  destruct (X10_GetWithExpire (New []) "a" 1 (ms 50) 1000 (1000 + ms 50))
    as (H1 & _ & _).
  - apply shards_ok_New.
  - left. reflexivity.
  - reflexivity.
  - reflexivity.
  - split; [discriminate|reflexivity].
  - destruct (X10_GetWithExpire (New []) "a" 1 (ms 50) 1000 (1000 + ms 60))
      as (_ & H2 & _).
    + apply shards_ok_New.
    + left. reflexivity.
    + reflexivity.
    + reflexivity.
    + split; [discriminate|reflexivity].
    + split; [apply H1; discriminate|apply H2; reflexivity].
Defined.

Lemma X11_default_expire_witness :
  let g1 := Set_ "a" 1 1000 (SetDefaultExpire 0 (New [])) in
  let g2 := Set_ "a" 1 1000 (SetDefaultExpire (ms 50) (New [])) in
  Get "a" (2 ^ 63 - 1) g1 = Done (1, true) g1 ∧
  Get "a" (1000 + ms 60) g2 = Done (0, false) (evicted "a" g2).
Proof.
  intros g1 g2. split.
  - destruct (X11_default_expire (New []) "a" 1 0 1000 (2 ^ 63 - 1))
      as (_ & H & _).
    + apply shards_ok_New.
    + left. reflexivity.
    + apply H. discriminate.
  - destruct (X11_default_expire (New []) "a" 1 (ms 50) 1000 (1000 + ms 60))
      as (_ & _ & H).
    + apply shards_ok_New.
    + left. reflexivity.
    + destruct H as (_ & H); [reflexivity|reflexivity| |apply H; reflexivity].
      split; [discriminate|reflexivity].
Defined.

Lemma X9_Read_counts_pairs_witness :
  let g := SetWithExpire "x" "old" NoTTL 1000
             (SetWithExpire "yy" "w" NoTTL 1000 (New [])) in
  let g' := (Read (Some {[ "x" := "v" ]}) 3000 g).2 in
  l g' = 3 ∧
  entry_of g' "x" = Some (Value (3000 + Second * 30) "v") ∧
  entry_of g' "yy" = Some (Value (-1) "w").
Proof.
  intros g g'.
  destruct (X9_Read_counts_pairs (gob:=example_gob) g (Some {[ "x" := "v" ]})
              {[ "x" := "v" ]} 3000) as (H1 & H2 & H3 & _).
  - apply gache_ok_set, gache_ok_set, gache_ok_New.
  - reflexivity.
  - split; [exact H1|]. split; [exact (H2 "x" "v" eq_refl)|].
    exact (H3 "yy" eq_refl).
Defined.

Lemma X23_ttl_overflow_witness :
  let g1 := SetWithExpire "a" 1 (2 ^ 63 - 1) 1000 (New []) in
  entry_of g1 "a" = Some (Value (999 - 2 ^ 63) 1) ∧
  Get "a" (2 ^ 63 - 1) g1 = Done (1, true) g1.
Proof.
  intros g1.
  destruct (X23_ttl_overflow (New []) "a" 1 (2 ^ 63 - 1) 1000 (2 ^ 63 - 1))
    as (H1 & _ & H2).
  - apply shards_ok_New.
  - split; [discriminate|reflexivity].
  - split; [discriminate|reflexivity].
  - reflexivity.
  - discriminate.
  - split; [exact H1|exact H2].
Defined.

Lemma X12_readers_counter_witness :
  let g := SetWithExpire "a" 1 (ms 50) 1000 (EnableExpiredHook (New [])) in
  let sched := [Reader 0; Reader 1; Reader 0; Reader 0; Reader 0; Reader 0; Reader 0;
                Reader 1; Reader 1; Reader 1; Reader 1; Reader 1; Daemon; Daemon] in
  let m := exec "a" (1000 + ms 60) sched (init g 2) in
  deletes (trace m) = 2%nat ∧ removals (trace m) = 1%nat ∧
  l (mem m) = wrap_uint64 (1 - 2) ∧ Len (mem m) = -1.
Proof.
  intros g sched m.
  destruct (X12_readers_counter g "a" (1000 + ms 60) 2 sched) as (H & _).
  - apply gache_ok_set. exact (gache_ok_New (V:=Z)).
  - split; [vm_compute; reflexivity|]. split; [vm_compute; reflexivity|].
    split; [exact H|vm_compute; reflexivity].
Defined.

Lemma X13_readers_answers_witness :
  let g := SetWithExpire "a" 1 (ms 50) 1000 (EnableExpiredHook (New [])) in
  let sched := [Reader 0; Reader 0; Reader 0; Reader 0; Reader 1; Reader 1;
                Reader 0; Reader 0; Reader 1] in
  answer_ok g "a" (1000 + ms 60) (0, 0, false).
Proof.
  intros g sched.
  destruct (X13_readers_answers g "a" (1000 + ms 60) 2 sched 1 (0, 0, false))
    as (H & _).
  - apply gache_ok_set. exact (gache_ok_New (V:=Z)).
  - vm_compute. reflexivity.
  - exact H.
Defined.

(** *** Runs of the HTTP cache *)

Lemma X14_legacy_set_Delete_results_witness :
  let g := Legacy.New (T:=Z) in
  let g1 := Legacy.set_data {[ "k" := Legacy.Value 110 (Legacy.Other 1) ]} g in
  Legacy.set "k" (Legacy.Other 1) 10 100 g = Legacy.Ok (true, g1) ∧
  Legacy.Delete "k" g1 = Legacy.Ok (false, g) ∧
  Legacy.get "k" 105 g = Legacy.Ok (Legacy.Nil, false, g).
Proof.
  pose proof (X14_legacy_set_Delete_results (Legacy.New (T:=Z)) ∅ "k"
                (Legacy.Other 1) 10 100 105 eq_refl) as H.
  vm_compute in H. vm_compute. exact H.
Defined.

Lemma X15_legacy_expiry_witness :
  let g := Legacy.New (T:=Z) in
  let g1 := Legacy.set_data {[ "k" := Legacy.Value 99 (Legacy.Other 1) ]} g in
  Legacy.set "k" (Legacy.Other 1) (-1) 100 g = Legacy.Ok (true, g1) ∧
  Legacy.get "k" 100 g1 = Legacy.Ok (Legacy.Nil, false, g).
Proof.
  destruct (X15_legacy_expiry (Legacy.New (T:=Z)) ∅ "k" (Legacy.Other 1) (-1) 100 100)
    as (H1 & _ & _ & H2).
  - reflexivity.
  - split; [exact H1|]. apply H2; discriminate.
Defined.

Lemma X16_legacy_Clear_nil_witness :
  ∃ g', Legacy.Clear (Legacy.New (T:=Z)) = Legacy.Ok (tt, g') ∧
        Legacy.get "k" 100 g' = Legacy.Panic ∧
        Legacy.Clear g' = Legacy.Panic.
Proof.
  destruct (X16_legacy_Clear_nil (http:=example_http) (Legacy.New (T:=Z)) ∅ "k" (Legacy.Other 1) 10 100
              "/index" 200 tt [] ∅ 100 100 100)
    as (g' & H1 & _ & H2 & _ & _ & _ & H3 & _).
  - reflexivity.
  - exists g'. split; [exact H1|]. split; [exact H2|exact H3].
Defined.

Lemma X17_legacy_DeleteExpired_witness :
  let d : gmap string (Legacy.value Z) :=
    {[ "a" := Legacy.Value 50 (Legacy.Other 1);
       "b" := Legacy.Value 200 (Legacy.Other 2) ]} in
  let g := Legacy.set_data d Legacy.New in
  ∃ d', Legacy.DeleteExpired 100 g = Legacy.Ok (1, Legacy.set_data d' g) ∧
        d' !! "a" = None ∧
        d' !! "b" = Some (Legacy.Value 200 (Legacy.Other 2)).
Proof.
  intros d g.
  destruct (X17_legacy_DeleteExpired g d 100) as (d' & H1 & H2 & _).
  - reflexivity.
  - vm_compute. reflexivity.
  - exists d'. split; [exact H1|]. split; [exact (H2 "a")|exact (H2 "b")].
Defined.

Lemma X18_legacy_server_cache_witness :
  let c := Legacy.Build_ServerCache (http:=example_http) 200 tt [] in
  (∃ g2, Legacy.setServerCache (http:=example_http) "/index" 200 tt [] 10 100 101
           (Legacy.New (T:=Z)) = Legacy.Ok (None, g2) ∧
         Legacy.getServerCache (http:=example_http) "/index" 105 g2 =
           Legacy.Ok (Some c, true, g2)) ∧
  let g := Legacy.set_data
             {[ Legacy.generateHTTPKey (http:=example_http) "/index" :=
                  Legacy.Value (T:=Z) 111 (Legacy.Server c) ]} Legacy.New in
  Legacy.setServerCache (http:=example_http) "/index" 404 tt [] 10 105 106 g =
    Legacy.Ok (Some "cache already exists", g).
Proof.
  intros c. split.
  - destruct (X18_legacy_server_cache (http:=example_http) (Legacy.New (T:=Z)) ∅
                "/index" 200 tt [] 10 100 101 105 eq_refl) as (_ & H).
    destruct (H eq_refl) as (g2 & H1 & H2 & _).
    exists g2. split; [exact H1|]. apply H2; reflexivity.
  - intros g.
    destruct (X18_legacy_server_cache (http:=example_http) g
                {[ Legacy.generateHTTPKey (http:=example_http) "/index" :=
                     Legacy.Value (T:=Z) 111 (Legacy.Server c) ]}
                "/index" 404 tt [] 10 105 106 105 eq_refl) as (H & _).
    apply (H (Legacy.Value 111 (Legacy.Server c))).
    + vm_compute. reflexivity.
    + reflexivity.
Defined.

Lemma X19_legacy_type_assertion_witness :
  let c := Legacy.Build_ClientCache (http:=example_http) EmptyString 160 EmptyString ∅ in
  let d : gmap string (Legacy.value Z) :=
    {[ Legacy.generateHTTPKey (http:=example_http) "/index" := Legacy.Value 160 (Legacy.Client c) ]} in
  let g := Legacy.set_data d Legacy.New in
  Legacy.getServerCache (http:=example_http) "/index" 100 g = Legacy.Panic ∧
  Legacy.getClientCache (http:=example_http) "/index" 100 g = Legacy.Ok (Some c, true, g).
Proof.
  intros c d g.
  destruct (X19_legacy_type_assertion (http:=example_http) g d "/index"
              (Legacy.Value 160 (Legacy.Client c)) 100) as (H1 & _ & _ & H2).
  - reflexivity.
  - vm_compute. reflexivity.
  - reflexivity.
  - split; [apply H1; discriminate|apply H2; reflexivity].
Defined.

(** The header holds "max-age" without "=": [createHTTPCache] panics. *)
Example createHTTPCache_panics :
  Legacy.createHTTPCache (http:=example_http) ({[ "Cache-Control" := "max-age 60" ]} : gmap string string) 100
  = Legacy.Panic.
Proof. vm_compute. reflexivity. Qed.

(** The directive among others, a space before the comma, and a number of
    seconds whose product with [time.Second] wraps: the cache is expired
    when it is made. *)
Example createHTTPCache_runs :
  let run (h : string) :=
    Legacy.createHTTPCache (http:=example_http) ({[ "Cache-Control" := h ]} : gmap string string) 100 in
  Legacy.Expire <$> (match run "public, max-age=60" with
                     | Legacy.Ok (inr c) => Some c | _ => None end)
    = Some (100 + 60 * Second) ∧
  run "max-age=60 , public" = Legacy.Ok (inl "Invalid max-age format") ∧
  run "no-store, max-age=60" = Legacy.Ok (inl "cache disabled") ∧
  Legacy.Expire <$> (match run "max-age=9223372037" with
                     | Legacy.Ok (inr c) => Some c | _ => None end)
    = Some (100 + (9223372037 * Second - 2 ^ 64)).
Proof.
  split; [vm_compute; reflexivity|]. split; [vm_compute; reflexivity|].
  split; vm_compute; reflexivity.
Qed.

Lemma X21_createHTTPCache_max_age_witness :
  let resp : gmap string string :=
    {[ "Cache-Control" := "max-age=60"; "ETag" := "abc" ]} in
  Legacy.createHTTPCache (http:=example_http) resp 100 =
  Legacy.Ok (inr (Legacy.Build_ClientCache (http:=example_http) "abc" (100 + 60 * Second) EmptyString resp)).
Proof.
  intros resp.
  apply (X21_createHTTPCache_max_age (http:=example_http) resp "60" 60 100).
  - reflexivity.
  - discriminate.
  - reflexivity.
  - reflexivity.
Defined.

Lemma X22_legacy_client_cache_witness :
  let resp : gmap string string := {[ "Cache-Control" := "max-age=60" ]} in
  let c := Legacy.Build_ClientCache (http:=example_http) EmptyString (100 + 60 * Second) EmptyString resp in
  ∃ g2, Legacy.setClientCache (http:=example_http) "/index" resp 99 100 101 103 (Legacy.New (T:=Z)) =
          Legacy.Ok (None, g2) ∧
        Legacy.getClientCache (http:=example_http) "/index" (101 + 60 * Second) g2 =
          Legacy.Ok (Some c, true, g2).
Proof.
  intros resp c.
  destruct (X22_legacy_client_cache (http:=example_http) (Legacy.New (T:=Z)) ∅ "/index" resp c
              99 100 101 103 (101 + 60 * Second)) as (g2 & H1 & H2 & _).
  - reflexivity.
  - reflexivity.
  - vm_compute. reflexivity.
  - exists g2. split; [exact H1|]. apply H2. reflexivity.
Defined.
